(** * HackerNews MCP server: the caching API client

    A shallow embedding of [src/utils/cache.ts] (the bounded expiring cache)
    and of [src/api/client.ts] (the HackerNews API client built on it),
    followed by the properties of the specification that concern them.
    The logger ([src/utils/logger.ts]) and the handlers that call the client
    (the item resource, the tools [get_post] and [search_comments]) are
    embedded after the client, and their properties follow those of the
    client.

    Conventions of the embedding.
    - JavaScript numbers that the program uses as integers (item ids, unix
      times, scores, sizes, millisecond clocks, HTTP status codes) are [Z].
      The quotients [ageHours] and [averageScore] are IEEE 754 doubles, as
      in the code: they are computed with the primitive floats, from the
      doubles of their integer operands, in the order the code computes
      them.  The two ratios among the statistics of [search_comments] are
      exact rationals; no statement is about their values.
    - A string is its sequence of code units.  The case folding of the
      platform ([String.prototype.toLowerCase], which folds the letters of
      Unicode) is a parameter of the client; for the concrete runs, whose
      strings are ASCII, it is the folding of A-Z.
    - A JavaScript [Map] is an association list with unique keys, kept in
      insertion order: that order is what [keys().next()] observes.
    - [undefined] and [null] are [None]; JavaScript truthiness is written out
      where the program relies on it.
    - [Date.now()] is an explicit clock: the methods of the cache take the
      current time, and the client keeps the clock in its state, where a
      request that settles moves it forward.
    - An [async] method is a function from the state of the client to its
      outcome (the promise resolves with a value, or rejects with what was
      thrown) and the state it leaves.
    - The upstream API is a parameter: it says how each request ends. *)

From Stdlib Require Import ZArith List String Ascii Bool Lia QArith Qround.
From Stdlib Require Import Sorted Permutation PrimFloat.
From Stdlib Require Import DecimalString DecimalZ DecimalPos.
Import ListNotations.

Local Open Scope Z_scope.

(** ** JavaScript truthiness, as far as the program uses it *)

Definition truthy_string (s : string) : bool := negb (String.eqb s EmptyString).

Definition truthy_number (n : Z) : bool := negb (n =? 0).

Definition truthy_opt_string (o : option string) : bool :=
  match o with Some s => truthy_string s | None => false end.

Definition truthy_opt_number (o : option Z) : bool :=
  match o with Some n => truthy_number n | None => false end.

(** ** [Map<string, V>]: an insertion-ordered association list *)

Module JsMap.
Section Defs.
Context {V : Type}.

Definition t := list (string * V).

Fixpoint get (m : t) (k : string) : option V :=
  match m with
  | [] => None
  | (k', v) :: rest => if String.eqb k' k then Some v else get rest k
  end.

(** [Map.prototype.set]: an existing key keeps its position, a new key goes
    to the end. *)
Fixpoint set (m : t) (k : string) (v : V) : t :=
  match m with
  | [] => [(k, v)]
  | (k', v') :: rest =>
      if String.eqb k' k then (k', v) :: rest else (k', v') :: set rest k v
  end.

Fixpoint delete (m : t) (k : string) : t :=
  match m with
  | [] => []
  | (k', v') :: rest =>
      if String.eqb k' k then rest else (k', v') :: delete rest k
  end.

Definition has (m : t) (k : string) : bool :=
  match get m k with Some _ => true | None => false end.

Definition size (m : t) : Z := Z.of_nat (List.length m).

Definition keys (m : t) : list string := map fst m.

(** [m.keys().next().value] *)
Definition first_key (m : t) : option string :=
  match m with
  | [] => None
  | (k, _) :: _ => Some k
  end.

(** The keys of a [Map] are pairwise distinct. *)
Definition wf (m : t) : Prop := NoDup (keys m).
End Defs.
Arguments t : clear implicits.
End JsMap.

(** ** [src/utils/cache.ts] *)

Module Cache.
Section SimpleCache.
Context {T : Type}.

Record CacheEntry := mkEntry { value : T; expiresAt : Z }.

Record SimpleCache := mkCache {
  cache : JsMap.t CacheEntry;
  ttlMs : Z;
  maxSize : Z
}.

(** [constructor(ttlSeconds = 300, maxSize = 1000)] *)
Definition new (ttlSeconds maxSize : Z) : SimpleCache :=
  {| cache := []; ttlMs := ttlSeconds * 1000; maxSize := maxSize |}.

Definition with_cache (c : SimpleCache) (m : JsMap.t CacheEntry) : SimpleCache :=
  {| cache := m; ttlMs := ttlMs c; maxSize := maxSize c |}.

Definition expired (now : Z) (e : CacheEntry) : bool := now >? expiresAt e.

(** [cleanup()]: every entry with [now > expiresAt] is deleted; deleting
    while iterating a [Map] still visits the remaining entries. *)
Definition cleanup (now : Z) (c : SimpleCache) : SimpleCache :=
  with_cache c (filter (fun kv => negb (expired now (snd kv))) (cache c)).

(** The second capacity test of [set]: the first key in iteration order is
    deleted, under the guard [if (firstKey)]. *)
Definition evict_oldest (c : SimpleCache) : SimpleCache :=
  match JsMap.first_key (cache c) with
  | Some firstKey =>
      if truthy_string firstKey
      then with_cache c (JsMap.delete (cache c) firstKey)
      else c
  | None => c
  end.

Definition set (now : Z) (key : string) (v : T) (c : SimpleCache) : SimpleCache :=
  if (maxSize c =? 0) || (ttlMs c =? 0) then c
  else
    let c1 := if JsMap.size (cache c) >=? maxSize c then cleanup now c else c in
    let c2 := if JsMap.size (cache c1) >=? maxSize c1 then evict_oldest c1 else c1 in
    with_cache c2 (JsMap.set (cache c2) key
                     {| value := v; expiresAt := now + ttlMs c2 |}).

Definition get (now : Z) (key : string) (c : SimpleCache) : option T * SimpleCache :=
  match JsMap.get (cache c) key with
  | None => (None, c)
  | Some entry =>
      if expired now entry
      then (None, with_cache c (JsMap.delete (cache c) key))
      else (Some (value entry), c)
  end.

(** [has(key)] is [get(key) !== undefined]. *)
Definition has (now : Z) (key : string) (c : SimpleCache) : bool * SimpleCache :=
  match get now key c with
  | (Some _, c') => (true, c')
  | (None, c') => (false, c')
  end.

Definition delete (key : string) (c : SimpleCache) : bool * SimpleCache :=
  (JsMap.has (cache c) key, with_cache c (JsMap.delete (cache c) key)).

Definition clear (c : SimpleCache) : SimpleCache := with_cache c [].

Definition size (now : Z) (c : SimpleCache) : Z * SimpleCache :=
  let c' := cleanup now c in (JsMap.size (cache c'), c').

(** The value part of [get], for statements that do not follow the state. *)
Definition lookup (now : Z) (key : string) (c : SimpleCache) : option T :=
  fst (get now key c).
End SimpleCache.
Arguments CacheEntry : clear implicits.
Arguments SimpleCache : clear implicits.
End Cache.

(** ** Strings and arrays of the JavaScript runtime *)

(** Template-literal rendering of an integer: [`${id}`]. *)
Definition num (n : Z) : string := NilZero.string_of_int (Z.to_int n).

Definition lower_ascii (c : ascii) : ascii :=
  let n := nat_of_ascii c in
  if ((65 <=? n) && (n <=? 90))%nat then ascii_of_nat (n + 32) else c.

(** [String.prototype.toLowerCase] on a string of ASCII characters: the
    letters A-Z are folded.  It stands for the platform's function in the
    concrete runs only, all of whose strings are ASCII. *)
Fixpoint toLowerCase_ascii (s : string) : string :=
  match s with
  | EmptyString => EmptyString
  | String c rest => String (lower_ascii c) (toLowerCase_ascii rest)
  end.

(** The double of an integer: exact up to [2^53] in absolute value, which
    covers the clocks, times, scores and counts of the program. *)
Fixpoint number_of_pos (p : positive) : float :=
  match p with
  | xH => 1%float
  | xO q => (2 * number_of_pos q)%float
  | xI q => (2 * number_of_pos q + 1)%float
  end.

Definition number (z : Z) : float :=
  match z with
  | Z0 => 0%float
  | Zpos p => number_of_pos p
  | Zneg p => (- number_of_pos p)%float
  end.

(** [s.includes(sub)] *)
Fixpoint includes (s sub : string) : bool :=
  String.prefix sub s ||
  match s with
  | EmptyString => false
  | String _ rest => includes rest sub
  end.

(** [baseUrl.replace(/\/$/, "")]: one trailing slash is removed. *)
Fixpoint strip_trailing_slash (s : string) : string :=
  match s with
  | EmptyString => EmptyString
  | String c EmptyString => if Ascii.eqb c "/" then EmptyString else s
  | String c rest => String c (strip_trailing_slash rest)
  end.

(** [Array.prototype.slice(start, end)]: a negative index counts from the
    end, and both are clamped to the array. *)
Definition slice_index (len i : Z) : Z :=
  if i <? 0 then Z.max (len + i) 0 else Z.min i len.

Definition slice {A : Type} (l : list A) (start stop : Z) : list A :=
  let len := Z.of_nat (List.length l) in
  let k := slice_index len start in
  let final := slice_index len stop in
  firstn (Z.to_nat (final - k)) (skipn (Z.to_nat k) l).

(** ** [src/types/hackernews.ts] *)

Inductive ItemType := job | story | comment | poll | pollopt | ask | show.

Definition ItemType_eqb (a b : ItemType) : bool :=
  match a, b with
  | job, job | story, story | comment, comment | poll, poll
  | pollopt, pollopt | ask, ask | show, show => true
  | _, _ => false
  end.

Record HackerNewsItem := mkItem {
  id : Z;
  deleted : option bool;
  type : option ItemType;
  by_ : option string;
  time : option Z;
  text : option string;
  dead : option bool;
  parent : option Z;
  poll_ : option Z;
  kids : option (list Z);
  url : option string;
  score : option Z;
  title : option string;
  parts : option (list Z);
  descendants : option Z
}.

Record HackerNewsUser := mkUser {
  user_id : string;
  delay : option Z;
  created : Z;
  karma : Z;
  about : option string;
  submitted : option (list Z)
}.

Record HackerNewsUpdates := mkUpdates {
  items : list Z;
  profiles : list string
}.

Record SearchParams := mkSearch {
  query : option string;
  author : option string;
  startTime : option Z;
  endTime : option Z;
  minScore : option Z;
  itemType : option ItemType;
  limit : option Z
}.

Record StoryWithMetadata := mkStoryMeta {
  story_item : HackerNewsItem;
  commentCount : Z;
  ageHours : float;
  domain : option string
}.

Record UserWithStats := mkUserStats {
  stats_user : HackerNewsUser;
  averageScore : option float;
  topStories : list HackerNewsItem;
  recentActivity : list HackerNewsItem
}.

(** [item.type === t] *)
Definition has_type (item : HackerNewsItem) (t : ItemType) : bool :=
  match type item with
  | Some t' => ItemType_eqb t' t
  | None => false
  end.

(** [x || 0] on an optional number. *)
Definition or_zero (o : option Z) : Z :=
  match o with Some n => n | None => 0 end.

(** ** The network, as the client observes it *)

(** What [response.json()] does: it resolves with the decoded body or
    rejects with a decode error. *)
Inductive Body (A : Type) :=
| Json (a : A)
| Malformed (msg : string).
Arguments Json {A} a.
Arguments Malformed {A} msg.

(** What [fetch(url, { signal })] does under the timeout guard. *)
Inductive FetchOutcome (A : Type) :=
| Response (status : Z) (statusText : string) (body : Body A)
| NetworkFailure (msg : string)
| Aborted.
Arguments Response {A} status statusText body.
Arguments NetworkFailure {A} msg.
Arguments Aborted {A}.

(** The upstream API: one typed answer per endpoint, the same at every
    request, and for each URL the time that passes until its request
    settles, counted from the previous event the client observes (requests
    that are in flight together settle one after the other). *)
Record Upstream := mkUpstream {
  item_json : Z -> FetchOutcome (option HackerNewsItem);
  user_json : string -> FetchOutcome (option HackerNewsUser);
  list_json : string -> FetchOutcome (list Z);
  maxitem_json : FetchOutcome Z;
  updates_json : FetchOutcome HackerNewsUpdates;
  latency : string -> Z
}.

(** [response.ok] *)
Definition response_ok (status : Z) : bool := (200 <=? status) && (status <? 300).

(** ** Errors and the client monad *)

Record HackerNewsClientError := mkError {
  message : string;
  statusCode : option Z
}.

(** A thrown value is a [HackerNewsClientError] or some other [Error]. *)
Inductive Thrown :=
| ClientError (e : HackerNewsClientError)
| PlainError (msg : string).

(** [error instanceof Error ? error.message : String(error)] *)
Definition thrown_message (t : Thrown) : string :=
  match t with
  | ClientError e => message e
  | PlainError msg => msg
  end.

Definition thrown_status (t : Thrown) : option Z :=
  match t with
  | ClientError e => statusCode e
  | PlainError _ => None
  end.

Definition is_client_error (t : Thrown) : bool :=
  match t with ClientError _ => true | PlainError _ => false end.

(** The outcome of an asynchronous method: its promise resolves, or it
    rejects; [OutOfFuel] belongs to the model only, for the one recursion
    (the comment walk) that is not bounded by its input. *)
Inductive Result (A : Type) :=
| Ok (a : A)
| Throw (t : Thrown)
| OutOfFuel.
Arguments Ok {A} a.
Arguments Throw {A} t.
Arguments OutOfFuel {A}.

Record CacheOptions := mkCacheOptions {
  ttlSeconds : Z;
  maxSize : Z
}.

Record HackerNewsClientOptions := mkOptions {
  opt_baseUrl : string;
  opt_timeout : Z;
  cacheOptions : option CacheOptions
}.

Record HackerNewsClient := mkClient {
  baseUrl : string;
  timeout : Z;
  itemCache : Cache.SimpleCache HackerNewsItem;
  userCache : Cache.SimpleCache HackerNewsUser;
  listCache : Cache.SimpleCache (list Z)
}.

(** The client's caches, the clock, and the requests handed to [fetch] so
    far (oldest first). *)
Record World := mkWorld {
  client : HackerNewsClient;
  now : Z;
  requests : list string
}.

Definition M (A : Type) : Type := World -> Result A * World.

Definition ret {A} (a : A) : M A := fun w => (Ok a, w).

Definition throw {A} (t : Thrown) : M A := fun w => (Throw t, w).

Definition bind {A B} (m : M A) (k : A -> M B) : M B :=
  fun w =>
    match m w with
    | (Ok a, w') => k a w'
    | (Throw t, w') => (Throw t, w')
    | (OutOfFuel, w') => (OutOfFuel, w')
    end.

(** [try { m } catch (error) { handler(error) }] *)
Definition try_catch {A} (m : M A) (handler : Thrown -> M A) : M A :=
  fun w =>
    match m w with
    | (Throw t, w') => handler t w'
    | r => r
    end.

Declare Scope client_scope.
Delimit Scope client_scope with client.
Notation "x <- m ;; k" := (bind m (fun x => k))
  (at level 61, m at next level, right associativity) : client_scope.
Notation "m ;;; k" := (bind m (fun _ => k))
  (at level 61, right associativity) : client_scope.

Definition set_client (w : World) (c : HackerNewsClient) : World :=
  {| client := c; now := now w; requests := requests w |}.

Definition set_itemCache (c : HackerNewsClient) (ic : Cache.SimpleCache HackerNewsItem) :=
  {| baseUrl := baseUrl c; timeout := timeout c;
     itemCache := ic; userCache := userCache c; listCache := listCache c |}.

Definition set_userCache (c : HackerNewsClient) (uc : Cache.SimpleCache HackerNewsUser) :=
  {| baseUrl := baseUrl c; timeout := timeout c;
     itemCache := itemCache c; userCache := uc; listCache := listCache c |}.

Definition set_listCache (c : HackerNewsClient) (lc : Cache.SimpleCache (list Z)) :=
  {| baseUrl := baseUrl c; timeout := timeout c;
     itemCache := itemCache c; userCache := userCache c; listCache := lc |}.

(** The clock moves between calls and while a request is in flight. *)
Definition at_time (t : Z) (w : World) : World :=
  {| client := client w; now := t; requests := requests w |}.

Definition this : M HackerNewsClient := fun w => (Ok (client w), w).

Definition date_now : M Z := fun w => (Ok (now w), w).

Definition itemCache_get (key : string) : M (option HackerNewsItem) :=
  fun w =>
    let (r, ic) := Cache.get (now w) key (itemCache (client w)) in
    (Ok r, set_client w (set_itemCache (client w) ic)).

Definition itemCache_set (key : string) (item : HackerNewsItem) : M unit :=
  fun w =>
    (Ok tt, set_client w (set_itemCache (client w)
                            (Cache.set (now w) key item (itemCache (client w))))).

Definition userCache_get (key : string) : M (option HackerNewsUser) :=
  fun w =>
    let (r, uc) := Cache.get (now w) key (userCache (client w)) in
    (Ok r, set_client w (set_userCache (client w) uc)).

Definition userCache_set (key : string) (user : HackerNewsUser) : M unit :=
  fun w =>
    (Ok tt, set_client w (set_userCache (client w)
                            (Cache.set (now w) key user (userCache (client w))))).

Definition listCache_get (key : string) : M (option (list Z)) :=
  fun w =>
    let (r, lc) := Cache.get (now w) key (listCache (client w)) in
    (Ok r, set_client w (set_listCache (client w) lc)).

Definition listCache_set (key : string) (stories : list Z) : M unit :=
  fun w =>
    (Ok tt, set_client w (set_listCache (client w)
                            (Cache.set (now w) key stories (listCache (client w))))).

(** ** [src/api/client.ts] *)

Local Open Scope string_scope.
Local Open Scope client_scope.

(** [new HackerNewsClient(options)]; the list cache gets
    [Math.floor(cacheOptions.maxSize / 10)], and [/] on [Z] is the floored
    quotient. *)
Definition new_client (options : HackerNewsClientOptions) : HackerNewsClient :=
  let cacheOptions :=
    match cacheOptions options with
    | Some o => o
    | None => {| ttlSeconds := 300; maxSize := 1000 |}
    end in
  {| baseUrl := strip_trailing_slash (opt_baseUrl options);
     timeout := opt_timeout options;
     itemCache := Cache.new (ttlSeconds cacheOptions) (maxSize cacheOptions);
     userCache := Cache.new (ttlSeconds cacheOptions) (maxSize cacheOptions);
     listCache := Cache.new (ttlSeconds cacheOptions) (maxSize cacheOptions / 10) |}.

Section Client.
(** The upstream API the client talks to. *)
Variable net : Upstream.
(** [new URL(url).hostname] of the platform; [None] when the constructor
    throws. *)
Variable hostname : string -> option string.
(** [String.prototype.toLowerCase] of the platform. *)
Variable toLowerCase : string -> string.

(** *** Private helpers *)

(** [fetch(url, ...)] is called: the request leaves. *)
Definition issue (url : string) (w : World) : World :=
  {| client := client w; now := now w; requests := requests w ++ [url] |}.

(** The rest of [fetchWithTimeout], once the awaited [fetch] has settled. *)
Definition fetch_settled {A} (url : string) (o : FetchOutcome A) : M (Body A) :=
  fun w =>
    let w1 := at_time (now w + latency net url) w in
    match o with
    | Response status statusText body =>
        if response_ok status then (Ok body, w1)
        else (Throw (ClientError
                {| message := "HTTP " ++ num status ++ ": " ++ statusText;
                   statusCode := Some status |}), w1)
    | Aborted =>
        (Throw (ClientError
           {| message := "Request timeout after " ++ num (timeout (client w)) ++ "ms";
              statusCode := None |}), w1)
    | NetworkFailure msg => (Throw (PlainError msg), w1)
    end.

Definition fetchWithTimeout {A} (url : string) (o : FetchOutcome A) : M (Body A) :=
  fun w => fetch_settled url o (issue url w).

(** [await response.json()] *)
Definition json {A} (response : Body A) : M A :=
  match response with
  | Json a => ret a
  | Malformed msg => throw (PlainError msg)
  end.

(** [throw new HackerNewsClientError(`Failed to fetch ${what}: ${message}`)] *)
Definition rethrow {A} (what : string) (error : Thrown) : M A :=
  throw (ClientError
           {| message := "Failed to fetch " ++ what ++ ": " ++ thrown_message error;
              statusCode := None |}).

Definition item_key (id : Z) : string := "item:" ++ num id.
Definition user_key (id : string) : string := "user:" ++ id.
Definition list_key (endpoint : string) : string := "list:" ++ endpoint.

Definition item_url (c : HackerNewsClient) (id : Z) : string :=
  baseUrl c ++ "/item/" ++ num id ++ ".json".
Definition user_url (c : HackerNewsClient) (id : string) : string :=
  baseUrl c ++ "/user/" ++ id ++ ".json".
Definition endpoint_url (c : HackerNewsClient) (endpoint : string) : string :=
  baseUrl c ++ "/" ++ endpoint ++ ".json".

(** *** Core API methods *)

Definition getItem (id : Z) : M (option HackerNewsItem) :=
  let cacheKey := item_key id in
  cached <- itemCache_get cacheKey ;;
  match cached with
  | Some item => ret (Some item)
  | None =>
      try_catch
        (c <- this ;;
         response <- fetchWithTimeout (item_url c id) (item_json net id) ;;
         item <- json response ;;
         match item with
         | Some i => itemCache_set cacheKey i ;;; ret item
         | None => ret item
         end)
        (rethrow ("item " ++ num id))
  end.

Definition getUser (id : string) : M (option HackerNewsUser) :=
  let cacheKey := user_key id in
  cached <- userCache_get cacheKey ;;
  match cached with
  | Some user => ret (Some user)
  | None =>
      try_catch
        (c <- this ;;
         response <- fetchWithTimeout (user_url c id) (user_json net id) ;;
         user <- json response ;;
         match user with
         | Some u => userCache_set cacheKey u ;;; ret user
         | None => ret user
         end)
        (rethrow ("user " ++ id))
  end.

Definition getMaxItemId : M Z :=
  try_catch
    (c <- this ;;
     response <- fetchWithTimeout (endpoint_url c "maxitem") (maxitem_json net) ;;
     json response)
    (rethrow "max item ID").

Definition getStoryList (endpoint : string) : M (list Z) :=
  let cacheKey := list_key endpoint in
  cached <- listCache_get cacheKey ;;
  match cached with
  | Some stories => ret stories
  | None =>
      try_catch
        (c <- this ;;
         response <- fetchWithTimeout (endpoint_url c endpoint) (list_json net endpoint) ;;
         stories <- json response ;;
         listCache_set cacheKey stories ;;;
         ret stories)
        (rethrow endpoint)
  end.

Definition getTopStories : M (list Z) := getStoryList "topstories".
Definition getNewStories : M (list Z) := getStoryList "newstories".
Definition getBestStories : M (list Z) := getStoryList "beststories".
Definition getAskStories : M (list Z) := getStoryList "askstories".
Definition getShowStories : M (list Z) := getStoryList "showstories".
Definition getJobStories : M (list Z) := getStoryList "jobstories".

Definition getUpdates : M HackerNewsUpdates :=
  try_catch
    (c <- this ;;
     response <- fetchWithTimeout (endpoint_url c "updates") (updates_json net) ;;
     json response)
    (rethrow "updates").

(** *** [Promise.all(ids.map(id => this.getItem(id)))]

    [map] starts every call before any of them resumes: each call runs up
    to its first [await] (the cache probe and, on a miss, the call of
    [fetch]); the continuations run later, as the requests settle.  The
    model lets them settle in the order they were issued, and hands back
    the state in which all of them have settled. *)

Inductive Pending :=
| Hit (item : HackerNewsItem)
| InFlight.

Definition getItem_begin (id : Z) (w : World) : Pending * World :=
  match itemCache_get (item_key id) w with
  | (Ok (Some item), w') => (Hit item, w')
  | (_, w') => (InFlight, issue (item_url (client w') id) w')
  end.

Definition getItem_resume (id : Z) (p : Pending) : M (option HackerNewsItem) :=
  match p with
  | Hit item => ret (Some item)
  | InFlight =>
      try_catch
        (c <- this ;;
         response <- fetch_settled (item_url c id) (item_json net id) ;;
         item <- json response ;;
         match item with
         | Some i => itemCache_set (item_key id) i ;;; ret item
         | None => ret item
         end)
        (rethrow ("item " ++ num id))
  end.

Fixpoint begin_all (ids : list Z) (w : World) : list (Z * Pending) * World :=
  match ids with
  | [] => ([], w)
  | id :: rest =>
      let (p, w1) := getItem_begin id w in
      let (ps, w2) := begin_all rest w1 in
      ((id, p) :: ps, w2)
  end.

Fixpoint resume_all (ps : list (Z * Pending)) (w : World)
  : list (Result (option HackerNewsItem)) * World :=
  match ps with
  | [] => ([], w)
  | (id, p) :: rest =>
      let (r, w1) := getItem_resume id p w in
      let (rs, w2) := resume_all rest w1 in
      (r :: rs, w2)
  end.

(** [Promise.all] resolves with all values, or rejects with the first
    rejection. *)
Fixpoint all_settled {A} (rs : list (Result A)) : Result (list A) :=
  match rs with
  | [] => Ok []
  | Ok a :: rest =>
      match all_settled rest with
      | Ok l => Ok (a :: l)
      | Throw t => Throw t
      | OutOfFuel => OutOfFuel
      end
  | Throw t :: _ => Throw t
  | OutOfFuel :: _ => OutOfFuel
  end.

Definition promise_all_getItem (ids : list Z) : M (list (option HackerNewsItem)) :=
  fun w =>
    let (ps, w1) := begin_all ids w in
    let (rs, w2) := resume_all ps w1 in
    (all_settled rs, w2).

(** *** Loops *)

(** [for (let i = 0; i < arr.length; i += batchSize) { body(arr.slice(i, i + batchSize)) }]
    with the loop state [s] threaded through [body].  The loop runs at most
    [arr.length] times when [batchSize >= 1]; [fuel] bounds it. *)
Fixpoint for_batches {S : Type} (fuel : nat) (batchSize : Z) (arr : list Z) (i : Z)
    (body : list Z -> S -> M S) (s : S) : M S :=
  match fuel with
  | O => fun w => (OutOfFuel, w)
  | Datatypes.S fuel' =>
      if (i <? Z.of_nat (List.length arr))%Z then
        s' <- body (slice arr i (i + batchSize)) s ;;
        for_batches fuel' batchSize arr (i + batchSize) body s'
      else ret s
  end.

(** [for (const x of l) { body(x) }] *)
Fixpoint for_of {A S : Type} (l : list A) (body : A -> S -> M S) (s : S) : M S :=
  match l with
  | [] => ret s
  | x :: rest => s' <- body x s ;; for_of rest body s'
  end.

(** [items.filter(item => item !== null)] *)
Fixpoint non_null {A : Type} (l : list (option A)) : list A :=
  match l with
  | [] => []
  | Some a :: rest => a :: non_null rest
  | None :: rest => non_null rest
  end.

(** *** Enhanced methods with metadata *)

Definition extractDomain (u : string) : option string := hostname u.

Definition getStoryWithMetadata (id : Z) : M (option StoryWithMetadata) :=
  item <- getItem id ;;
  match item with
  | None => ret None
  | Some item =>
      if negb (has_type item story) then ret None
      else
        t <- date_now ;;
        ret (Some
          {| story_item := item;
             commentCount := or_zero (descendants item);
             ageHours :=
               match time item with
               | Some tm =>
                   if truthy_number tm
                   then ((number t / 1000 - number tm) / 3600)%float
                   else 0%float
               | None => 0%float
               end;
             domain :=
               match url item with
               | Some u => if truthy_string u then extractDomain u else None
               | None => None
               end |})
  end.

Definition getUserWithStats (id : string) : M (option UserWithStats) :=
  user <- getUser id ;;
  match user with
  | None => ret None
  | Some user =>
      let recentSubmissions :=
        match submitted user with
        | Some l => slice l 0 10
        | None => []
        end in
      recentItems <- promise_all_getItem recentSubmissions ;;
      let validItems := non_null recentItems in
      let stories := filter (fun item => has_type item story) validItems in
      let averageScore :=
        if (0 <? List.length stories)%nat
        then Some (number (fold_left (fun sum s => (sum + or_zero (score s))%Z) stories 0%Z)
                   / number (Z.of_nat (List.length stories)))%float
        else None in
      ret (Some
        {| stats_user := user;
           averageScore := averageScore;
           topStories := slice stories 0 5;
           recentActivity := slice validItems 0 5 |})
  end.

(** *** Search and filter methods *)

Definition opt_string_eqb (a b : option string) : bool :=
  match a, b with
  | Some x, Some y => String.eqb x y
  | None, None => true
  | _, _ => false
  end.

Definition opt_type_eqb (a b : option ItemType) : bool :=
  match a, b with
  | Some x, Some y => ItemType_eqb x y
  | None, None => true
  | _, _ => false
  end.

(** [params.query && story.title &&
     !story.title.toLowerCase().includes(params.query.toLowerCase())] *)
Definition query_rejects (params : SearchParams) (s : HackerNewsItem) : bool :=
  match query params, title s with
  | Some q, Some t =>
      truthy_string q && truthy_string t
      && negb (includes (toLowerCase t) (toLowerCase q))
  | _, _ => false
  end.

(** [params.author && story.by !== params.author] *)
Definition author_rejects (params : SearchParams) (s : HackerNewsItem) : bool :=
  truthy_opt_string (author params) && negb (opt_string_eqb (by_ s) (author params)).

(** [params.minScore && (story.score || 0) < params.minScore] *)
Definition minScore_rejects (params : SearchParams) (s : HackerNewsItem) : bool :=
  match minScore params with
  | Some m => truthy_number m && (or_zero (score s) <? m)%Z
  | None => false
  end.

(** [params.startTime && story.time && story.time < params.startTime] *)
Definition startTime_rejects (params : SearchParams) (s : HackerNewsItem) : bool :=
  match startTime params, time s with
  | Some st, Some t => truthy_number st && truthy_number t && (t <? st)%Z
  | _, _ => false
  end.

(** [params.endTime && story.time && story.time > params.endTime] *)
Definition endTime_rejects (params : SearchParams) (s : HackerNewsItem) : bool :=
  match endTime params, time s with
  | Some et, Some t => truthy_number et && truthy_number t && (t >? et)%Z
  | _, _ => false
  end.

(** [params.itemType && story.type !== params.itemType] *)
Definition itemType_rejects (params : SearchParams) (s : HackerNewsItem) : bool :=
  match itemType params with
  | Some _ => negb (opt_type_eqb (type s) (itemType params))
  | None => false
  end.

Definition story_passes (params : SearchParams) (s : HackerNewsItem) : bool :=
  if query_rejects params s then false
  else if author_rejects params s then false
  else if minScore_rejects params s then false
  else if startTime_rejects params s then false
  else if endTime_rejects params s then false
  else if itemType_rejects params s then false
  else true.

Definition filterStories (stories : list HackerNewsItem) (params : SearchParams)
  : list HackerNewsItem :=
  filter (story_passes params) stories.

(** [Math.min(params.limit || 50, 100)] *)
Definition storyLimit (params : SearchParams) : Z :=
  Z.min (match limit params with
         | Some n => if truthy_number n then n else 50
         | None => 50
         end) 100.

(** [stories.filter(story => story !== null && story.type === "story")] *)
Definition validStories (stories : list (option HackerNewsItem)) : list HackerNewsItem :=
  filter (fun s => has_type s story) (non_null stories).

Definition searchStories (params : SearchParams) : M (list HackerNewsItem) :=
  topStories <- getTopStories ;;
  let storyLimit := storyLimit params in
  stories <- promise_all_getItem (slice topStories 0 (storyLimit * 2)) ;;
  ret (slice (filterStories (validStories stories) params) 0 storyLimit).

(** The body of the inner loop of [loadCommentsRecursively]: what happens
    to one fetched child.  [recurse] is the recursive call. *)
Definition visit (recurse : list Z -> list HackerNewsItem -> M (list HackerNewsItem))
    (c : option HackerNewsItem) (comments : list HackerNewsItem)
  : M (list HackerNewsItem) :=
  match c with
  | Some c =>
      if has_type c comment then
        let comments := (comments ++ [c])%list in
        match kids c with
        | Some ks => recurse ks comments
        | None => ret comments
        end
      else ret comments
  | None => ret comments
  end.

(** The walk below a list of child ids.  [comments] is the array the
    source shares between the recursive calls and pushes to; [fuel] bounds
    the depth of the recursion, which the source does not bound. *)
Fixpoint loadCommentsRecursively (fuel : nat) (kidIds : list Z)
    (comments : list HackerNewsItem) : M (list HackerNewsItem) :=
  match fuel with
  | O => fun w => (OutOfFuel, w)
  | S fuel' =>
      for_batches (S (List.length kidIds)) 5 kidIds 0
        (fun batch comments =>
           batchComments <- promise_all_getItem batch ;;
           for_of batchComments (visit (loadCommentsRecursively fuel')) comments)
        comments
  end.

Definition getCommentTree (fuel : nat) (itemId : Z) : M (list HackerNewsItem) :=
  item <- getItem itemId ;;
  match item with
  | None => ret []
  | Some item =>
      match kids item with
      | None => ret []
      | Some ks => loadCommentsRecursively fuel ks []
      end
  end.

(** *** Batch operations *)

Definition getMultipleItems (ids : list Z) : M (list (option HackerNewsItem)) :=
  for_batches (S (List.length ids)) 10 ids 0
    (fun batch results =>
       batchResults <- promise_all_getItem batch ;;
       ret (results ++ batchResults)%list)
    [].

(** *** Cache management *)

Definition getCacheStats : M (Z * Z * Z) :=
  fun w =>
    let c := client w in
    let (n_items, ic) := Cache.size (now w) (itemCache c) in
    let (n_users, uc) := Cache.size (now w) (userCache c) in
    let (n_lists, lc) := Cache.size (now w) (listCache c) in
    (Ok (n_items, n_users, n_lists),
     set_client w {| baseUrl := baseUrl c; timeout := timeout c;
                     itemCache := ic; userCache := uc; listCache := lc |}).

Definition clearCache : M unit :=
  fun w =>
    let c := client w in
    (Ok tt,
     set_client w {| baseUrl := baseUrl c; timeout := timeout c;
                     itemCache := Cache.clear (itemCache c);
                     userCache := Cache.clear (userCache c);
                     listCache := Cache.clear (listCache c) |}).
End Client.

(** ** [src/utils/logger.ts]

    The console is the list of the lines written so far, each with the
    stream it went to; [new Date().toISOString()] is an argument of the
    methods. *)

Module Logger.
Inductive LogLevel := Debug | Info | Warn | Error.

(** The level as the string the source writes. *)
Definition name (l : LogLevel) : string :=
  match l with
  | Debug => "debug"
  | Info => "info"
  | Warn => "warn"
  | Error => "error"
  end.

Record SimpleLogger := mkLogger { level : LogLevel }.

(** [constructor(level: LogLevel = "info")] *)
Definition new (l : option LogLevel) : SimpleLogger :=
  {| level := match l with Some l => l | None => Info end |}.

Definition levels (l : LogLevel) : Z :=
  match l with
  | Debug => 0
  | Info => 1
  | Warn => 2
  | Error => 3
  end.

Definition shouldLog (this : SimpleLogger) (l : LogLevel) : bool :=
  (levels l >=? levels (level this))%Z.

Definition upper_ascii (c : ascii) : ascii :=
  let n := nat_of_ascii c in
  if ((97 <=? n) && (n <=? 122))%nat then ascii_of_nat (n - 32) else c.

(** [String.prototype.toUpperCase], on the ASCII letters. *)
Fixpoint toUpperCase (s : string) : string :=
  match s with
  | EmptyString => EmptyString
  | String c rest => String (upper_ascii c) (toUpperCase rest)
  end.

(** An argument after the message: an object, with what [JSON.stringify]
    makes of it ([None] when it throws), or anything else, with what
    [String] makes of it. *)
Inductive LogArg :=
| ObjectArg (json : option string)
| OtherArg (rendered : string).

Definition format_arg (a : LogArg) : string :=
  match a with
  | ObjectArg (Some json) => json
  | ObjectArg None => "[Circular]"
  | OtherArg rendered => rendered
  end.

(** [parts.join(sep)] *)
Fixpoint join (sep : string) (parts : list string) : string :=
  match parts with
  | [] => ""
  | [x] => x
  | x :: rest => x ++ sep ++ join sep rest
  end.

Definition formatMessage (timestamp : string) (l : LogLevel) (message : string)
    (args : list LogArg) : string :=
  let formattedArgs :=
    if (0 <? List.length args)%nat then " " ++ join " " (map format_arg args) else "" in
  "[" ++ timestamp ++ "] " ++ toUpperCase (name l) ++ ": " ++ message ++ formattedArgs.

Inductive Stream := console_log | console_warn | console_error.

Definition Console := list (Stream * string).

Definition debug (this : SimpleLogger) (timestamp message : string) (args : list LogArg)
    (out : Console) : Console :=
  if shouldLog this Debug
  then (out ++ [(console_log, formatMessage timestamp Debug message args)])%list
  else out.

Definition info (this : SimpleLogger) (timestamp message : string) (args : list LogArg)
    (out : Console) : Console :=
  if shouldLog this Info
  then (out ++ [(console_log, formatMessage timestamp Info message args)])%list
  else out.

Definition warn (this : SimpleLogger) (timestamp message : string) (args : list LogArg)
    (out : Console) : Console :=
  if shouldLog this Warn
  then (out ++ [(console_warn, formatMessage timestamp Warn message args)])%list
  else out.

Definition error (this : SimpleLogger) (timestamp message : string) (args : list LogArg)
    (out : Console) : Console :=
  if shouldLog this Error
  then (out ++ [(console_error, formatMessage timestamp Error message args)])%list
  else out.

(** [export const logger = new SimpleLogger()] *)
Definition logger : SimpleLogger := new None.

(** The method that logs at a level, and the stream of the level. *)
Definition log (l : LogLevel) :=
  match l with
  | Debug => debug
  | Info => info
  | Warn => warn
  | Error => error
  end.

Definition stream_of (l : LogLevel) : Stream :=
  match l with
  | Debug | Info => console_log
  | Warn => console_warn
  | Error => console_error
  end.
End Logger.

(** ** The handlers of [src/resources/index.ts] and [src/tools/index.ts]

    The handlers call the client and render what it returns.  The rendering
    functions of the platform are parameters: [parseInt(id, 10)] ([None] is
    [NaN]), [JSON.stringify] at each type it is used at, and
    [Date.prototype.toISOString] of the clock.  The calls of the logger are
    left out, as in the client. *)

Record ResourceContents := mkContents {
  res_uri : string;
  res_mimeType : string;
  res_text : string
}.

(** [{ content: [{ type: "text", text }], isError }]; an absent [isError]
    is [false]. *)
Record ToolResult := mkToolResult {
  tool_text : string;
  isError : bool
}.

(** The object [get_post] renders: [comments] is [undefined] unless
    [includeComments]. *)
Record PostDetails := mkPostDetails {
  post : StoryWithMetadata;
  post_comments : option (Z * list HackerNewsItem)
}.

Record CommentStatistics := mkCommentStatistics {
  total_comments : Z;
  authors : Z;
  avg_comment_length : Q;
  deleted_comments : Z;
  dead_comments : Z
}.

Record EngagementMetrics := mkEngagementMetrics {
  top_level_comments : Z;
  reply_comments : Z;
  reply_ratio : Q
}.

(** The object [search_comments] renders. *)
Record CommentAnalysis := mkCommentAnalysis {
  post_id : Z;
  comment_statistics : CommentStatistics;
  engagement_metrics : EngagementMetrics;
  top_commenters : list (string * Z);
  analysis_timestamp : string
}.

Definition truthy_opt_bool (o : option bool) : bool :=
  match o with Some b => b | None => false end.

(** [comments.map(c => c.by).filter(Boolean)] *)
Fixpoint authors_of (comments : list HackerNewsItem) : list string :=
  match comments with
  | [] => []
  | c :: rest =>
      match by_ c with
      | Some a => if truthy_string a then a :: authors_of rest else authors_of rest
      | None => authors_of rest
      end
  end.

(** [new Set(values)]: the distinct values, in the order of their first
    occurrence. *)
Definition set_add (s : list string) (x : string) : list string :=
  if existsb (String.eqb x) s then s else (s ++ [x])%list.

Definition set_of (values : list string) : list string :=
  fold_left set_add values [].

(** [counts.set(k, (counts.get(k) || 0) + 1)] *)
Definition count_up (counts : JsMap.t Z) (k : string) : JsMap.t Z :=
  JsMap.set counts k
    ((match JsMap.get counts k with
      | Some n => if truthy_number n then n else 0
      | None => 0
      end) + 1)%Z.

(** The loop that fills [authorCounts]. *)
Definition authorCounts (comments : list HackerNewsItem) : JsMap.t Z :=
  fold_left
    (fun counts c =>
       match by_ c with
       | Some a => if truthy_string a then count_up counts a else counts
       | None => counts
       end)
    comments [].

(** [entries.sort((a, b) => b[1] - a[1])].  The sort of the platform is
    stable, which fixes its result: an insertion sort that puts an entry
    before the first later entry [y] with [y[1] - x[1] <= 0]. *)
Fixpoint insert_by_count (x : string * Z) (l : list (string * Z)) : list (string * Z) :=
  match l with
  | [] => [x]
  | y :: rest =>
      if (snd y - snd x <=? 0)%Z then x :: y :: rest
      else y :: insert_by_count x rest
  end.

Definition sort_by_count (l : list (string * Z)) : list (string * Z) :=
  fold_right insert_by_count [] l.

(** [Math.round]: the nearest integer, a half rounded up. *)
Definition Math_round (q : Q) : Z := Qfloor (Qplus q (1 # 2)).

(** [c.text?.length || 0] *)
Definition text_length (c : HackerNewsItem) : Z :=
  match text c with
  | Some t => Z.of_nat (String.length t)
  | None => 0%Z
  end.

Definition count_if {A} (f : A -> bool) (l : list A) : Z :=
  Z.of_nat (List.length (filter f l)).

(** What the counting loop makes of a list of keys, and the measures its
    result is stated with: how often a key occurs, the sum of the counts,
    and the order of the sorted entries. *)
Definition tally (keys : list string) (counts : JsMap.t Z) : JsMap.t Z :=
  fold_left count_up keys counts.

Definition times (a : string) (l : list string) : Z := count_if (String.eqb a) l.

Definition sum_counts (m : JsMap.t Z) : Z := fold_right Z.add 0%Z (map snd m).

Definition by_count_desc (x y : string * Z) : Prop := (snd y <= snd x)%Z.

(** What [search_comments] computes of a comment list that is not
    empty. *)
Definition comment_analysis (postId : Z) (comments : list HackerNewsItem)
    (timestamp : string) : CommentAnalysis :=
  let commentStats :=
    {| total_comments := Z.of_nat (List.length comments);
       authors := Z.of_nat (List.length (set_of (authors_of comments)));
       avg_comment_length :=
         Qdiv (inject_Z (fold_left (fun sum c => (sum + text_length c)%Z) comments 0%Z))
              (inject_Z (Z.of_nat (List.length comments)));
       deleted_comments := count_if (fun c => truthy_opt_bool (deleted c)) comments;
       dead_comments := count_if (fun c => truthy_opt_bool (dead c)) comments |} in
  let topCommenters := slice (sort_by_count (authorCounts comments)) 0 10 in
  let withParents := count_if (fun c => truthy_opt_number (parent c)) comments in
  let topLevel := count_if (fun c => negb (truthy_opt_number (parent c))) comments in
  {| post_id := postId;
     comment_statistics := commentStats;
     engagement_metrics :=
       {| top_level_comments := topLevel;
          reply_comments := withParents;
          reply_ratio :=
            if (topLevel >? 0)%Z
            then Qdiv (inject_Z (Math_round
                                   (Qmult (Qdiv (inject_Z withParents) (inject_Z topLevel))
                                          (inject_Z 100))))
                      (inject_Z 100)
            else 0%Q |};
     top_commenters := topCommenters;
     analysis_timestamp := timestamp |}.

Section Handlers.
Variable net : Upstream.
Variable hostname : string -> option string.
(** The platform. *)
Variable parseInt : string -> option Z.
Variable toISOString : Z -> string.
Variable stringify_item : HackerNewsItem -> string.
Variable stringify_post : PostDetails -> string.
Variable stringify_analysis : CommentAnalysis -> string.

(** The resource [hackernews://item/{id}]. *)
Definition item_resource (href id : string) : M (list ResourceContents) :=
  try_catch
    (match parseInt id with
     | None => throw (PlainError ("Invalid item ID: " ++ id))
     | Some itemId =>
         item <- getItem net itemId ;;
         match item with
         | None => throw (PlainError ("Item " ++ num itemId ++ " not found"))
         | Some item =>
             ret [{| res_uri := href; res_mimeType := "application/json";
                     res_text := stringify_item item |}]
         end
     end)
    (fun error => throw error).

(** The tool [get_post]; [fuel] is the fuel of the comment walk. *)
Definition get_post (fuel : nat) (id : Z) (includeComments : option bool) : M ToolResult :=
  try_catch
    (p <- getStoryWithMetadata net hostname id ;;
     match p with
     | None =>
         ret {| tool_text := "Post " ++ num id ++ " not found or is not a post";
                isError := true |}
     | Some p =>
         comments <- (if truthy_opt_bool includeComments
                      then getCommentTree net fuel id
                      else ret []) ;;
         ret {| tool_text :=
                  stringify_post
                    {| post := p;
                       post_comments :=
                         if truthy_opt_bool includeComments
                         then Some (Z.of_nat (List.length comments), comments)
                         else None |};
                isError := false |}
     end)
    (fun error =>
       ret {| tool_text := "Error fetching post details: " ++ thrown_message error;
              isError := true |}).

(** The tool [search_comments]; its parameter [maxDepth] is not used. *)
Definition search_comments (fuel : nat) (postId : Z) (maxDepth : option Z) : M ToolResult :=
  try_catch
    (comments <- getCommentTree net fuel postId ;;
     if (Z.of_nat (List.length comments) =? 0)%Z
     then ret {| tool_text := "No comments found for post " ++ num postId;
                 isError := false |}
     else
       t <- date_now ;;
       ret {| tool_text :=
                stringify_analysis (comment_analysis postId comments (toISOString t));
              isError := false |})
    (fun error =>
       ret {| tool_text := "Error searching comments: " ++ thrown_message error;
              isError := true |}).
End Handlers.

(** ** A small upstream, for concrete runs

    Item 100 is a story with two children: 101, a comment, and 102, a poll
    that has a comment (103) below it.  Item 200 is a story without a title
    and without a time.  Item 404 does not exist (the API answers [null]);
    the request for 456 fails in transit; the request for 500 is answered
    with HTTP 500. *)

Module Example.
Definition item100 : HackerNewsItem :=
  {| id := 100; deleted := None; type := Some story; by_ := Some "user1";
     time := Some 1640995200; text := None; dead := None; parent := None;
     poll_ := None; kids := Some [101; 102]; url := Some "https://example.com";
     score := Some 100; title := Some "AI Story"; parts := None;
     descendants := Some 3 |}.

Definition item101 : HackerNewsItem :=
  {| id := 101; deleted := None; type := Some comment; by_ := Some "user2";
     time := Some 1640995300; text := Some "Comment 1"; dead := None;
     parent := Some 100; poll_ := None; kids := None; url := None;
     score := None; title := None; parts := None; descendants := None |}.

Definition item102 : HackerNewsItem :=
  {| id := 102; deleted := None; type := Some poll; by_ := Some "user3";
     time := Some 1640995400; text := None; dead := None;
     parent := Some 100; poll_ := None; kids := Some [103]; url := None;
     score := Some 7; title := Some "A poll"; parts := None;
     descendants := Some 1 |}.

Definition item103 : HackerNewsItem :=
  {| id := 103; deleted := None; type := Some comment; by_ := Some "user4";
     time := Some 1640995500; text := Some "Comment 2"; dead := None;
     parent := Some 102; poll_ := None; kids := None; url := None;
     score := None; title := None; parts := None; descendants := None |}.

Definition item200 : HackerNewsItem :=
  {| id := 200; deleted := None; type := Some story; by_ := Some "user2";
     time := None; text := None; dead := None; parent := None;
     poll_ := None; kids := None; url := None;
     score := Some 150; title := None; parts := None; descendants := None |}.

Definition testuser : HackerNewsUser :=
  {| user_id := "testuser"; delay := None; created := 1640995200;
     karma := 1000; about := Some "Test user"; submitted := Some [100; 456] |}.

Definition hn : Upstream :=
  {| item_json := fun i =>
       if (i =? 100)%Z then Response 200 "OK" (Json (Some item100))
       else if (i =? 101)%Z then Response 200 "OK" (Json (Some item101))
       else if (i =? 102)%Z then Response 200 "OK" (Json (Some item102))
       else if (i =? 103)%Z then Response 200 "OK" (Json (Some item103))
       else if (i =? 200)%Z then Response 200 "OK" (Json (Some item200))
       else if (i =? 456)%Z then NetworkFailure "Network error"
       else if (i =? 500)%Z then Response 500 "Internal Server Error" (Json None)
       else Response 200 "OK" (Json None);
     user_json := fun u =>
       if String.eqb u "testuser" then Response 200 "OK" (Json (Some testuser))
       else if String.eqb u "down" then Response 503 "Service Unavailable" (Json None)
       else Response 200 "OK" (Json None);
     list_json := fun e =>
       if String.eqb e "topstories" then Response 200 "OK" (Json [100; 200; 404])
       else if String.eqb e "newstories" then Response 429 "Too Many Requests" (Json [])
       else Response 200 "OK" (Json []);
     maxitem_json := Response 502 "Bad Gateway" (Json 0%Z);
     updates_json := Response 404 "Not Found" (Json {| items := []; profiles := [] |});
     latency := fun _ => 20%Z |}.

Definition no_hostname (u : string) : option string := None.

(** A fresh client, with the options of the test-suite. *)
Definition fresh : World :=
  {| client := new_client {| opt_baseUrl := "https://hacker-news.firebaseio.com/v0";
                             opt_timeout := 5000;
                             cacheOptions := Some {| ttlSeconds := 60; maxSize := 100 |} |};
     now := 0%Z;
     requests := [] |}.

(** A client configured with a cache of at most 5 entries. *)
Definition small : World :=
  {| client := new_client {| opt_baseUrl := "https://hacker-news.firebaseio.com/v0";
                             opt_timeout := 5000;
                             cacheOptions := Some {| ttlSeconds := 60; maxSize := 5 |} |};
     now := 0%Z;
     requests := [] |}.
End Example.

(** The same upstream with one more user, "alice", whose four submissions
    are all answered: two stories, a comment and an id that does not
    exist. *)
Module Example2.
Definition alice : HackerNewsUser :=
  {| user_id := "alice"; delay := None; created := 1640000000;
     karma := 42; about := None; submitted := Some [100; 101; 200; 404] |}.

Definition hn : Upstream :=
  {| item_json := item_json Example.hn;
     user_json := fun u =>
       if String.eqb u "alice" then Response 200 "OK" (Json (Some alice))
       else user_json Example.hn u;
     list_json := list_json Example.hn;
     maxitem_json := maxitem_json Example.hn;
     updates_json := updates_json Example.hn;
     latency := latency Example.hn |}.
End Example2.

(** ** Sequences of calls *)

(** The public methods of [SimpleCache], each with the time of the call. *)
Inductive CacheOp (T : Type) :=
| OpSet (t : Z) (key : string) (v : T)
| OpGet (t : Z) (key : string)
| OpHas (t : Z) (key : string)
| OpDelete (key : string)
| OpClear
| OpSize (t : Z).
Arguments OpSet {T} t key v.
Arguments OpGet {T} t key.
Arguments OpHas {T} t key.
Arguments OpDelete {T} key.
Arguments OpClear {T}.
Arguments OpSize {T} t.

Definition cache_step {T} (op : CacheOp T) (c : Cache.SimpleCache T) : Cache.SimpleCache T :=
  match op with
  | OpSet t key v => Cache.set t key v c
  | OpGet t key => snd (Cache.get t key c)
  | OpHas t key => snd (Cache.has t key c)
  | OpDelete key => snd (Cache.delete key c)
  | OpClear => Cache.clear c
  | OpSize t => snd (Cache.size t c)
  end.

Definition cache_run {T} (ops : list (CacheOp T)) (c : Cache.SimpleCache T)
  : Cache.SimpleCache T :=
  fold_left (fun c op => cache_step op c) ops c.

(** The keys a sequence of calls writes. *)
Fixpoint written_keys {T} (ops : list (CacheOp T)) : list string :=
  match ops with
  | [] => []
  | OpSet _ key _ :: rest => key :: written_keys rest
  | _ :: rest => written_keys rest
  end.

(** A sequence of story-list fetches, each at its own time; a call that
    throws leaves the client usable for the next one. *)
Fixpoint list_calls (net : Upstream) (calls : list (Z * string)) (w : World) : World :=
  match calls with
  | [] => w
  | (t, endpoint) :: rest =>
      list_calls net rest (snd (getStoryList net endpoint (at_time t w)))
  end.

(** ** Predicates of the statements *)

(** No key of the cache is the empty string. *)
Definition keys_truthy {T} (c : Cache.SimpleCache T) : Prop :=
  Forall (fun k => truthy_string k = true) (JsMap.keys (Cache.cache c)).

(** The cache holds at most [maxSize] entries, none under the empty key. *)
Definition within_capacity {T} (c : Cache.SimpleCache T) : Prop :=
  (0 <= Cache.maxSize c)%Z /\ keys_truthy c /\
  (JsMap.size (Cache.cache c) <= Cache.maxSize c)%Z.

(** The state in which the request of a [getItem] that missed the cache
    settles. *)
Definition item_settled (net : Upstream) (id : Z) (w : World) : World :=
  let ic := snd (Cache.get (now w) (item_key id) (itemCache (client w))) in
  {| client := set_itemCache (client w) ic;
     now := (now w + latency net (item_url (client w) id))%Z;
     requests := requests w ++ [item_url (client w) id] |}.

(** What the public methods throw for a response that is not 2xx. *)
Definition http_failure (what : string) (status : Z) (statusText : string) : Thrown :=
  ClientError
    {| message := "Failed to fetch " ++ what ++ ": "
                  ++ "HTTP " ++ num status ++ ": " ++ statusText;
       statusCode := None |}.

Definition all_comments (l : list HackerNewsItem) : Prop :=
  Forall (fun c => has_type c comment = true) l.

(** What a call may add to the request log: [w'] has the base URL of [w], and
    its log is the log of [w] followed by requests that satisfy [P]. *)
Definition logs_only (P : string -> Prop) (w w' : World) : Prop :=
  baseUrl (client w') = baseUrl (client w) /\
  exists added, requests w' = (requests w ++ added)%list /\ Forall P added.

(** The same with a budget: at most [n] requests are added. *)
Definition logs_at_most (n : nat) (P : string -> Prop) (w w' : World) : Prop :=
  baseUrl (client w') = baseUrl (client w) /\
  exists added, requests w' = (requests w ++ added)%list /\
                (List.length added <= n)%nat /\ Forall P added.


(** ** The comments below a list of ids, read off the upstream

    The reference the comment walk is compared with: the preorder list of
    the comments that are reachable from [kidIds] through comments only.  An
    id whose item is [null] or is not a comment contributes nothing, whatever
    its kids are.  [depth] bounds the nesting; the result is [None] when the
    nesting is deeper, or when the upstream has no answer for an id that is
    reached. *)

(** The upstream's answer for an item, when the request succeeds. *)
Definition upstream_item (net : Upstream) (id : Z) : option (option HackerNewsItem) :=
  match item_json net id with
  | Response status _ (Json r) => if response_ok status then Some r else None
  | _ => None
  end.

Definition descendant_comments_each (net : Upstream)
    (below : list Z -> option (list HackerNewsItem))
  : list Z -> option (list HackerNewsItem) :=
  fix each (ids : list Z) : option (list HackerNewsItem) :=
    match ids with
    | [] => Some []
    | id :: rest =>
        match upstream_item net id with
        | None => None
        | Some None => each rest
        | Some (Some c) =>
            if has_type c comment then
              match (match kids c with Some ks => below ks | None => Some [] end),
                    each rest with
              | Some under, Some after => Some (c :: under ++ after)%list
              | _, _ => None
              end
            else each rest
        end
    end.

Fixpoint descendant_comments (net : Upstream) (depth : nat) (kidIds : list Z)
  : option (list HackerNewsItem) :=
  match depth with
  | O => None
  | S d => descendant_comments_each net (descendant_comments net d) kidIds
  end.

(** Every entry of the item cache holds the item the upstream answers for
    its key. *)
Definition coherent (net : Upstream) (w : World) : Prop :=
  forall id e,
    In (item_key id, e) (Cache.cache (itemCache (client w))) ->
    upstream_item net id = Some (Some (Cache.value e)).

(** The upstream answers [r] for item [id]. *)
Definition answered (net : Upstream) (id : Z) (r : option HackerNewsItem) : Prop :=
  upstream_item net id = Some r.

(** The walk with [fuel] agrees with the reference of depth [fuel]: from a
    coherent cache it returns the listed comments, appended to the array it
    was given, and leaves the cache coherent. *)
Definition walk_agrees (net : Upstream) (fuel : nat) : Prop :=
  forall ks l comments w,
    descendant_comments net fuel ks = Some l ->
    coherent net w ->
    exists w',
      loadCommentsRecursively net fuel ks comments w = (Ok (comments ++ l)%list, w') /\
      coherent net w'.


Local Open Scope Z_scope.

(** * Properties *)

(** ** The ordered map *)

Section JsMapFacts.
Context {V : Type}.
Implicit Types (m : JsMap.t V) (k : string) (v : V).

Lemma get_set_same m k v : JsMap.get (JsMap.set m k v) k = Some v.
Proof.
  induction m as [|[k' v'] m IH]; simpl.
  - now rewrite String.eqb_refl.
  - destruct (String.eqb k' k) eqn:E; simpl; rewrite E; auto.
Qed.

Lemma get_set_other m k k' v :
  k <> k' -> JsMap.get (JsMap.set m k v) k' = JsMap.get m k'.
Proof.
  intros Hne. induction m as [|[k0 v0] m IH]; simpl.
  - apply String.eqb_neq in Hne. now rewrite Hne.
  - destruct (String.eqb k0 k) eqn:E; simpl.
    + apply String.eqb_eq in E. subst k0.
      apply String.eqb_neq in Hne. now rewrite Hne.
    + destruct (String.eqb k0 k'); auto.
Qed.

Lemma length_set_present m k v :
  JsMap.get m k <> None -> List.length (JsMap.set m k v) = List.length m.
Proof.
  induction m as [|[k' v'] m IH]; simpl; intros H.
  - congruence.
  - destruct (String.eqb k' k); simpl; auto.
Qed.

Lemma length_set_absent m k v :
  JsMap.get m k = None -> List.length (JsMap.set m k v) = S (List.length m).
Proof.
  induction m as [|[k' v'] m IH]; simpl; intros H; auto.
  destruct (String.eqb k' k); simpl; [discriminate | auto].
Qed.

Lemma length_set_le m k v :
  (List.length (JsMap.set m k v) <= S (List.length m))%nat.
Proof.
  destruct (JsMap.get m k) eqn:E.
  - rewrite length_set_present; [lia | congruence].
  - rewrite length_set_absent; auto.
Qed.

Lemma length_delete_le m k :
  (List.length (JsMap.delete m k) <= List.length m)%nat.
Proof.
  induction m as [|[k' v'] m IH]; simpl; auto.
  destruct (String.eqb k' k); simpl; lia.
Qed.

Lemma get_delete_other m k k' :
  k <> k' -> JsMap.get (JsMap.delete m k) k' = JsMap.get m k'.
Proof.
  intros Hne. induction m as [|[k0 v0] m IH]; simpl; auto.
  destruct (String.eqb k0 k) eqn:E; simpl.
  - apply String.eqb_eq in E. subst k0.
    apply String.eqb_neq in Hne. now rewrite Hne.
  - now rewrite IH.
Qed.

Lemma keys_set_incl m k v x :
  In x (JsMap.keys (JsMap.set m k v)) -> x = k \/ In x (JsMap.keys m).
Proof.
  induction m as [|[k' v'] m IH]; simpl.
  - intuition.
  - destruct (String.eqb k' k); simpl; intuition.
Qed.

Lemma keys_delete_incl m k x :
  In x (JsMap.keys (JsMap.delete m k)) -> In x (JsMap.keys m).
Proof.
  induction m as [|[k' v'] m IH]; simpl; auto.
  destruct (String.eqb k' k); simpl; intuition.
Qed.

Lemma keys_filter_incl (f : string * V -> bool) m x :
  In x (JsMap.keys (filter f m)) -> In x (JsMap.keys m).
Proof.
  unfold JsMap.keys. rewrite !in_map_iff.
  intros [kv [E Hin]]. apply filter_In in Hin. exists kv. tauto.
Qed.

Lemma get_None_keys m k : JsMap.get m k = None <-> ~ In k (JsMap.keys m).
Proof.
  induction m as [|[k' v'] m IH]; simpl.
  - tauto.
  - destruct (String.eqb k' k) eqn:E.
    + apply String.eqb_eq in E. split; [discriminate | intros H; exfalso; auto].
    + apply String.eqb_neq in E. rewrite IH. tauto.
Qed.

(** Every operation keeps the keys pairwise distinct. *)
Lemma wf_set m k v : JsMap.wf m -> JsMap.wf (JsMap.set m k v).
Proof.
  unfold JsMap.wf. induction m as [|[k' v'] m IH]; simpl; intros H.
  - constructor; [simpl; tauto | constructor].
  - inversion H; subst. destruct (String.eqb k' k) eqn:E; simpl.
    + constructor; auto.
    + constructor; auto. intros Hin.
      apply keys_set_incl in Hin. apply String.eqb_neq in E.
      destruct Hin; [congruence | auto].
Qed.

Lemma wf_delete m k : JsMap.wf m -> JsMap.wf (JsMap.delete m k).
Proof.
  unfold JsMap.wf. induction m as [|[k' v'] m IH]; simpl; intros H; auto.
  inversion H; subst. destruct (String.eqb k' k); simpl; auto.
  constructor; auto. intros Hin. apply keys_delete_incl in Hin. auto.
Qed.

Lemma wf_filter (f : string * V -> bool) m : JsMap.wf m -> JsMap.wf (filter f m).
Proof.
  unfold JsMap.wf. induction m as [|[k' v'] m IH]; simpl; intros H; auto.
  inversion H; subst. destruct (f (k', v')); simpl; auto.
  constructor; auto. intros Hin. apply keys_filter_incl in Hin. auto.
Qed.
End JsMapFacts.

(** ** The bounded expiring cache *)

Section CacheFacts.
Context {T : Type}.
Implicit Types (c : Cache.SimpleCache T) (k key : string) (v : T) (t : Z).

Lemma ttlMs_cleanup t c : Cache.ttlMs (Cache.cleanup t c) = Cache.ttlMs c.
Proof. reflexivity. Qed.

Lemma maxSize_cleanup t c : Cache.maxSize (Cache.cleanup t c) = Cache.maxSize c.
Proof. reflexivity. Qed.

Lemma ttlMs_evict c : Cache.ttlMs (Cache.evict_oldest c) = Cache.ttlMs c.
Proof.
  unfold Cache.evict_oldest.
  destruct (JsMap.first_key (Cache.cache c)) as [fk|]; auto.
  destruct (truthy_string fk); auto.
Qed.

Lemma maxSize_evict c : Cache.maxSize (Cache.evict_oldest c) = Cache.maxSize c.
Proof.
  unfold Cache.evict_oldest.
  destruct (JsMap.first_key (Cache.cache c)) as [fk|]; auto.
  destruct (truthy_string fk); auto.
Qed.

(** [ttlMs] and [maxSize] are fixed at construction. *)
Lemma set_params t key v c :
  Cache.ttlMs (Cache.set t key v c) = Cache.ttlMs c /\
  Cache.maxSize (Cache.set t key v c) = Cache.maxSize c.
Proof.
  unfold Cache.set.
  destruct ((Cache.maxSize c =? 0) || (Cache.ttlMs c =? 0)); auto.
  cbn [Cache.with_cache Cache.ttlMs Cache.maxSize].
  destruct (JsMap.size (Cache.cache c) >=? Cache.maxSize c);
    repeat match goal with
           | |- context [if ?b then _ else _] => destruct b
           end;
    rewrite ?ttlMs_evict, ?maxSize_evict; auto.
Qed.

Lemma get_params t key c :
  Cache.ttlMs (snd (Cache.get t key c)) = Cache.ttlMs c /\
  Cache.maxSize (snd (Cache.get t key c)) = Cache.maxSize c.
Proof.
  unfold Cache.get.
  destruct (JsMap.get (Cache.cache c) key) as [e|]; auto.
  destruct (Cache.expired t e); auto.
Qed.

(** An enabled cache ends [set] by writing the entry. *)
Lemma set_installs t key v c :
  Cache.maxSize c <> 0 -> Cache.ttlMs c <> 0 ->
  JsMap.get (Cache.cache (Cache.set t key v c)) key
  = Some {| Cache.value := v; Cache.expiresAt := t + Cache.ttlMs c |}.
Proof.
  intros Hm Ht. unfold Cache.set.
  apply Z.eqb_neq in Hm, Ht. rewrite Hm, Ht. cbn [orb].
  cbn [Cache.with_cache Cache.cache].
  rewrite get_set_same. do 3 f_equal.
  destruct (JsMap.size (Cache.cache c) >=? Cache.maxSize c);
    match goal with
    | |- context [if ?b then _ else _] => destruct b
    end;
    rewrite ?ttlMs_evict; auto.
Qed.

(** A disabled cache ignores [set]. *)
Lemma set_disabled t key v c :
  Cache.maxSize c = 0 \/ Cache.ttlMs c = 0 -> Cache.set t key v c = c.
Proof.
  intros H. unfold Cache.set.
  destruct H as [H|H]; rewrite H; cbn; auto.
  now rewrite orb_true_r.
Qed.

Lemma lookup_live t key c e :
  JsMap.get (Cache.cache c) key = Some e ->
  t <= Cache.expiresAt e ->
  Cache.get t key c = (Some (Cache.value e), c).
Proof.
  intros Hg Ht. unfold Cache.get, Cache.expired. rewrite Hg.
  destruct (t >? Cache.expiresAt e) eqn:E; auto.
  apply Z.gtb_lt in E. lia.
Qed.

Lemma lookup_expired t key c e :
  JsMap.get (Cache.cache c) key = Some e ->
  t > Cache.expiresAt e ->
  Cache.lookup t key c = None.
Proof.
  intros Hg Ht. unfold Cache.lookup, Cache.get, Cache.expired. rewrite Hg.
  destruct (t >? Cache.expiresAt e) eqn:E; auto.
  rewrite Z.gtb_ltb in E. apply Z.ltb_ge in E. lia.
Qed.

Lemma lookup_absent t key c :
  JsMap.get (Cache.cache c) key = None -> Cache.get t key c = (None, c).
Proof. intros Hg. unfold Cache.get. now rewrite Hg. Qed.
End CacheFacts.

(** C4, as stated, fails at the boundary: with [ttlSeconds = 1] and a value
    set at time 0, [get] at exactly [t = ttlSeconds] (1000 ms) still returns
    the value, where the claim says it is absent. *)
Lemma C4_boundary_counterexample :
  let c := Cache.set 0 "k1" "v1"%string (Cache.new 1 3) in
  1 > 0 /\ 3 > 0 /\ 1000 >= 1 * 1000 /\
  Cache.lookup 1000 "k1" c = Some "v1"%string /\
  Cache.lookup 1000 "k1" c <> None.
Proof. cbv. repeat split; congruence. Qed.

(** C4 (amended): for every cache constructed with [ttlSeconds > 0] and
    [maxSize > 0], a key set at time [t0] holds the entry written by [set],
    and as long as that entry is the one stored under the key (it was not
    overwritten, deleted or evicted), [get] returns the value at every time
    [t <= t0 + 1000 * ttlSeconds], the boundary included, and returns absent
    at every time [t > t0 + 1000 * ttlSeconds]. *)
Theorem C4_ttl_window :
  forall (T : Type) (ttlSeconds maxSize t0 : Z) (k : string) (v : T)
         (c : Cache.SimpleCache T),
    ttlSeconds > 0 -> maxSize > 0 ->
    Cache.ttlMs c = Cache.ttlMs (Cache.new (T:=T) ttlSeconds maxSize) ->
    Cache.maxSize c = Cache.maxSize (Cache.new (T:=T) ttlSeconds maxSize) ->
    let c1 := Cache.set t0 k v c in
    JsMap.get (Cache.cache c1) k
    = Some {| Cache.value := v; Cache.expiresAt := t0 + ttlSeconds * 1000 |} /\
    forall c2 : Cache.SimpleCache T,
      JsMap.get (Cache.cache c2) k = JsMap.get (Cache.cache c1) k ->
      forall t : Z,
        (t <= t0 + ttlSeconds * 1000 -> Cache.lookup t k c2 = Some v) /\
        (t > t0 + ttlSeconds * 1000 -> Cache.lookup t k c2 = None).
Proof.
  intros T ttlSeconds maxSize t0 k v c Httl Hmax Hc_ttl Hc_max c1.
  cbn in Hc_ttl, Hc_max.
  assert (Hinst : JsMap.get (Cache.cache c1) k
                  = Some {| Cache.value := v;
                            Cache.expiresAt := t0 + ttlSeconds * 1000 |}).
  { unfold c1. rewrite set_installs by lia. now rewrite Hc_ttl. }
  split; [exact Hinst|].
  intros c2 Hsame t. rewrite Hinst in Hsame. split; intros Ht.
  - unfold Cache.lookup. now rewrite (lookup_live t k c2 _ Hsame).
  - now apply (lookup_expired t k c2 _ Hsame).
Qed.

(** The window of C4 on the cache of the test-suite (1 s, 3 entries). *)
Lemma C4_ttl_window_witness :
  JsMap.get (Cache.cache (Cache.set 0 "k1" "v1"%string (Cache.new 1 3))) "k1"
  = Some {| Cache.value := "v1"%string; Cache.expiresAt := 0 + 1 * 1000 |} /\
  forall c2 : Cache.SimpleCache string,
    JsMap.get (Cache.cache c2) "k1"
    = JsMap.get (Cache.cache (Cache.set 0 "k1" "v1"%string (Cache.new 1 3))) "k1" ->
    forall t : Z,
      (t <= 0 + 1 * 1000 -> Cache.lookup t "k1" c2 = Some "v1"%string) /\
      (t > 0 + 1 * 1000 -> Cache.lookup t "k1" c2 = None).
Proof.
  apply (C4_ttl_window string 1 3 0 "k1" "v1"%string (Cache.new 1 3));
    [lia | lia | reflexivity | reflexivity].
Defined.

(** ** Capacity *)

Section Capacity.
Context {T : Type}.
Implicit Types (c : Cache.SimpleCache T) (k key : string) (v : T) (t : Z).

Lemma size_cleanup_le t c :
  JsMap.size (Cache.cache (Cache.cleanup t c)) <= JsMap.size (Cache.cache c).
Proof.
  unfold JsMap.size, Cache.cleanup. cbn [Cache.with_cache Cache.cache].
  apply Nat2Z.inj_le, filter_length_le.
Qed.

Lemma cleanup_none_expired t c :
  (forall k e, In (k, e) (Cache.cache c) -> Cache.expired t e = false) ->
  Cache.cleanup t c = Cache.with_cache c (Cache.cache c).
Proof.
  intros H. unfold Cache.cleanup. f_equal.
  induction (Cache.cache c) as [|[k e] m IH]; simpl; auto.
  rewrite (H k e) by (left; auto). simpl. f_equal.
  apply IH. intros k' e' Hin. apply (H k' e'). now right.
Qed.

Lemma keys_truthy_cleanup t c : keys_truthy c -> keys_truthy (Cache.cleanup t c).
Proof.
  unfold keys_truthy. rewrite !Forall_forall. intros H x Hin.
  apply H. eapply keys_filter_incl. exact Hin.
Qed.

Lemma keys_truthy_evict c : keys_truthy c -> keys_truthy (Cache.evict_oldest c).
Proof.
  unfold keys_truthy, Cache.evict_oldest. intros H.
  destruct (JsMap.first_key (Cache.cache c)) as [fk|]; auto.
  destruct (truthy_string fk); auto. cbn [Cache.with_cache Cache.cache].
  rewrite Forall_forall in *. intros x Hin. apply H.
  eapply keys_delete_incl. exact Hin.
Qed.

(** With a non-empty oldest key, a non-empty cache loses exactly one entry. *)
Lemma size_evict c :
  keys_truthy c -> 0 < JsMap.size (Cache.cache c) ->
  JsMap.size (Cache.cache (Cache.evict_oldest c)) = JsMap.size (Cache.cache c) - 1.
Proof.
  unfold keys_truthy, Cache.evict_oldest, JsMap.size. intros H Hpos.
  destruct (Cache.cache c) as [|[k0 e0] rest] eqn:E; [cbn in Hpos; lia|].
  cbn [JsMap.keys map fst] in H. inversion H as [|? ? Hk0 ?]; subst.
  cbn [JsMap.first_key]. rewrite Hk0. cbn [Cache.with_cache Cache.cache].
  cbn [JsMap.delete]. rewrite String.eqb_refl.
  cbn [List.length]. lia.
Qed.

(** [set] stays within the capacity when no key is the empty string. *)
Lemma set_within_capacity t key v c :
  0 <= Cache.maxSize c -> keys_truthy c ->
  JsMap.size (Cache.cache c) <= Cache.maxSize c ->
  JsMap.size (Cache.cache (Cache.set t key v c)) <= Cache.maxSize c.
Proof.
  intros Hnn Hk Hsz. unfold Cache.set.
  destruct (Cache.maxSize c =? 0) eqn:E0; cbn [orb]; auto.
  destruct (Cache.ttlMs c =? 0); auto.
  apply Z.eqb_neq in E0.
  set (c1 := if JsMap.size (Cache.cache c) >=? Cache.maxSize c
             then Cache.cleanup t c else c).
  assert (H1 : JsMap.size (Cache.cache c1) <= Cache.maxSize c /\
               Cache.maxSize c1 = Cache.maxSize c /\ keys_truthy c1).
  { unfold c1. destruct (JsMap.size (Cache.cache c) >=? Cache.maxSize c).
    - pose proof (size_cleanup_le t c). split; [lia|].
      split; [reflexivity | now apply keys_truthy_cleanup].
    - auto. }
  destruct H1 as (Hs1 & Hm1 & Hk1). rewrite Hm1.
  cbn [Cache.with_cache Cache.cache].
  pose proof (length_set_le (Cache.cache
    (if JsMap.size (Cache.cache c1) >=? Cache.maxSize c
     then Cache.evict_oldest c1 else c1)) key
    {| Cache.value := v;
       Cache.expiresAt := t + Cache.ttlMs
         (if JsMap.size (Cache.cache c1) >=? Cache.maxSize c
          then Cache.evict_oldest c1 else c1) |}) as Hle.
  unfold JsMap.size in *.
  destruct (Z.of_nat (List.length (Cache.cache c1)) >=? Cache.maxSize c) eqn:E.
  - rewrite Z.geb_le in E.
    pose proof (size_evict c1 Hk1) as Hev. unfold JsMap.size in Hev. lia.
  - rewrite Z.geb_leb in E. apply Z.leb_gt in E. lia.
Qed.

Lemma keys_truthy_set t key v c :
  truthy_string key = true -> keys_truthy c -> keys_truthy (Cache.set t key v c).
Proof.
  intros Hkey Hk. unfold Cache.set.
  destruct ((Cache.maxSize c =? 0) || (Cache.ttlMs c =? 0)); auto.
  set (c1 := if JsMap.size (Cache.cache c) >=? Cache.maxSize c
             then Cache.cleanup t c else c).
  assert (Hk1 : keys_truthy c1).
  { unfold c1. destruct (JsMap.size (Cache.cache c) >=? Cache.maxSize c);
      [apply keys_truthy_cleanup|]; assumption. }
  set (c2 := if JsMap.size (Cache.cache c1) >=? Cache.maxSize c1
             then Cache.evict_oldest c1 else c1).
  assert (Hk2 : keys_truthy c2).
  { unfold c2. destruct (JsMap.size (Cache.cache c1) >=? Cache.maxSize c1);
      [apply keys_truthy_evict|]; assumption. }
  unfold keys_truthy in *. cbn [Cache.with_cache Cache.cache].
  rewrite Forall_forall in *. intros x Hin.
  apply keys_set_incl in Hin. destruct Hin; subst; auto.
Qed.
End Capacity.

Section Runs.
Context {T : Type}.
Implicit Types (c : Cache.SimpleCache T) (op : CacheOp T).

Lemma within_capacity_delete c key :
  within_capacity c ->
  within_capacity (Cache.with_cache c (JsMap.delete (Cache.cache c) key)).
Proof.
  intros (Hnn & Hk & Hsz). unfold within_capacity, keys_truthy, JsMap.size in *.
  cbn [Cache.with_cache Cache.cache Cache.maxSize].
  pose proof (length_delete_le (Cache.cache c) key).
  repeat split; [lia | | lia].
  rewrite Forall_forall in *. intros x Hin. apply Hk.
  eapply keys_delete_incl. exact Hin.
Qed.

Lemma within_capacity_cleanup c t :
  within_capacity c -> within_capacity (Cache.cleanup t c).
Proof.
  intros (Hnn & Hk & Hsz). pose proof (size_cleanup_le t c).
  repeat split; [exact Hnn | now apply keys_truthy_cleanup |].
  rewrite maxSize_cleanup. lia.
Qed.

Lemma within_capacity_get c t key :
  within_capacity c -> within_capacity (snd (Cache.get t key c)).
Proof.
  intros H. unfold Cache.get.
  destruct (JsMap.get (Cache.cache c) key) as [e|]; auto.
  destruct (Cache.expired t e); auto. now apply within_capacity_delete.
Qed.

Lemma within_capacity_step c op :
  Forall (fun k => truthy_string k = true) (written_keys [op]) ->
  within_capacity c -> within_capacity (cache_step op c).
Proof.
  intros Hw H. destruct op as [t key v|t key|t key|key| |t]; cbn [cache_step].
  - destruct H as (Hnn & Hk & Hsz). inversion Hw; subst.
    destruct (set_params t key v c) as [_ Hm].
    repeat split; rewrite ?Hm; auto.
    + now apply keys_truthy_set.
    + now apply set_within_capacity.
  - now apply within_capacity_get.
  - pose proof (within_capacity_get c t key H) as Hg.
    unfold Cache.has. destruct (Cache.get t key c) as [[x|] c']; exact Hg.
  - now apply within_capacity_delete.
  - destruct H as (Hnn & Hk & Hsz).
    split; [exact Hnn | split; [constructor | cbn; lia]].
  - now apply within_capacity_cleanup.
Qed.

(** Over every sequence of calls that writes no empty-string key, a cache
    of capacity [maxSize >= 0] never holds more than [maxSize] entries. *)
Lemma run_within_capacity (ops : list (CacheOp T)) c :
  Forall (fun k => truthy_string k = true) (written_keys ops) ->
  within_capacity c -> within_capacity (cache_run ops c).
Proof.
  revert c. induction ops as [|op ops IH]; intros c Hw H; auto.
  cbn [cache_run fold_left]. apply IH.
  - destruct op; cbn [written_keys] in Hw; auto. now inversion Hw.
  - apply within_capacity_step; auto.
    destruct op; cbn [written_keys] in *; auto.
    inversion Hw; subst. constructor; auto.
Qed.

Lemma new_within_capacity (ttlSeconds maxSize : Z) :
  0 <= maxSize -> within_capacity (Cache.new (T:=T) ttlSeconds maxSize).
Proof.
  intros H. split; [exact H | split; [constructor | cbn; lia]].
Qed.

(** An overwrite at capacity, the oldest key not being the empty string:
    the oldest entry is evicted first, although the key is present. *)
Lemma overwrite_at_capacity c t key v k0 e0 rest :
  Cache.cache c = (k0, e0) :: rest ->
  truthy_string k0 = true ->
  Cache.ttlMs c <> 0 ->
  JsMap.size (Cache.cache c) = Cache.maxSize c ->
  (forall k e, In (k, e) (Cache.cache c) -> Cache.expired t e = false) ->
  JsMap.get (Cache.cache c) key <> None ->
  Cache.cache (Cache.set t key v c)
  = JsMap.set rest key {| Cache.value := v; Cache.expiresAt := t + Cache.ttlMs c |}
  /\ (key <> k0 -> JsMap.wf (Cache.cache c) ->
      JsMap.get (Cache.cache (Cache.set t key v c)) k0 = None /\
      JsMap.size (Cache.cache (Cache.set t key v c)) = Cache.maxSize c - 1).
Proof.
  intros Hc Hk0 Httl Hfull Hlive Hpresent.
  assert (Hmax : Cache.maxSize c <> 0).
  { rewrite <- Hfull, Hc. unfold JsMap.size. cbn [List.length]. lia. }
  assert (Hset : Cache.cache (Cache.set t key v c)
                 = JsMap.set rest key
                     {| Cache.value := v; Cache.expiresAt := t + Cache.ttlMs c |}).
  { assert (Hge : (JsMap.size (Cache.cache c) >=? Cache.maxSize c) = true).
    { rewrite Hfull, Z.geb_leb. apply Z.leb_refl. }
    unfold Cache.set. apply Z.eqb_neq in Hmax, Httl. rewrite Hmax, Httl. cbn [orb].
    rewrite Hge, (cleanup_none_expired t c Hlive).
    cbn [Cache.with_cache Cache.cache Cache.maxSize Cache.ttlMs].
    rewrite Hge.
    unfold Cache.evict_oldest. cbn [Cache.with_cache Cache.cache].
    rewrite Hc. cbn [JsMap.first_key]. rewrite Hk0.
    cbn [Cache.with_cache Cache.cache Cache.ttlMs JsMap.delete].
    now rewrite String.eqb_refl. }
  split; [exact Hset|]. intros Hne Hwf. rewrite Hset.
  rewrite Hc in Hwf, Hpresent, Hfull. unfold JsMap.wf in Hwf.
  cbn [JsMap.keys map fst] in Hwf. inversion Hwf as [|? ? Hnotin _]; subst.
  cbn [JsMap.get] in Hpresent.
  assert (Hk0key : String.eqb k0 key = false) by (apply String.eqb_neq; congruence).
  rewrite Hk0key in Hpresent. split.
  - rewrite get_set_other by exact Hne. now apply get_None_keys.
  - unfold JsMap.size in *. rewrite length_set_present by exact Hpresent.
    cbn [List.length] in Hfull. lia.
Qed.
End Runs.

(** At capacity, with nothing expired and the empty string as the oldest
    key, [set] evicts nothing: the guard [if (firstKey)] fails. *)
Lemma set_at_capacity_empty_oldest {T} (c : Cache.SimpleCache T) t key v e0 rest :
  Cache.cache c = (EmptyString, e0) :: rest ->
  Cache.ttlMs c <> 0 ->
  JsMap.size (Cache.cache c) = Cache.maxSize c ->
  (forall k e, In (k, e) (Cache.cache c) -> Cache.expired t e = false) ->
  Cache.cache (Cache.set t key v c)
  = JsMap.set (Cache.cache c) key
      {| Cache.value := v; Cache.expiresAt := t + Cache.ttlMs c |}.
Proof.
  intros Hc Httl Hfull Hlive.
  assert (Hmax : Cache.maxSize c <> 0).
  { rewrite <- Hfull, Hc. unfold JsMap.size. cbn [List.length]. lia. }
  assert (Hge : (JsMap.size (Cache.cache c) >=? Cache.maxSize c) = true).
  { rewrite Hfull, Z.geb_leb. apply Z.leb_refl. }
  unfold Cache.set. apply Z.eqb_neq in Hmax, Httl. rewrite Hmax, Httl. cbn [orb].
  rewrite Hge, (cleanup_none_expired t c Hlive).
  cbn [Cache.with_cache Cache.cache Cache.maxSize Cache.ttlMs].
  rewrite Hge.
  unfold Cache.evict_oldest. cbn [Cache.with_cache Cache.cache].
  rewrite Hc. cbn [JsMap.first_key truthy_string String.eqb negb].
  reflexivity.
Qed.

(** C5: the capacity bound is broken when the oldest key is the empty
    string.  On a cache that is at capacity with nothing expired and whose
    oldest key is [""], [set] of a new key skips the eviction (the guard
    [if (firstKey)] is false for [""]) and stores the entry: the cache then
    holds [maxSize + 1] entries, the oldest one still among them. *)
Theorem C5_empty_key_exceeds_maxSize :
  forall (T : Type) (c : Cache.SimpleCache T) (t : Z) (key : string) (v : T)
         (e0 : Cache.CacheEntry T) (rest : JsMap.t (Cache.CacheEntry T)),
    Cache.cache c = (EmptyString, e0) :: rest ->
    Cache.ttlMs c <> 0 ->
    JsMap.size (Cache.cache c) = Cache.maxSize c ->
    (forall k e, In (k, e) (Cache.cache c) -> Cache.expired t e = false) ->
    JsMap.get (Cache.cache c) key = None ->
    JsMap.size (Cache.cache (Cache.set t key v c)) = Cache.maxSize c + 1 /\
    JsMap.size (Cache.cache (Cache.set t key v c))
    > Cache.maxSize (Cache.set t key v c) /\
    JsMap.get (Cache.cache (Cache.set t key v c)) EmptyString = Some e0.
Proof.
  intros T c t key v e0 rest Hc Httl Hfull Hlive Hnew.
  rewrite (set_at_capacity_empty_oldest c t key v e0 rest Hc Httl Hfull Hlive).
  destruct (set_params t key v c) as [_ Hm]. rewrite Hm.
  assert (Hsize : JsMap.size (JsMap.set (Cache.cache c) key
                     {| Cache.value := v; Cache.expiresAt := t + Cache.ttlMs c |})
                  = Cache.maxSize c + 1).
  { unfold JsMap.size in *. rewrite length_set_absent by exact Hnew. lia. }
  split; [exact Hsize|]. split; [lia|].
  assert (Hne : key <> EmptyString).
  { intros ->. rewrite Hc in Hnew. cbn in Hnew. discriminate. }
  rewrite get_set_other by exact Hne. rewrite Hc. reflexivity.
Qed.

(** C5 on a cache of capacity 1 that holds the key [""]: the second [set]
    leaves 2 entries. *)
Lemma C5_empty_key_exceeds_maxSize_witness :
  let c := Cache.set 0 "" "value1"%string (Cache.new 60 1) in
  JsMap.size (Cache.cache (Cache.set 0 "key2" "value2"%string c)) = 1 + 1 /\
  JsMap.size (Cache.cache (Cache.set 0 "key2" "value2"%string c))
  > Cache.maxSize (Cache.set 0 "key2" "value2"%string c) /\
  JsMap.get (Cache.cache (Cache.set 0 "key2" "value2"%string c)) EmptyString
  = Some {| Cache.value := "value1"%string; Cache.expiresAt := 60000 |}.
Proof.
  intros c.
  apply (C5_empty_key_exceeds_maxSize string c 0 "key2" "value2"%string
           {| Cache.value := "value1"%string; Cache.expiresAt := 60000 |} []).
  - reflexivity.
  - discriminate.
  - reflexivity.
  - intros k e [[= <- <-]|[]]. reflexivity.
  - reflexivity.
Defined.

(** C10: the overwrite at capacity evicts nothing when the oldest key is
    the empty string.  On a cache that is at capacity with nothing expired
    and whose oldest key is [""], [set] of a key that is present only
    rewrites its entry: the oldest entry stays, and the cache still holds
    [maxSize] entries, where the claim has the earliest-inserted key evicted
    and the cache left below [maxSize]. *)
Theorem C10_empty_key_not_evicted :
  forall (T : Type) (c : Cache.SimpleCache T) (t : Z) (key : string) (v : T)
         (e0 : Cache.CacheEntry T) (rest : JsMap.t (Cache.CacheEntry T)),
    Cache.cache c = (EmptyString, e0) :: rest ->
    Cache.ttlMs c <> 0 ->
    JsMap.size (Cache.cache c) = Cache.maxSize c ->
    (forall k e, In (k, e) (Cache.cache c) -> Cache.expired t e = false) ->
    JsMap.get (Cache.cache c) key <> None ->
    key <> EmptyString ->
    JsMap.get (Cache.cache (Cache.set t key v c)) EmptyString = Some e0 /\
    JsMap.size (Cache.cache (Cache.set t key v c)) = Cache.maxSize c /\
    JsMap.get (Cache.cache (Cache.set t key v c)) key
    = Some {| Cache.value := v; Cache.expiresAt := t + Cache.ttlMs c |}.
Proof.
  intros T c t key v e0 rest Hc Httl Hfull Hlive Hpresent Hne.
  rewrite (set_at_capacity_empty_oldest c t key v e0 rest Hc Httl Hfull Hlive).
  split; [|split].
  - rewrite get_set_other by exact Hne. rewrite Hc. reflexivity.
  - unfold JsMap.size in *. now rewrite length_set_present by exact Hpresent.
  - apply get_set_same.
Qed.

(** C10 on a cache of capacity 2 that holds [""] and ["k"]: the overwrite
    of ["k"] keeps both. *)
Lemma C10_empty_key_not_evicted_witness :
  let c := cache_run [OpSet 0 "" "a"; OpSet 0 "k" "b"]%string (Cache.new 60 2) in
  JsMap.get (Cache.cache (Cache.set 1 "k" "c"%string c)) EmptyString
  = Some {| Cache.value := "a"%string; Cache.expiresAt := 60000 |} /\
  JsMap.size (Cache.cache (Cache.set 1 "k" "c"%string c)) = 2 /\
  JsMap.get (Cache.cache (Cache.set 1 "k" "c"%string c)) "k"
  = Some {| Cache.value := "c"%string; Cache.expiresAt := 1 + 60000 |}.
Proof.
  intros c.
  apply (C10_empty_key_not_evicted string c 1 "k" "c"%string
           {| Cache.value := "a"%string; Cache.expiresAt := 60000 |}
           [("k"%string, {| Cache.value := "b"%string; Cache.expiresAt := 60000 |})]).
  - reflexivity.
  - discriminate.
  - reflexivity.
  - intros k e [[= <- <-]|[[= <- <-]|[]]]; reflexivity.
  - discriminate.
  - discriminate.
Defined.

(** The two runs, evaluated. *)
Lemma empty_key_runs :
  JsMap.keys (Cache.cache
    (cache_run [OpSet 0 "" "value1"; OpSet 0 "key2" "value2"]%string (Cache.new 60 1)))
  = [""; "key2"]%string /\
  JsMap.keys (Cache.cache
    (cache_run [OpSet 0 "" "a"; OpSet 0 "k" "b"; OpSet 1 "k" "c"]%string
       (Cache.new 60 2)))
  = [""; "k"]%string.
Proof. split; reflexivity. Qed.
(** ** The client: single fetches *)

Local Open Scope string_scope.

(** Runs the monadic plumbing of a fetch: the [try]/[catch], the binds and
    the two halves of [fetchWithTimeout]. *)
Ltac unfold_fetch :=
  unfold try_catch, bind, this;
  try unfold fetchWithTimeout;
  unfold fetch_settled.

Lemma world_eta w : {| client := client w; now := now w; requests := requests w |} = w.
Proof. now destruct w. Qed.

Lemma set_itemCache_same c : set_itemCache c (itemCache c) = c.
Proof. now destruct c. Qed.


Lemma set_listCache_same c : set_listCache c (listCache c) = c.
Proof. now destruct c. Qed.

Lemma set_client_same w : set_client w (client w) = w.
Proof. now destruct w. Qed.

Lemma get_delete_same {V} (m : JsMap.t V) k :
  JsMap.wf m -> JsMap.get (JsMap.delete m k) k = None.
Proof.
  unfold JsMap.wf. induction m as [|[k' v'] m IH]; simpl; intros H; auto.
  inversion H; subst. destruct (String.eqb k' k) eqn:E.
  - apply String.eqb_eq in E. subst. now apply get_None_keys.
  - simpl. rewrite E. auto.
Qed.

(** A probe that misses leaves the key unbound when the map is well formed. *)
Lemma get_miss_unbound {T} t key (c : Cache.SimpleCache T) :
  JsMap.wf (Cache.cache c) ->
  Cache.lookup t key c = None ->
  JsMap.get (Cache.cache (snd (Cache.get t key c))) key = None.
Proof.
  unfold Cache.lookup, Cache.get. intros Hwf.
  destruct (JsMap.get (Cache.cache c) key) as [e|] eqn:E; cbn; auto.
  destruct (Cache.expired t e); cbn; [|discriminate].
  intros _. now apply get_delete_same.
Qed.

Section SingleFetch.
Variable net : Upstream.

(** A hit: the cached value comes back, without a request and without a
    change of state. *)
Lemma getItem_hit id w e :
  JsMap.get (Cache.cache (itemCache (client w))) (item_key id) = Some e ->
  (now w <= Cache.expiresAt e)%Z ->
  getItem net id w = (Ok (Some (Cache.value e)), w).
Proof.
  intros Hg Ht. unfold getItem, bind, itemCache_get.
  rewrite (lookup_live _ _ _ _ Hg Ht). cbn.
  now rewrite set_itemCache_same, set_client_same.
Qed.

Lemma getItem_miss id w :
  Cache.lookup (now w) (item_key id) (itemCache (client w)) = None ->
  getItem net id w =
  let w1 := item_settled net id w in
  match item_json net id with
  | Response status statusText body =>
      if response_ok status then
        match body with
        | Json (Some item) =>
            (Ok (Some item),
             set_client w1 (set_itemCache (client w1)
               (Cache.set (now w1) (item_key id) item (itemCache (client w1)))))
        | Json None => (Ok None, w1)
        | Malformed msg =>
            (Throw (ClientError
               {| message := "Failed to fetch item " ++ num id ++ ": " ++ msg;
                  statusCode := None |}), w1)
        end
      else
        (Throw (ClientError
           {| message := "Failed to fetch item " ++ num id ++ ": "
                         ++ "HTTP " ++ num status ++ ": " ++ statusText;
              statusCode := None |}), w1)
  | NetworkFailure msg =>
      (Throw (ClientError
         {| message := "Failed to fetch item " ++ num id ++ ": " ++ msg;
            statusCode := None |}), w1)
  | Aborted =>
      (Throw (ClientError
         {| message := "Failed to fetch item " ++ num id ++ ": "
                       ++ "Request timeout after " ++ num (timeout (client w)) ++ "ms";
            statusCode := None |}), w1)
  end.
Proof.
  unfold Cache.lookup. intros Hmiss.
  unfold getItem, item_settled, bind, itemCache_get.
  destruct (Cache.get (now w) (item_key id) (itemCache (client w))) as [r ic] eqn:E.
  cbn in Hmiss. subst r. cbn.
  unfold try_catch, bind, this, fetchWithTimeout, fetch_settled, issue, rethrow, throw.
  cbn.
  destruct (item_json net id) as [status statusText body|msg|]; cbn; auto.
  destruct (response_ok status); cbn; auto.
  destruct body as [[item|]|msg]; cbn; auto.
Qed.

(** With the item cache disabled ([maxSize] or the TTL is 0) nothing is
    kept: a call that finds the cache empty sends its request and leaves the
    cache empty, so the next call fetches again. *)
Lemma getItem_cache_disabled id r status statusText w :
  Cache.maxSize (itemCache (client w)) = 0%Z \/ Cache.ttlMs (itemCache (client w)) = 0%Z ->
  Cache.cache (itemCache (client w)) = [] ->
  item_json net id = Response status statusText (Json r) ->
  response_ok status = true ->
  exists w',
    getItem net id w = (Ok r, w') /\
    requests w' = (requests w ++ [item_url (client w) id])%list /\
    itemCache (client w') = itemCache (client w).
Proof.
  intros Hoff Hempty Hup Hok.
  assert (Hmiss : Cache.lookup (now w) (item_key id) (itemCache (client w)) = None).
  { unfold Cache.lookup, Cache.get. now rewrite Hempty. }
  assert (Hprobe : snd (Cache.get (now w) (item_key id) (itemCache (client w)))
                   = itemCache (client w)).
  { unfold Cache.get. now rewrite Hempty. }
  rewrite (getItem_miss id w Hmiss), Hup, Hok. cbn zeta.
  unfold item_settled. rewrite Hprobe, set_itemCache_same.
  destruct r as [item|]; eexists; (split; [reflexivity|]);
    (split; [reflexivity|]); cbn [client itemCache set_client set_itemCache].
  - now apply set_disabled.
  - reflexivity.
Qed.
End SingleFetch.

(** C7, as stated, fails on a client whose item cache is switched off:
    with a maximum size of 0 the guard of [set] returns at once, so the
    first [getItem(100)] stores nothing under [item:100], and the second
    call, made 20 ms after the first within the TTL of 60 s, sends a second
    request for the same non-null item. *)
Lemma C7_cache_disabled_counterexample :
  let w0 :=
    {| client := new_client {| opt_baseUrl := "https://hacker-news.firebaseio.com/v0";
                               opt_timeout := 5000;
                               cacheOptions := Some {| ttlSeconds := 60; maxSize := 0 |} |};
       now := 0%Z;
       requests := [] |} in
  let r1 := getItem Example.hn 100 w0 in
  let r2 := getItem Example.hn 100 (snd r1) in
  item_json Example.hn 100 = Response 200 "OK" (Json (Some Example.item100)) /\
  fst r1 = Ok (Some Example.item100) /\
  JsMap.get (Cache.cache (itemCache (client (snd r1)))) "item:100" = None /\
  (now (snd r1) <= now w0 + 60 * 1000)%Z /\
  fst r2 = Ok (Some Example.item100) /\
  requests (snd r2)
  = ["https://hacker-news.firebaseio.com/v0/item/100.json";
     "https://hacker-news.firebaseio.com/v0/item/100.json"] /\
  List.length (requests (snd r2)) <> 1%nat.
Proof.
  vm_compute. repeat split; try reflexivity; discriminate.
Qed.

(** C7 (amended): with the item cache enabled (its maximum size and its
    TTL are not 0) and the first call missing the cache, a non-null
    upstream item costs one request: the first [getItem(id)] sends it and
    stores the item under the key [item:{id}], leaving the cache as
    [set("item:{id}", item)] makes it, and a second call within the TTL of
    that entry returns the stored item without fetching and without
    changing the state; a [null] answer is returned and nothing is written
    to the cache. *)
Theorem C7_getItem_caches_non_null :
  forall (net : Upstream) (id : Z) (w : World),
    let ic := itemCache (client w) in
    let key := "item:" ++ num id in
    Cache.lookup (now w) key ic = None ->
    (forall item status statusText,
        Cache.maxSize ic <> 0%Z -> Cache.ttlMs ic <> 0%Z ->
        item_json net id = Response status statusText (Json (Some item)) ->
        response_ok status = true ->
        exists w1,
          getItem net id w = (Ok (Some item), w1) /\
          requests w1 = (requests w ++ [(baseUrl (client w) ++ "/item/" ++ num id ++ ".json")%string])%list /\
          itemCache (client w1)
          = Cache.set (now w1) key item (snd (Cache.get (now w) key ic)) /\
          JsMap.get (Cache.cache (itemCache (client w1))) key
          = Some {| Cache.value := item;
                    Cache.expiresAt := (now w1 + Cache.ttlMs ic)%Z |} /\
          forall t2 : Z,
            (t2 <= now w1 + Cache.ttlMs ic)%Z ->
            getItem net id (at_time t2 w1) = (Ok (Some item), at_time t2 w1))
    /\
    (forall status statusText,
        item_json net id = Response status statusText (Json None) ->
        response_ok status = true ->
        exists w1,
          getItem net id w = (Ok None, w1) /\
          requests w1 = (requests w ++ [(baseUrl (client w) ++ "/item/" ++ num id ++ ".json")%string])%list /\
          itemCache (client w1) = snd (Cache.get (now w) key ic) /\
          (JsMap.wf (Cache.cache ic) ->
           JsMap.get (Cache.cache (itemCache (client w1))) key = None)).
Proof.
  intros net id w ic key Hmiss.
  change key with (item_key id) in *. split.
  - intros item status statusText Hmax Httl Hup Hok.
    rewrite (getItem_miss net id w Hmiss), Hup, Hok. cbn zeta.
    set (w1 := item_settled net id w).
    assert (Hparams : Cache.ttlMs (itemCache (client w1)) = Cache.ttlMs ic /\
                      Cache.maxSize (itemCache (client w1)) = Cache.maxSize ic).
    { unfold w1, item_settled. cbn. apply get_params. }
    destruct Hparams as [Httl1 Hmax1].
    eexists. split; [reflexivity|]. split; [reflexivity|].
    split; [reflexivity|].
    assert (Hstored :
      JsMap.get (Cache.cache (Cache.set (now w1) (item_key id) item
                                (itemCache (client w1)))) (item_key id)
      = Some {| Cache.value := item;
                Cache.expiresAt := (now w1 + Cache.ttlMs ic)%Z |}).
    { rewrite set_installs by congruence. now rewrite Httl1. }
    split; [exact Hstored|].
    intros t2 Ht2.
    apply getItem_hit
      with (e := {| Cache.value := item;
                    Cache.expiresAt := (now w1 + Cache.ttlMs ic)%Z |});
      [exact Hstored | exact Ht2].
  - intros status statusText Hup Hok.
    rewrite (getItem_miss net id w Hmiss), Hup, Hok. cbn zeta.
    eexists. split; [reflexivity|]. split; [reflexivity|].
    split; [reflexivity|].
    intros Hwf. cbn. now apply get_miss_unbound.
Qed.

(** C7 (amended) on the fresh client: item 100 exists upstream, item 404
    does not. *)
Lemma C7_getItem_caches_non_null_witness :
  (exists w1,
      getItem Example.hn 100 Example.fresh = (Ok (Some Example.item100), w1) /\
      requests w1 = (requests Example.fresh
                     ++ [(baseUrl (client Example.fresh) ++ "/item/" ++ num 100 ++ ".json")%string])%list /\
      itemCache (client w1)
      = Cache.set (now w1) ("item:" ++ num 100) Example.item100
          (snd (Cache.get (now Example.fresh) ("item:" ++ num 100)
                  (itemCache (client Example.fresh)))) /\
      JsMap.get (Cache.cache (itemCache (client w1))) ("item:" ++ num 100)
      = Some {| Cache.value := Example.item100;
                Cache.expiresAt :=
                  (now w1 + Cache.ttlMs (itemCache (client Example.fresh)))%Z |} /\
      forall t2 : Z,
        (t2 <= now w1 + Cache.ttlMs (itemCache (client Example.fresh)))%Z ->
        getItem Example.hn 100 (at_time t2 w1)
        = (Ok (Some Example.item100), at_time t2 w1))
  /\
  (exists w1,
      getItem Example.hn 404 Example.fresh = (Ok None, w1) /\
      requests w1 = (requests Example.fresh
                     ++ [(baseUrl (client Example.fresh) ++ "/item/" ++ num 404 ++ ".json")%string])%list /\
      itemCache (client w1)
      = snd (Cache.get (now Example.fresh) ("item:" ++ num 404)
               (itemCache (client Example.fresh))) /\
      (JsMap.wf (Cache.cache (itemCache (client Example.fresh))) ->
       JsMap.get (Cache.cache (itemCache (client w1))) ("item:" ++ num 404) = None)).
Proof.
  split.
  - apply (proj1 (C7_getItem_caches_non_null Example.hn 100 Example.fresh eq_refl)
             Example.item100 200%Z "OK");
      [discriminate | discriminate | reflexivity | reflexivity].
  - apply (proj2 (C7_getItem_caches_non_null Example.hn 404 Example.fresh eq_refl)
             200%Z "OK");
      reflexivity.
Defined.

(** ** The client: error wrapping *)

Section ErrorWrapping.
Variable net : Upstream.

Lemma fetchWithTimeout_http_error {A} u status statusText (body : Body A) w :
  response_ok status = false ->
  exists w',
    fetchWithTimeout net u (Response status statusText body) w
    = (Throw (ClientError {| message := "HTTP " ++ num status ++ ": " ++ statusText;
                             statusCode := Some status |}), w').
Proof.
  intros Hok. unfold fetchWithTimeout, fetch_settled. rewrite Hok. eauto.
Qed.

Lemma getItem_http_error id status statusText body w :
  response_ok status = false ->
  Cache.lookup (now w) (item_key id) (itemCache (client w)) = None ->
  item_json net id = Response status statusText body ->
  exists w',
    getItem net id w = (Throw (http_failure ("item " ++ num id) status statusText), w').
Proof.
  intros Hok Hmiss Hup. rewrite (getItem_miss net id w Hmiss), Hup, Hok.
  cbn zeta. unfold http_failure. eexists. reflexivity.
Qed.

Lemma getUser_http_error id status statusText body w :
  response_ok status = false ->
  Cache.lookup (now w) (user_key id) (userCache (client w)) = None ->
  user_json net id = Response status statusText body ->
  exists w',
    getUser net id w = (Throw (http_failure ("user " ++ id) status statusText), w').
Proof.
  unfold Cache.lookup. intros Hok Hmiss Hup.
  unfold getUser, bind, userCache_get.
  destruct (Cache.get (now w) (user_key id) (userCache (client w))) as [r uc].
  cbn in Hmiss. subst r.
  unfold_fetch. rewrite Hup, Hok.
  unfold http_failure. eexists. reflexivity.
Qed.

Lemma getStoryList_http_error endpoint status statusText body w :
  response_ok status = false ->
  Cache.lookup (now w) (list_key endpoint) (listCache (client w)) = None ->
  list_json net endpoint = Response status statusText body ->
  exists w',
    getStoryList net endpoint w = (Throw (http_failure endpoint status statusText), w').
Proof.
  unfold Cache.lookup. intros Hok Hmiss Hup.
  unfold getStoryList, bind, listCache_get.
  destruct (Cache.get (now w) (list_key endpoint) (listCache (client w))) as [r lc].
  cbn in Hmiss. subst r.
  unfold_fetch. rewrite Hup, Hok.
  unfold http_failure. eexists. reflexivity.
Qed.

Lemma getMaxItemId_http_error status statusText body w :
  response_ok status = false ->
  maxitem_json net = Response status statusText body ->
  exists w',
    getMaxItemId net w = (Throw (http_failure "max item ID" status statusText), w').
Proof.
  intros Hok Hup.
  unfold getMaxItemId, try_catch, bind, this, fetchWithTimeout, fetch_settled.
  rewrite Hup, Hok. unfold http_failure. eexists. reflexivity.
Qed.

Lemma getUpdates_http_error status statusText body w :
  response_ok status = false ->
  updates_json net = Response status statusText body ->
  exists w',
    getUpdates net w = (Throw (http_failure "updates" status statusText), w').
Proof.
  intros Hok Hup.
  unfold getUpdates, try_catch, bind, this, fetchWithTimeout, fetch_settled.
  rewrite Hup, Hok. unfold http_failure. eexists. reflexivity.
Qed.
End ErrorWrapping.

(** C2: the status code does not reach the caller.  For a response whose
    status is not 2xx, [fetchWithTimeout] throws a [HackerNewsClientError]
    that carries the status, and every public method that fetches ([getItem]
    and [getUser] on a cache miss, [getMaxItemId], the list fetchers on a
    cache miss, [getUpdates]) catches it and throws a new
    [HackerNewsClientError] whose [statusCode] is undefined: the status is
    only in the text of the message. *)
Theorem C2_status_code_is_dropped :
  forall (net : Upstream) (status : Z) (statusText : string),
    response_ok status = false ->
    (forall id body w,
        Cache.lookup (now w) (item_key id) (itemCache (client w)) = None ->
        item_json net id = Response status statusText body ->
        exists w',
          getItem net id w
          = (Throw (http_failure ("item " ++ num id) status statusText), w')) /\
    (forall id body w,
        Cache.lookup (now w) (user_key id) (userCache (client w)) = None ->
        user_json net id = Response status statusText body ->
        exists w',
          getUser net id w
          = (Throw (http_failure ("user " ++ id) status statusText), w')) /\
    (forall body w,
        maxitem_json net = Response status statusText body ->
        exists w',
          getMaxItemId net w
          = (Throw (http_failure "max item ID" status statusText), w')) /\
    (forall endpoint body w,
        Cache.lookup (now w) (list_key endpoint) (listCache (client w)) = None ->
        list_json net endpoint = Response status statusText body ->
        exists w',
          getStoryList net endpoint w
          = (Throw (http_failure endpoint status statusText), w')) /\
    (forall body w,
        updates_json net = Response status statusText body ->
        exists w',
          getUpdates net w
          = (Throw (http_failure "updates" status statusText), w')) /\
    (forall what,
        is_client_error (http_failure what status statusText) = true /\
        thrown_status (http_failure what status statusText) = None /\
        thrown_status (http_failure what status statusText) <> Some status).
Proof.
  intros net status statusText Hok.
  split; [|split; [|split; [|split; [|split]]]].
  - intros id body w Hmiss Hup. now apply getItem_http_error with (body := body).
  - intros id body w Hmiss Hup. now apply getUser_http_error with (body := body).
  - intros body w Hup. now apply getMaxItemId_http_error with (body := body).
  - intros endpoint body w Hmiss Hup.
    now apply getStoryList_http_error with (body := body).
  - intros body w Hup. now apply getUpdates_http_error with (body := body).
  - intros what. repeat split. discriminate.
Qed.

(** C2 on the fresh client: the upstream answers HTTP 500 for item 500, and
    [getItem(500)] throws an error without status code. *)
Lemma C2_status_code_is_dropped_witness :
  (exists w', getItem Example.hn 500 Example.fresh
              = (Throw (http_failure "item 500" 500 "Internal Server Error"), w')) /\
  thrown_status (http_failure "item 500" 500 "Internal Server Error") = None.
Proof.
  pose proof (C2_status_code_is_dropped Example.hn 500 "Internal Server Error" eq_refl)
    as (Hitem & _ & _ & _ & _ & Hstatus).
  split.
  - apply (Hitem 500%Z (Json None) Example.fresh); reflexivity.
  - apply (Hstatus "item 500").
Defined.

(** The other fetching methods on the fresh client: 503 for user "down",
    502 for [maxitem], 429 for [newstories], 404 for [updates]. *)
Lemma status_code_dropped_runs :
  (exists w', getUser Example.hn "down" Example.fresh
              = (Throw (http_failure "user down" 503 "Service Unavailable"), w')) /\
  (exists w', getMaxItemId Example.hn Example.fresh
              = (Throw (http_failure "max item ID" 502 "Bad Gateway"), w')) /\
  (exists w', getNewStories Example.hn Example.fresh
              = (Throw (http_failure "newstories" 429 "Too Many Requests"), w')) /\
  (exists w', getUpdates Example.hn Example.fresh
              = (Throw (http_failure "updates" 404 "Not Found"), w')).
Proof.
  split; [|split; [|split]].
  - apply getUser_http_error with (body := Json None); reflexivity.
  - apply getMaxItemId_http_error with (body := Json 0%Z); reflexivity.
  - apply getStoryList_http_error with (body := Json []); reflexivity.
  - apply getUpdates_http_error
      with (body := Json {| items := []; profiles := [] |}); reflexivity.
Qed.

(** ** The client: clean not-found on the composite lookups *)

(** C9: when the fetched item is absent, or is not a story,
    [getStoryWithMetadata(id)] resolves with [null]; when the fetched user is
    absent, [getUserWithStats(id)] resolves with [null].  Neither throws, and
    neither touches the state beyond what the fetch did. *)
Theorem C9_not_found_is_null :
  forall (net : Upstream) (hostname : string -> option string) (w w' : World),
    (forall id,
        getItem net id w = (Ok None, w') ->
        getStoryWithMetadata net hostname id w = (Ok None, w')) /\
    (forall id item,
        getItem net id w = (Ok (Some item), w') ->
        type item <> Some story ->
        getStoryWithMetadata net hostname id w = (Ok None, w')) /\
    (forall id,
        getUser net id w = (Ok None, w') ->
        getUserWithStats net id w = (Ok None, w')).
Proof.
  intros net hostname w w'. repeat split.
  - intros id H. unfold getStoryWithMetadata, bind. now rewrite H.
  - intros id item H Hty. unfold getStoryWithMetadata, bind. rewrite H.
    assert (Hnot : has_type item story = false).
    { unfold has_type. destruct (type item) as [[]|]; auto. congruence. }
    now rewrite Hnot.
  - intros id H. unfold getUserWithStats, bind. now rewrite H.
Qed.

(** C9 on the fresh client: item 404 is absent, item 101 is a comment, user
    "nobody" is absent. *)
Lemma C9_not_found_is_null_witness :
  getStoryWithMetadata Example.hn Example.no_hostname 404 Example.fresh
  = (Ok None, snd (getItem Example.hn 404 Example.fresh)) /\
  getStoryWithMetadata Example.hn Example.no_hostname 101 Example.fresh
  = (Ok None, snd (getItem Example.hn 101 Example.fresh)) /\
  getUserWithStats Example.hn "nobody" Example.fresh
  = (Ok None, snd (getUser Example.hn "nobody" Example.fresh)).
Proof.
  split; [|split].
  - apply (proj1 (C9_not_found_is_null Example.hn Example.no_hostname
                    Example.fresh (snd (getItem Example.hn 404 Example.fresh)))).
    reflexivity.
  - apply (proj1 (proj2 (C9_not_found_is_null Example.hn Example.no_hostname
                           Example.fresh (snd (getItem Example.hn 101 Example.fresh))))
             101%Z Example.item101).
    + reflexivity.
    + discriminate.
  - apply (proj2 (proj2 (C9_not_found_is_null Example.hn Example.no_hostname
                           Example.fresh (snd (getUser Example.hn "nobody" Example.fresh))))).
    reflexivity.
Defined.

(** ** The client: the story-list cache *)

Section ListCache.
Variable net : Upstream.

(** A story-list fetch against an empty list cache of capacity 0: the
    request is sent and the cache stays as it is. *)
Lemma getStoryList_capacity_zero endpoint w :
  Cache.maxSize (listCache (client w)) = 0%Z ->
  Cache.cache (listCache (client w)) = [] ->
  let w' := snd (getStoryList net endpoint w) in
  requests w' = (requests w ++ [endpoint_url (client w) endpoint])%list /\
  listCache (client w') = listCache (client w) /\
  baseUrl (client w') = baseUrl (client w).
Proof.
  intros Hcap Hempty.
  unfold getStoryList, bind, listCache_get, Cache.get. rewrite Hempty. cbn [JsMap.get].
  rewrite set_listCache_same, set_client_same.
  unfold_fetch.
  destruct (list_json net endpoint) as [status statusText body|msg|]; cbn.
  - destruct (response_ok status); cbn; auto.
    destruct body as [stories|msg]; cbn; auto.
    rewrite set_disabled by auto. auto.
  - auto.
  - auto.
Qed.

Lemma list_calls_capacity_zero calls : forall w,
  Cache.maxSize (listCache (client w)) = 0%Z ->
  Cache.cache (listCache (client w)) = [] ->
  requests (list_calls net calls w)
  = (requests w ++ map (fun call => endpoint_url (client w) (snd call)) calls)%list /\
  listCache (client (list_calls net calls w)) = listCache (client w).
Proof.
  induction calls as [|[t endpoint] calls IH]; intros w Hcap Hempty; cbn [list_calls map].
  - now rewrite app_nil_r.
  - destruct (getStoryList_capacity_zero endpoint (at_time t w) Hcap Hempty)
      as (Hreq & Hlc & Hbase).
    cbn [at_time client requests] in Hreq, Hlc, Hbase.
    destruct (IH (snd (getStoryList net endpoint (at_time t w)))) as [IHreq IHlc].
    + now rewrite Hlc.
    + now rewrite Hlc.
    + rewrite IHreq, IHlc, Hreq, Hlc, <- app_assoc. cbn [app snd].
      split; auto. do 2 f_equal.
      apply map_ext. intros call. unfold endpoint_url. now rewrite Hbase.
Qed.
End ListCache.

(** C8, as stated, fails for a negative maximum size: with [M = -5] the
    list cache gets [floor(-5 / 10) = -1], which is not 0, so the guard of
    [set] does not apply and the list is kept: of two fetches of the top
    stories, 100 ms apart, only the first sends a request. *)
Lemma C8_negative_size_counterexample :
  let w0 :=
    {| client := new_client {| opt_baseUrl := "https://hacker-news.firebaseio.com/v0";
                               opt_timeout := 5000;
                               cacheOptions := Some {| ttlSeconds := 60; maxSize := (-5)%Z |} |};
       now := 0%Z;
       requests := [] |} in
  let w2 := list_calls Example.hn [(0, "topstories"); (100, "topstories")]%Z w0 in
  (-5 < 10)%Z /\
  Cache.maxSize (listCache (client w0)) = (-1)%Z /\
  Cache.maxSize (listCache (client w0)) <> 0%Z /\
  requests w2 = ["https://hacker-news.firebaseio.com/v0/topstories.json"] /\
  JsMap.get (Cache.cache (listCache (client w2))) "list:topstories"
  = Some {| Cache.value := [100; 200; 404]%Z; Cache.expiresAt := 60020%Z |} /\
  fst (getStoryList Example.hn "topstories" (at_time 100 w2)) = Ok [100; 200; 404]%Z /\
  requests (snd (getStoryList Example.hn "topstories" (at_time 100 w2))) = requests w2.
Proof.
  vm_compute. repeat split; try reflexivity; try discriminate.
Qed.

(** C8 (amended): the list cache is constructed with [floor(M / 10)] as its
    maximum size, [M] being the configured maximum; for [0 <= M < 10] that
    capacity is 0, and then no story-ID list is retained: every list fetch
    of every sequence of list fetches sends its request, and the list cache
    stays empty.  For a negative [M] the capacity is negative, not 0. *)
Theorem C8_list_cache_is_a_tenth :
  forall (options : HackerNewsClientOptions) (ttl M : Z),
    cacheOptions options = Some {| ttlSeconds := ttl; maxSize := M |} ->
    let c := new_client options in
    Cache.maxSize (listCache c) = (M / 10)%Z /\
    (10 * Cache.maxSize (listCache c) <= M < 10 * Cache.maxSize (listCache c) + 10)%Z /\
    ((0 <= M < 10)%Z ->
     Cache.maxSize (listCache c) = 0%Z /\
     forall (net : Upstream) (calls : list (Z * string)) (w : World),
       listCache (client w) = listCache c ->
       requests (list_calls net calls w)
       = (requests w ++ map (fun call => endpoint_url (client w) (snd call)) calls)%list /\
       Cache.cache (listCache (client (list_calls net calls w))) = []) /\
    ((M < 0)%Z -> (Cache.maxSize (listCache c) < 0)%Z).
Proof.
  intros options ttl M Hopt c.
  assert (Hcap : Cache.maxSize (listCache c) = (M / 10)%Z).
  { unfold c, new_client. now rewrite Hopt. }
  split; [exact Hcap|]. split; [|split].
  - rewrite Hcap. pose proof (Z.div_mod M 10). pose proof (Z.mod_pos_bound M 10). lia.
  - intros HM.
    assert (Hzero : Cache.maxSize (listCache c) = 0%Z).
    { rewrite Hcap. apply Z.div_small. lia. }
    split; [exact Hzero|].
    intros net calls w Hw.
    assert (Hempty : Cache.cache (listCache (client w)) = []).
    { rewrite Hw. unfold c, new_client. now rewrite Hopt. }
    destruct (list_calls_capacity_zero net calls w) as [Hreq Hlc]; auto.
    + now rewrite Hw.
    + split; [exact Hreq|]. now rewrite Hlc.
  - intros HM. rewrite Hcap.
    pose proof (Z.div_mod M 10). pose proof (Z.mod_pos_bound M 10). lia.
Qed.

(** C8 (amended) on a client configured with [maxSize = 5]. *)
Lemma C8_list_cache_is_a_tenth_witness :
  Cache.maxSize (listCache (client Example.small)) = (5 / 10)%Z /\
  Cache.maxSize (listCache (client Example.small)) = 0%Z /\
  requests (list_calls Example.hn [(0, "topstories"); (10, "topstories")]%Z Example.small)
  = [endpoint_url (client Example.small) "topstories";
     endpoint_url (client Example.small) "topstories"].
Proof.
  pose proof (C8_list_cache_is_a_tenth
                {| opt_baseUrl := "https://hacker-news.firebaseio.com/v0";
                   opt_timeout := 5000;
                   cacheOptions := Some {| ttlSeconds := 60; maxSize := 5 |} |}
                60 5 eq_refl) as H.
  cbv zeta in H. destruct H as (Hcap & _ & Hsmall & _).
  destruct (Hsmall ltac:(lia)) as [Hzero Hcalls].
  split; [exact Hcap|]. split; [exact Hzero|].
  exact (proj1 (Hcalls Example.hn [(0, "topstories"); (10, "topstories")]%Z
                  Example.small eq_refl)).
Defined.
(** ** The client: [Promise.all] and the batch loops *)

Lemma slice_from_length {A} (l : list A) (i n : Z) :
  (0 <= i)%Z -> (0 <= n)%Z ->
  Z.of_nat (List.length (slice l i (i + n)))
  = Z.min n (Z.max 0 (Z.of_nat (List.length l) - i)).
Proof.
  intros Hi Hn. unfold slice, slice_index.
  destruct (i <? 0)%Z eqn:E1; [apply Z.ltb_lt in E1; lia|].
  destruct (i + n <? 0)%Z eqn:E2; [apply Z.ltb_lt in E2; lia|].
  rewrite length_firstn, length_skipn. lia.
Qed.

Lemma slice_prefix {A} (l : list A) (n : Z) :
  (0 <= n)%Z -> slice l 0 n = firstn (Z.to_nat n) l.
Proof.
  intros Hn. unfold slice, slice_index.
  destruct (n <? 0)%Z eqn:E; [apply Z.ltb_lt in E; lia|].
  cbn [Z.ltb Z.compare]. rewrite (Z.min_l 0) by lia. cbn [Z.to_nat skipn].
  rewrite Z.sub_0_r.
  destruct (Z.min_spec n (Z.of_nat (List.length l))) as [[_ ->]|[Hle ->]]; auto.
  rewrite Nat2Z.id, firstn_all. symmetry. apply firstn_all2. lia.
Qed.

Lemma In_firstn {A} (n : nat) (x : A) : forall l, In x (firstn n l) -> In x l.
Proof.
  induction n as [|n IH]; intros [|a l]; cbn; try tauto.
  intros [H|H]; auto.
Qed.

Lemma In_skipn {A} (n : nat) (x : A) : forall l, In x (skipn n l) -> In x l.
Proof.
  induction n as [|n IH]; intros [|a l]; cbn; try tauto.
  intros H. right. now apply IH.
Qed.

Lemma slice_incl {A} (l : list A) (i j : Z) (x : A) : In x (slice l i j) -> In x l.
Proof.
  unfold slice. intros H. apply In_firstn in H. now apply In_skipn in H.
Qed.

(** The tail of an array is its next batch followed by the rest. *)
Lemma skipn_batch {A} (l : list A) (i n : Z) :
  (0 <= i)%Z -> (0 <= n)%Z ->
  skipn (Z.to_nat i) l = (slice l i (i + n) ++ skipn (Z.to_nat (i + n)) l)%list.
Proof.
  intros Hi Hn. unfold slice, slice_index.
  destruct (i <? 0)%Z eqn:E1; [apply Z.ltb_lt in E1; lia|].
  destruct (i + n <? 0)%Z eqn:E2; [apply Z.ltb_lt in E2; lia|].
  set (len := Z.of_nat (List.length l)).
  destruct (Z.le_gt_cases i len) as [Hle|Hgt].
  - rewrite (Z.min_l i len) by lia.
    replace (Z.to_nat (i + n)) with (Z.to_nat (Z.min (i + n) len - i)
                                     + (Z.to_nat (i + n) - Z.to_nat (Z.min (i + n) len - i)))%nat
      by lia.
    destruct (Z.le_gt_cases (i + n) len) as [Hle2|Hgt2].
    + rewrite (Z.min_l (i + n) len) by lia.
      replace (Z.to_nat (i + n - i)
               + (Z.to_nat (i + n) - Z.to_nat (i + n - i)))%nat
        with (Z.to_nat (i + n - i) + Z.to_nat i)%nat by lia.
      rewrite <- skipn_skipn. now rewrite firstn_skipn.
    + rewrite (Z.min_r (i + n) len) by lia.
      rewrite (skipn_all2 (n := (Z.to_nat (len - i) +
                   (Z.to_nat (i + n) - Z.to_nat (len - i)))%nat)) by (unfold len in *; lia).
      rewrite app_nil_r. symmetry. apply firstn_all2.
      rewrite length_skipn. unfold len. lia.
  - rewrite (Z.min_r i len), (Z.min_r (i + n) len) by lia.
    rewrite !skipn_all2 by (unfold len in *; lia).
    now destruct (Z.to_nat (len - len)).
Qed.

Section PromiseAll.
Variable net : Upstream.

(** [getItem] is its synchronous start followed by its continuation: the
    two halves [Promise.all] interleaves are the halves of the method. *)
Lemma getItem_begin_resume id w :
  getItem net id w
  = getItem_resume net id (fst (getItem_begin id w)) (snd (getItem_begin id w)).
Proof.
  unfold getItem, getItem_begin, bind at 1.
  destruct (itemCache_get (item_key id) w) as [[[item|]|t|] w1] eqn:E;
    try reflexivity;
    unfold itemCache_get in E;
    destruct (Cache.get (now w) (item_key id) (itemCache (client w)));
    discriminate.
Qed.

Lemma begin_all_length ids : forall w,
  List.length (fst (begin_all ids w)) = List.length ids.
Proof.
  induction ids as [|id ids IH]; intros w; cbn [begin_all]; auto.
  destruct (getItem_begin id w) as [p w1].
  specialize (IH w1). destruct (begin_all ids w1) as [ps w2].
  cbn in *. now rewrite IH.
Qed.

Lemma resume_all_length ps : forall w,
  List.length (fst (resume_all net ps w)) = List.length ps.
Proof.
  induction ps as [|[id p] ps IH]; intros w; cbn [resume_all]; auto.
  destruct (getItem_resume net id p w) as [r w1].
  specialize (IH w1). destruct (resume_all net ps w1) as [rs w2].
  cbn in *. now rewrite IH.
Qed.

Lemma all_settled_length {A} (rs : list (Result A)) l :
  all_settled rs = Ok l -> List.length l = List.length rs.
Proof.
  revert l. induction rs as [|[a|t|] rs IH]; intros l; cbn [all_settled].
  - intros [= <-]. reflexivity.
  - destruct (all_settled rs) as [l'| |]; try discriminate.
    intros [= <-]. cbn. now rewrite (IH l').
  - discriminate.
  - discriminate.
Qed.

(** [Promise.all] resolves only if every promise resolves. *)
Lemma all_settled_resolved {A} (rs : list (Result A)) l :
  all_settled rs = Ok l -> rs = map Ok l.
Proof.
  revert l. induction rs as [|[a|t|] rs IH]; intros l; cbn [all_settled].
  - intros [= <-]. reflexivity.
  - destruct (all_settled rs) as [l'| |]; try discriminate.
    intros [= <-]. cbn. now rewrite (IH l').
  - discriminate.
  - discriminate.
Qed.

Lemma promise_all_length ids w rs w' :
  promise_all_getItem net ids w = (Ok rs, w') -> List.length rs = List.length ids.
Proof.
  unfold promise_all_getItem. intros H.
  pose proof (begin_all_length ids w) as Hb.
  destruct (begin_all ids w) as [ps w1].
  pose proof (resume_all_length ps w1) as Hr.
  destruct (resume_all net ps w1) as [rs' w2].
  inversion H as [[Hs Hw]]. apply all_settled_length in Hs.
  cbn in *. congruence.
Qed.

Lemma getItem_resume_settles id p w :
  fst (getItem_resume net id p w) <> OutOfFuel.
Proof.
  destruct p as [item|]; cbn; [discriminate|].
  unfold_fetch.
  destruct (item_json net id) as [status statusText body|msg|]; cbn; try discriminate.
  destruct (response_ok status); cbn; try discriminate.
  destruct body as [[item|]|msg]; cbn; discriminate.
Qed.

Lemma promise_all_settles ids w :
  fst (promise_all_getItem net ids w) <> OutOfFuel.
Proof.
  unfold promise_all_getItem.
  destruct (begin_all ids w) as [ps w1]. revert w1.
  induction ps as [|[id p] ps IH]; intros w1; cbn [resume_all].
  - cbn. discriminate.
  - pose proof (getItem_resume_settles id p w1) as Hr.
    destruct (getItem_resume net id p w1) as [r w2].
    specialize (IH w2). destruct (resume_all net ps w2) as [rs w3].
    cbn in *. destruct r as [a|t|]; try congruence; try discriminate.
    destruct (all_settled rs); try congruence; discriminate.
Qed.
End PromiseAll.

Section Batches.
Context {S : Type}.
Variables (batchSize : Z) (arr : list Z) (body : list Z -> S -> M S).

(** The loop ends within [arr.length] rounds when [batchSize >= 1]. *)
Lemma for_batches_settles :
  (1 <= batchSize)%Z ->
  (forall b s w, fst (body b s w) <> OutOfFuel) ->
  forall fuel i s w,
    (Z.to_nat (Z.of_nat (List.length arr) - i) < fuel)%nat ->
    fst (for_batches fuel batchSize arr i body s w) <> OutOfFuel.
Proof.
  intros Hsize Hbody. induction fuel as [|fuel IH]; intros i s w Hfuel; [lia|].
  cbn [for_batches].
  destruct (i <? Z.of_nat (List.length arr))%Z eqn:E; [|cbn; discriminate].
  apply Z.ltb_lt in E. unfold bind.
  pose proof (Hbody (slice arr i (i + batchSize)) s w) as Hb.
  destruct (body (slice arr i (i + batchSize)) s w) as [[s'|t|] w1];
    cbn in *; try congruence; try discriminate.
  apply IH. lia.
Qed.
End Batches.

Section MultipleItems.
Variable net : Upstream.

Lemma getMultipleItems_loop_length ids : forall fuel i results w out w',
  (0 <= i)%Z ->
  for_batches fuel 10 ids i
    (fun batch results =>
       bind (promise_all_getItem net batch)
            (fun batchResults => ret (results ++ batchResults)%list))
    results w = (Ok out, w') ->
  Z.of_nat (List.length out)
  = (Z.of_nat (List.length results) + Z.max 0 (Z.of_nat (List.length ids) - i))%Z.
Proof.
  induction fuel as [|fuel IH]; intros i results w out w' Hi; cbn [for_batches].
  - discriminate.
  - destruct (i <? Z.of_nat (List.length ids))%Z eqn:E.
    + apply Z.ltb_lt in E. unfold bind at 1.
      destruct (bind (promise_all_getItem net (slice ids i (i + 10)))
                  (fun batchResults => ret (results ++ batchResults)%list) w)
        as [[s'|t|] w1] eqn:Eb; try discriminate.
      intros H. apply IH in H; [|lia]. rewrite H.
      unfold bind, ret in Eb.
      destruct (promise_all_getItem net (slice ids i (i + 10)) w)
        as [[rs|t|] w2] eqn:Ep; try discriminate.
      inversion Eb; subst. apply promise_all_length in Ep.
      rewrite length_app, Nat2Z.inj_add, Ep, slice_from_length by lia. lia.
    + apply Z.ltb_ge in E. unfold ret. intros [= <- <-]. lia.
Qed.

(** When [getMultipleItems] resolves, its result has one entry per id. *)
Lemma getMultipleItems_length ids w rs w' :
  getMultipleItems net ids w = (Ok rs, w') -> List.length rs = List.length ids.
Proof.
  unfold getMultipleItems. intros H.
  apply getMultipleItems_loop_length in H; [|lia]. cbn [List.length] in H. lia.
Qed.

(** The model never runs out of fuel on [getMultipleItems]: the promise
    resolves or rejects. *)
Lemma getMultipleItems_settles ids w :
  fst (getMultipleItems net ids w) <> OutOfFuel.
Proof.
  unfold getMultipleItems. apply for_batches_settles; [lia | | lia].
  intros b s w0. unfold bind, ret.
  pose proof (promise_all_settles net b w0) as Hp.
  destruct (promise_all_getItem net b w0) as [[rs|t|] w1]; cbn in *;
    try congruence; discriminate.
Qed.
End MultipleItems.

(** ** The comment walk against the upstream *)

Lemma num_inj (a b : Z) : num a = num b -> a = b.
Proof.
  unfold num. intros H. apply DecimalZ.to_int_inj.
  assert (Hnn : forall z : Z, Z.to_int z <> Decimal.Pos Decimal.Nil /\
                              Z.to_int z <> Decimal.Neg Decimal.Nil).
  { intros [|p|p]; cbn; split; try discriminate;
      intros [= Hp]; now apply (DecimalPos.Unsigned.to_uint_nonnil p). }
  apply (f_equal NilZero.int_of_string) in H.
  rewrite !NilZero.isi in H by apply Hnn. congruence.
Qed.

Lemma item_key_inj (a b : Z) : item_key a = item_key b -> a = b.
Proof. unfold item_key. cbn. intros [= H]. now apply num_inj. Qed.

Lemma get_In {V} (m : JsMap.t V) k v : JsMap.get m k = Some v -> In (k, v) m.
Proof.
  induction m as [|[k' v'] m IH]; cbn; [discriminate|].
  destruct (String.eqb k' k) eqn:E.
  - apply String.eqb_eq in E. intros [= ->]. left. congruence.
  - auto.
Qed.

Lemma In_set {V} (m : JsMap.t V) k v x :
  In x (JsMap.set m k v) -> x = (k, v) \/ In x m.
Proof.
  induction m as [|[k' v'] m IH]; cbn.
  - intros [H|[]]. now left.
  - destruct (String.eqb k' k) eqn:E; cbn.
    + apply String.eqb_eq in E. subst k'. intros [H|H]; auto.
    + intros [H|H]; auto. destruct (IH H); auto.
Qed.

Lemma In_delete {V} (m : JsMap.t V) k x : In x (JsMap.delete m k) -> In x m.
Proof.
  induction m as [|[k' v'] m IH]; cbn; auto.
  destruct (String.eqb k' k); cbn; intuition.
Qed.

Lemma In_cache_get {T} t key (c : Cache.SimpleCache T) x :
  In x (Cache.cache (snd (Cache.get t key c))) -> In x (Cache.cache c).
Proof.
  unfold Cache.get. destruct (JsMap.get (Cache.cache c) key) as [e|]; auto.
  destruct (Cache.expired t e); cbn; auto. apply In_delete.
Qed.

Lemma In_cache_set {T} t key v (c : Cache.SimpleCache T) k e :
  In (k, e) (Cache.cache (Cache.set t key v c)) ->
  (k = key /\ Cache.value e = v) \/ In (k, e) (Cache.cache c).
Proof.
  unfold Cache.set.
  destruct ((Cache.maxSize c =? 0)%Z || (Cache.ttlMs c =? 0)%Z); auto.
  set (c1 := if (JsMap.size (Cache.cache c) >=? Cache.maxSize c)%Z
             then Cache.cleanup t c else c).
  assert (H1 : forall x, In x (Cache.cache c1) -> In x (Cache.cache c)).
  { unfold c1. destruct (JsMap.size (Cache.cache c) >=? Cache.maxSize c)%Z; auto.
    cbn. intros x Hx. now apply filter_In in Hx. }
  set (c2 := if (JsMap.size (Cache.cache c1) >=? Cache.maxSize c1)%Z
             then Cache.evict_oldest c1 else c1).
  assert (H2 : forall x, In x (Cache.cache c2) -> In x (Cache.cache c)).
  { unfold c2. destruct (JsMap.size (Cache.cache c1) >=? Cache.maxSize c1)%Z; auto.
    unfold Cache.evict_oldest.
    destruct (JsMap.first_key (Cache.cache c1)) as [fk|]; auto.
    destruct (truthy_string fk); auto. cbn. intros x Hx.
    apply H1. eapply In_delete. exact Hx. }
  cbn [Cache.with_cache Cache.cache]. intros Hin.
  apply In_set in Hin. destruct Hin as [[= -> ->]|Hin]; auto.
Qed.

Section Coherence.
Variable net : Upstream.

Lemma upstream_item_resolved id r :
  upstream_item net id = Some r ->
  exists status statusText,
    item_json net id = Response status statusText (Json r) /\
    response_ok status = true.
Proof.
  unfold upstream_item.
  destruct (item_json net id) as [status statusText [r'|msg]|msg|]; try discriminate.
  destruct (response_ok status) eqn:E; [|discriminate].
  intros [= ->]. eauto.
Qed.

Lemma coherent_probe id w :
  coherent net w ->
  coherent net (set_client w (set_itemCache (client w)
                  (snd (Cache.get (now w) (item_key id) (itemCache (client w)))))).
Proof.
  intros H id' e Hin. cbn in Hin. apply In_cache_get in Hin. now apply H.
Qed.

Lemma coherent_store id item w :
  upstream_item net id = Some (Some item) ->
  coherent net w ->
  coherent net (set_client w (set_itemCache (client w)
                  (Cache.set (now w) (item_key id) item (itemCache (client w))))).
Proof.
  intros Hup H id' e Hin. cbn in Hin. apply In_cache_set in Hin.
  destruct Hin as [[Hk Hv]|Hin]; [|now apply H].
  apply item_key_inj in Hk. subst. exact Hup.
Qed.

Lemma getItem_begin_coherent id w :
  coherent net w ->
  coherent net (snd (getItem_begin id w)) /\
  forall item, fst (getItem_begin id w) = Hit item ->
               upstream_item net id = Some (Some item).
Proof.
  intros H. unfold getItem_begin, itemCache_get.
  pose proof (coherent_probe id w H) as Hp.
  destruct (Cache.get (now w) (item_key id) (itemCache (client w))) as [[item|] ic] eqn:E;
    cbn [fst snd] in *.
  - split; [exact Hp|]. intros item' [= <-].
    unfold Cache.get in E.
    destruct (JsMap.get (Cache.cache (itemCache (client w))) (item_key id))
      as [e|] eqn:Eg; [|discriminate].
    destruct (Cache.expired (now w) e); [discriminate|].
    inversion E; subst. apply H. now apply get_In.
  - split; [|discriminate]. intros id' e Hin. apply (Hp id' e). exact Hin.
Qed.

Lemma getItem_resume_coherent id p r w :
  coherent net w ->
  upstream_item net id = Some r ->
  (forall item, p = Hit item -> r = Some item) ->
  exists w', getItem_resume net id p w = (Ok r, w') /\ coherent net w'.
Proof.
  intros H Hup Hhit. destruct p as [item|]; cbn [getItem_resume].
  - rewrite (Hhit item eq_refl). unfold ret. eauto.
  - destruct (upstream_item_resolved id r Hup) as (status & statusText & Hj & Hok).
    unfold_fetch. rewrite Hj, Hok. cbn.
    destruct r as [item|]; cbn.
    + eexists. split; [reflexivity|].
      apply (coherent_store id item
               (at_time (now w + latency net (item_url (client w) id))%Z w) Hup).
      exact H.
    + eexists. split; [reflexivity|]. exact H.
Qed.

(** With a coherent cache, [getItem] resolves with the upstream's answer
    whenever the upstream has one. *)
Lemma getItem_coherent id r w :
  coherent net w ->
  upstream_item net id = Some r ->
  exists w', getItem net id w = (Ok r, w') /\ coherent net w'.
Proof.
  intros H Hup.
  destruct (getItem_begin_coherent id w H) as [Hc Hhit].
  rewrite getItem_begin_resume. apply getItem_resume_coherent; auto.
  intros item Hp. specialize (Hhit item Hp). congruence.
Qed.

Lemma begin_all_coherent ids : forall rs w,
  coherent net w ->
  Forall2 (answered net) ids rs ->
  coherent net (snd (begin_all ids w)) /\
  Forall2 (fun ip r => answered net (fst ip) r /\
                       forall item, snd ip = Hit item -> r = Some item)
          (fst (begin_all ids w)) rs.
Proof.
  induction ids as [|id ids IH]; intros rs w H Hans; inversion Hans; subst;
    cbn [begin_all].
  - cbn. auto.
  - destruct (getItem_begin_coherent id w H) as [Hc Hhit].
    destruct (getItem_begin id w) as [p w1]. cbn [fst snd] in *.
    match goal with Hrest : Forall2 (answered net) ids ?l |- _ =>
      destruct (IH l w1 Hc Hrest) as [Hc2 Hps] end.
    destruct (begin_all ids w1) as [ps w2]. cbn [fst snd] in *.
    split; [exact Hc2|]. constructor; [|exact Hps]. cbn. split; [assumption|].
    intros item Hp. specialize (Hhit item Hp). unfold answered in *. congruence.
Qed.

Lemma resume_all_coherent ps : forall rs w,
  coherent net w ->
  Forall2 (fun ip r => answered net (fst ip) r /\
                       forall item, snd ip = Hit item -> r = Some item) ps rs ->
  exists w', resume_all net ps w = (map Ok rs, w') /\ coherent net w'.
Proof.
  induction ps as [|[id p] ps IH]; intros rs w H Hps; inversion Hps; subst;
    cbn [resume_all map].
  - eauto.
  - match goal with Hhd : answered _ _ _ /\ _ |- _ => destruct Hhd as [Hup Hhit] end.
    cbn [fst snd] in *.
    destruct (getItem_resume_coherent id p _ w H Hup Hhit) as [w1 [E1 Hc1]].
    rewrite E1.
    match goal with Hrest : Forall2 _ ps ?l |- _ =>
      destruct (IH l w1 Hc1 Hrest) as [w2 [E2 Hc2]] end.
    rewrite E2. eauto.
Qed.

Lemma all_settled_map_Ok {A} (l : list A) : all_settled (map Ok l) = Ok l.
Proof. induction l as [|a l IH]; cbn; [|rewrite IH]; reflexivity. Qed.

(** With a coherent cache, [Promise.all] over ids the upstream answers
    resolves with those answers, in order. *)
Lemma promise_all_coherent ids rs w :
  coherent net w ->
  Forall2 (answered net) ids rs ->
  exists w', promise_all_getItem net ids w = (Ok rs, w') /\ coherent net w'.
Proof.
  intros H Hans. unfold promise_all_getItem.
  destruct (begin_all_coherent ids rs w H Hans) as [Hc Hps].
  destruct (begin_all ids w) as [ps w1]. cbn [fst snd] in *.
  destruct (resume_all_coherent ps rs w1 Hc Hps) as [w2 [E Hc2]].
  rewrite E, all_settled_map_Ok. eauto.
Qed.
End Coherence.

(** ** Batches against the upstream *)

Section BatchesAgainstUpstream.
Variable net : Upstream.

Lemma answered_fun id r r' : answered net id r -> answered net id r' -> r = r'.
Proof. unfold answered. congruence. Qed.

Lemma getItem_resume_resolved id p r w w' :
  getItem_resume net id p w = (Ok r, w') ->
  (forall item, p = Hit item -> answered net id (Some item)) ->
  answered net id r.
Proof.
  destruct p as [item|]; cbn [getItem_resume]; intros H Hhit.
  - unfold ret in H. inversion H; subst. now apply Hhit.
  - unfold answered, upstream_item.
    unfold try_catch, bind, this, fetch_settled, rethrow, throw in H.
    destruct (item_json net id) as [status statusText body|msg|]; cbn in H;
      try discriminate.
    destruct (response_ok status); cbn in H; try discriminate.
    destruct body as [[item|]|msg]; cbn in H; inversion H; reflexivity.
Qed.

Lemma begin_all_hits ids : forall w,
  coherent net w ->
  coherent net (snd (begin_all ids w)) /\
  map fst (fst (begin_all ids w)) = ids /\
  Forall (fun ip => forall item, snd ip = Hit item -> answered net (fst ip) (Some item))
         (fst (begin_all ids w)).
Proof.
  induction ids as [|id ids IH]; intros w H; cbn [begin_all].
  - cbn. auto.
  - destruct (getItem_begin_coherent net id w H) as [Hc Hhit].
    destruct (getItem_begin id w) as [p w1]. cbn [fst snd] in *.
    destruct (IH w1 Hc) as (Hc2 & Hids & Hps).
    destruct (begin_all ids w1) as [ps w2]. cbn [fst snd map] in *.
    split; [exact Hc2|]. split; [now rewrite Hids|].
    constructor; [exact Hhit | exact Hps].
Qed.

Lemma resume_all_resolved ps : forall rs w w',
  coherent net w ->
  Forall (fun ip => forall item, snd ip = Hit item -> answered net (fst ip) (Some item)) ps ->
  resume_all net ps w = (map Ok rs, w') ->
  Forall2 (answered net) (map fst ps) rs /\ coherent net w'.
Proof.
  induction ps as [|[id p] ps IH]; intros rs w w' H Hps; cbn [resume_all map].
  - destruct rs; [|discriminate]. intros [= <-]. split; [constructor | exact H].
  - inversion Hps as [|? ? Hhit Hrest]; subst. cbn [fst snd] in Hhit.
    destruct (getItem_resume net id p w) as [r w1] eqn:E1.
    destruct (resume_all net ps w1) as [rs' w2] eqn:E2.
    destruct rs as [|r0 rs]; [discriminate|]. cbn [map]. intros Heq.
    inversion Heq; subst r rs' w2.
    pose proof (getItem_resume_resolved id p r0 w w1 E1 Hhit) as Hans.
    assert (Hc1 : coherent net w1).
    { assert (Hp : forall item, p = Hit item -> r0 = Some item).
      { intros item Hp. eapply answered_fun; [exact Hans | now apply Hhit]. }
      destruct (getItem_resume_coherent net id p r0 w H Hans Hp) as [w1' [E1' Hc1']].
      rewrite E1 in E1'. inversion E1'; subst. exact Hc1'. }
    destruct (IH rs w1 w' Hc1 Hrest E2) as [Hrs Hc2].
    split; [constructor; assumption | exact Hc2].
Qed.

(** With a coherent cache, [Promise.all] resolves only if the upstream
    answers every id, and then with those answers. *)
Lemma promise_all_resolved ids rs w w' :
  coherent net w ->
  promise_all_getItem net ids w = (Ok rs, w') ->
  Forall2 (answered net) ids rs /\ coherent net w'.
Proof.
  intros H. unfold promise_all_getItem.
  destruct (begin_all_hits ids w H) as (Hc1 & Hids & Hps).
  destruct (begin_all ids w) as [ps w1]. cbn [fst snd] in *.
  destruct (resume_all net ps w1) as [rs' w2] eqn:E.
  intros Heq. inversion Heq as [[Hs Hw]]. subst w2.
  apply all_settled_resolved in Hs. subst rs'.
  rewrite <- Hids. now apply (resume_all_resolved ps rs w1 w').
Qed.

Lemma Forall2_answered_In ids rs id :
  Forall2 (answered net) ids rs -> In id ids -> exists r, answered net id r.
Proof.
  induction 1 as [|i r ids rs Hi Hrest IH]; [intros [] | intros [<-|Hin]; eauto].
Qed.

Lemma getMultipleItems_loop_resolved ids : forall rounds i results w out w',
  (0 <= i)%Z ->
  coherent net w ->
  for_batches rounds 10 ids i
    (fun batch results =>
       bind (promise_all_getItem net batch)
            (fun batchResults => ret (results ++ batchResults)%list))
    results w = (Ok out, w') ->
  exists tail,
    out = (results ++ tail)%list /\
    Forall2 (answered net) (skipn (Z.to_nat i) ids) tail /\
    coherent net w'.
Proof.
  induction rounds as [|rounds IH]; intros i results w out w' Hi Hc; cbn [for_batches].
  - discriminate.
  - destruct (i <? Z.of_nat (List.length ids))%Z eqn:E.
    + apply Z.ltb_lt in E. unfold bind at 1. unfold bind at 1.
      destruct (promise_all_getItem net (slice ids i (i + 10)) w)
        as [[rs|t|] w1] eqn:Ep; try discriminate.
      unfold ret at 1.
      destruct (promise_all_resolved _ rs w w1 Hc Ep) as [Hrs Hc1].
      intros H. apply IH in H; [|lia|exact Hc1].
      destruct H as (tail & Hout & Htail & Hc').
      exists (rs ++ tail)%list. split; [now rewrite Hout, app_assoc|].
      split; [|exact Hc'].
      rewrite (skipn_batch ids i 10) by lia. now apply Forall2_app.
    + apply Z.ltb_ge in E. unfold ret. intros [= <- <-].
      exists []. rewrite app_nil_r, skipn_all2 by lia.
      split; [reflexivity|]. split; [constructor | exact Hc].
Qed.

Lemma getMultipleItems_loop_answers ids : forall rounds i results tail w,
  (0 <= i)%Z ->
  (Z.to_nat (Z.of_nat (List.length ids) - i) < rounds)%nat ->
  coherent net w ->
  Forall2 (answered net) (skipn (Z.to_nat i) ids) tail ->
  exists w',
    for_batches rounds 10 ids i
      (fun batch results =>
         bind (promise_all_getItem net batch)
              (fun batchResults => ret (results ++ batchResults)%list))
      results w = (Ok (results ++ tail)%list, w') /\
    coherent net w'.
Proof.
  induction rounds as [|rounds IH]; intros i results tail w Hi Hr Hc Htail; [lia|].
  cbn [for_batches].
  destruct (i <? Z.of_nat (List.length ids))%Z eqn:E.
  - apply Z.ltb_lt in E.
    rewrite (skipn_batch ids i 10) in Htail by lia.
    apply Forall2_app_inv_l in Htail.
    destruct Htail as (rs & tail' & Hrs & Htail' & ->).
    destruct (promise_all_coherent net _ rs w Hc Hrs) as [w1 [E1 Hc1]].
    unfold bind at 1. unfold bind at 1. rewrite E1. unfold ret at 1.
    destruct (IH (i + 10)%Z (results ++ rs)%list tail' w1) as [w2 [E2 Hc2]];
      auto; try lia.
    rewrite E2. exists w2. split; [|exact Hc2]. now rewrite app_assoc.
  - apply Z.ltb_ge in E. rewrite skipn_all2 in Htail by lia.
    inversion Htail; subst. unfold ret. rewrite app_nil_r. eauto.
Qed.

(** With a coherent cache, [getMultipleItems] resolves exactly when the
    upstream answers every id, and then with the upstream's answers, one per
    id and in the order of the ids ([null] where the upstream answers
    [null]). *)
Lemma getMultipleItems_resolved ids rs w w' :
  coherent net w ->
  getMultipleItems net ids w = (Ok rs, w') ->
  Forall2 (answered net) ids rs /\ coherent net w'.
Proof.
  intros Hc H. unfold getMultipleItems in H.
  apply getMultipleItems_loop_resolved in H; [|lia|exact Hc].
  destruct H as (tail & -> & Htail & Hc'). cbn in Htail. auto.
Qed.

Lemma getMultipleItems_answers ids rs w :
  coherent net w ->
  Forall2 (answered net) ids rs ->
  exists w', getMultipleItems net ids w = (Ok rs, w') /\ coherent net w'.
Proof.
  intros Hc Hrs. unfold getMultipleItems.
  destruct (getMultipleItems_loop_answers ids (S (List.length ids)) 0 [] rs w)
    as [w' [E Hc']]; auto; try lia.
  eauto.
Qed.

(** One unanswered id makes the whole call reject. *)
Lemma getMultipleItems_rejects ids id w :
  coherent net w ->
  In id ids ->
  upstream_item net id = None ->
  exists t w', getMultipleItems net ids w = (Throw t, w').
Proof.
  intros Hc Hin Hnone.
  pose proof (getMultipleItems_settles net ids w) as Hs.
  destruct (getMultipleItems net ids w) as [[rs|t|] w'] eqn:E.
  - destruct (getMultipleItems_resolved ids rs w w' Hc E) as [Hrs _].
    destruct (Forall2_answered_In ids rs id Hrs Hin) as [r Hr].
    unfold answered in Hr. congruence.
  - eauto.
  - cbn in Hs. congruence.
Qed.

Lemma promise_all_rejects ids id w :
  coherent net w ->
  In id ids ->
  upstream_item net id = None ->
  exists t w', promise_all_getItem net ids w = (Throw t, w').
Proof.
  intros Hc Hin Hnone.
  pose proof (promise_all_settles net ids w) as Hs.
  destruct (promise_all_getItem net ids w) as [[rs|t|] w'] eqn:E.
  - destruct (promise_all_resolved ids rs w w' Hc E) as [Hrs _].
    destruct (Forall2_answered_In ids rs id Hrs Hin) as [r Hr].
    unfold answered in Hr. congruence.
  - eauto.
  - cbn in Hs. congruence.
Qed.
End BatchesAgainstUpstream.

(** The test "should handle partial failures", run on the model: the
    request for item 456 fails in transit, and the calls reject with the
    error of item 456. *)
Lemma partial_failure_run :
  fst (getMultipleItems Example.hn [100; 456]%Z Example.fresh)
  = Throw (ClientError
             {| message := "Failed to fetch item 456: Network error";
                statusCode := None |}) /\
  fst (getMultipleItems Example.hn [100; 456]%Z Example.fresh)
  <> Ok [Some Example.item100; None] /\
  fst (getUserWithStats Example.hn "testuser" Example.fresh)
  = Throw (ClientError
             {| message := "Failed to fetch item 456: Network error";
                statusCode := None |}).
Proof.
  split; [vm_compute; reflexivity|].
  split; [vm_compute; discriminate | vm_compute; reflexivity].
Qed.

Lemma coherent_fresh net : coherent net Example.fresh.
Proof. intros id e []. Qed.

(** C1: one failing fetch rejects the whole call.  With a coherent item
    cache, if the upstream has no answer for one of the ids (the request
    fails in transit, times out, is answered with a status that is not 2xx,
    or with a body that is not JSON), [getMultipleItems(ids)] throws instead
    of putting [null] at that position; and [getUserWithStats(id)] throws
    when that happens for one of the first ten submissions of the user,
    instead of leaving the item out. *)
Theorem C1_single_failure_rejects_the_batch :
  forall (net : Upstream),
    (forall ids id w,
        coherent net w ->
        In id ids ->
        upstream_item net id = None ->
        exists t w', getMultipleItems net ids w = (Throw t, w')) /\
    (forall uid user subs id w w1,
        getUser net uid w = (Ok (Some user), w1) ->
        coherent net w1 ->
        submitted user = Some subs ->
        In id (slice subs 0 10) ->
        upstream_item net id = None ->
        exists t w', getUserWithStats net uid w = (Throw t, w')).
Proof.
  intros net. split.
  - intros ids id w. apply getMultipleItems_rejects.
  - intros uid user subs id w w1 Huser Hc Hsubs Hin Hnone.
    unfold getUserWithStats. unfold bind at 1. rewrite Huser, Hsubs.
    destruct (promise_all_rejects net (slice subs 0 10) id w1 Hc Hin Hnone)
      as (t & w' & E).
    unfold bind. rewrite E. eauto.
Qed.

(** C1 on the fresh client: ids [100, 456], and the user whose submissions
    are [100, 456]; the request for 456 fails. *)
Lemma C1_single_failure_rejects_the_batch_witness :
  (exists t w', getMultipleItems Example.hn [100; 456]%Z Example.fresh = (Throw t, w')) /\
  (exists t w', getUserWithStats Example.hn "testuser" Example.fresh = (Throw t, w')).
Proof.
  split.
  - apply (proj1 (C1_single_failure_rejects_the_batch Example.hn)
             [100; 456]%Z 456%Z Example.fresh).
    + apply coherent_fresh.
    + right. left. reflexivity.
    + reflexivity.
  - apply (proj2 (C1_single_failure_rejects_the_batch Example.hn)
             "testuser" Example.testuser [100; 456]%Z 456%Z Example.fresh
             (snd (getUser Example.hn "testuser" Example.fresh))).
    + reflexivity.
    + intros id e [].
    + reflexivity.
    + vm_compute. right. left. reflexivity.
    + reflexivity.
Defined.
(** ** The comment walk *)

Section Loops.
Context {A S : Type}.

Lemma for_of_invariant (P : S -> Prop) (body : A -> S -> M S) :
  (forall x s w s' w', P s -> body x s w = (Ok s', w') -> P s') ->
  forall l s w s' w', P s -> for_of l body s w = (Ok s', w') -> P s'.
Proof.
  intros Hbody. induction l as [|x l IH]; intros s w s' w' Hs; cbn [for_of].
  - unfold ret. intros [= <- <-]. exact Hs.
  - unfold bind. destruct (body x s w) as [[s1|t|] w1] eqn:E; try discriminate.
    apply IH. eapply Hbody; eauto.
Qed.

Lemma for_batches_invariant (P : S -> Prop) batchSize arr (body : list Z -> S -> M S) :
  (forall b s w s' w', P s -> body b s w = (Ok s', w') -> P s') ->
  forall fuel i s w s' w',
    P s -> for_batches fuel batchSize arr i body s w = (Ok s', w') -> P s'.
Proof.
  intros Hbody. induction fuel as [|fuel IH]; intros i s w s' w' Hs; cbn [for_batches].
  - discriminate.
  - destruct (i <? Z.of_nat (List.length arr))%Z.
    + unfold bind.
      destruct (body (slice arr i (i + batchSize)) s w) as [[s1|t|] w1] eqn:E;
        try discriminate.
      apply IH. eapply Hbody; eauto.
    + unfold ret. intros [= <- <-]. exact Hs.
Qed.
End Loops.

Section CommentWalk.
Variable net : Upstream.

Lemma visit_keeps_comments recurse :
  (forall ks s w s' w', all_comments s -> recurse ks s w = (Ok s', w') -> all_comments s') ->
  forall c s w s' w',
    all_comments s -> visit recurse c s w = (Ok s', w') -> all_comments s'.
Proof.
  intros Hrec [c|] s w s' w' Hs; cbn [visit].
  - destruct (has_type c comment) eqn:E.
    + assert (Hs1 : all_comments (s ++ [c])).
      { apply Forall_app. split; auto. }
      destruct (kids c) as [ks|].
      * now apply Hrec.
      * unfold ret. now intros [= <- <-].
    + unfold ret. now intros [= <- <-].
  - unfold ret. now intros [= <- <-].
Qed.

(** Only comments are pushed. *)
Lemma loadCommentsRecursively_comments fuel : forall kidIds comments w out w',
  all_comments comments ->
  loadCommentsRecursively net fuel kidIds comments w = (Ok out, w') ->
  all_comments out.
Proof.
  induction fuel as [|fuel IH]; intros kidIds comments w out w' Hc;
    cbn [loadCommentsRecursively]; [discriminate|].
  apply for_batches_invariant with (P := all_comments); auto.
  intros b s w0 s' w0' Hs. unfold bind.
  destruct (promise_all_getItem net b w0) as [[rs|t|] w1]; try discriminate.
  apply for_of_invariant with (P := all_comments); auto.
  apply visit_keeps_comments. intros ks s0 w2 s2 w2'. apply IH.
Qed.

(** One child, alone in its list: the walk is the fetch of the child
    followed by its visit. *)
Lemma loadCommentsRecursively_single fuel id comments w r w1 :
  promise_all_getItem net [id] w = (Ok [r], w1) ->
  loadCommentsRecursively net (S fuel) [id] comments w
  = visit (loadCommentsRecursively net fuel) r comments w1.
Proof.
  intros Hp. cbn [loadCommentsRecursively List.length for_batches].
  change (0 <? Z.of_nat 1)%Z with true. cbv iota.
  change (slice [id] 0 (0 + 5)) with [id].
  unfold bind at 1. unfold bind at 1. rewrite Hp. cbn [for_of].
  unfold bind at 1.
  destruct (visit (loadCommentsRecursively net fuel) r comments w1)
    as [[s|t|] w2]; auto.
Qed.
End CommentWalk.
Section WalkReference.
Variable net : Upstream.
Variable below : list Z -> option (list HackerNewsItem).

Lemma descendant_comments_each_app a b :
  descendant_comments_each net below (a ++ b)
  = match descendant_comments_each net below a,
          descendant_comments_each net below b with
    | Some la, Some lb => Some (la ++ lb)%list
    | _, _ => None
    end.
Proof.
  induction a as [|id a IH]; cbn [app descendant_comments_each].
  - now destruct (descendant_comments_each net below b).
  - fold (descendant_comments_each net below) in *.
    destruct (upstream_item net id) as [[c|]|]; auto.
    destruct (has_type c comment); auto.
    rewrite IH.
    destruct (match kids c with Some ks => below ks | None => Some [] end)
      as [under|]; auto.
    destruct (descendant_comments_each net below a) as [la|]; auto.
    destruct (descendant_comments_each net below b) as [lb|]; auto.
    now rewrite app_comm_cons, app_assoc.
Qed.

(** The reference is defined only where the upstream answers every id. *)
Lemma descendant_comments_each_answered ids l :
  descendant_comments_each net below ids = Some l ->
  exists rs, Forall2 (answered net) ids rs.
Proof.
  revert l. induction ids as [|id ids IH]; intros l; cbn [descendant_comments_each].
  - exists []. constructor.
  - fold (descendant_comments_each net below).
    destruct (upstream_item net id) as [r|] eqn:E; [|discriminate].
    intros Hl.
    assert (Hrest : exists l', descendant_comments_each net below ids = Some l').
    { destruct r as [c|]; [|eauto].
      destruct (has_type c comment); [|eauto].
      destruct (match kids c with Some ks => below ks | None => Some [] end);
        [|discriminate].
      destruct (descendant_comments_each net below ids); [eauto | discriminate]. }
    destruct Hrest as [l' Hl']. destruct (IH l' Hl') as [rs Hrs].
    exists (r :: rs). constructor; auto.
Qed.
End WalkReference.


Section WalkAgainstUpstream.
Variable net : Upstream.

Lemma for_of_visit_agrees fuel :
  walk_agrees net fuel ->
  forall ids rs, Forall2 (answered net) ids rs ->
  forall l comments w,
    descendant_comments_each net (descendant_comments net fuel) ids = Some l ->
    coherent net w ->
    exists w',
      for_of rs (visit (loadCommentsRecursively net fuel)) comments w
      = (Ok (comments ++ l)%list, w') /\
      coherent net w'.
Proof.
  intros IHfuel ids rs Hans.
  induction Hans as [|id r ids rs Hid Hrest IH]; intros l comments w Hl Hc.
  - cbn in Hl. inversion Hl; subst. cbn [for_of]. unfold ret.
    rewrite app_nil_r. eauto.
  - cbn [descendant_comments_each] in Hl.
    fold (descendant_comments_each net (descendant_comments net fuel)) in Hl.
    unfold answered in Hid. rewrite Hid in Hl.
    cbn [for_of]. unfold bind at 1.
    destruct r as [c|]; cbn [visit].
    + destruct (has_type c comment) eqn:Ety.
      * destruct (kids c) as [ks|] eqn:Ek.
        -- destruct (descendant_comments net fuel ks) as [under|] eqn:Eu;
             [|discriminate].
           destruct (descendant_comments_each net (descendant_comments net fuel) ids)
             as [after|] eqn:Ea; [|discriminate].
           inversion Hl; subst l.
           destruct (IHfuel ks under (comments ++ [c])%list w Eu Hc) as [w1 [E1 Hc1]].
           rewrite E1.
           destruct (IH after ((comments ++ [c]) ++ under)%list w1 eq_refl Hc1)
             as [w2 [E2 Hc2]].
           rewrite E2. exists w2. split; [|exact Hc2].
           do 2 f_equal. rewrite <- !app_assoc. reflexivity.
        -- destruct (descendant_comments_each net (descendant_comments net fuel) ids)
             as [after|] eqn:Ea; [|discriminate].
           inversion Hl; subst l. unfold ret.
           destruct (IH after (comments ++ [c])%list w eq_refl Hc) as [w2 [E2 Hc2]].
           rewrite E2. exists w2. split; [|exact Hc2].
           do 2 f_equal. rewrite <- !app_assoc. reflexivity.
      * unfold ret. now apply IH.
    + unfold ret. now apply IH.
Qed.

Lemma for_batches_agrees fuel kidIds :
  walk_agrees net fuel ->
  forall rounds i l comments w,
    (0 <= i)%Z ->
    (Z.to_nat (Z.of_nat (List.length kidIds) - i) < rounds)%nat ->
    descendant_comments_each net (descendant_comments net fuel)
      (skipn (Z.to_nat i) kidIds) = Some l ->
    coherent net w ->
    exists w',
      for_batches rounds 5 kidIds i
        (fun batch comments =>
           bind (promise_all_getItem net batch)
                (fun batchComments =>
                   for_of batchComments (visit (loadCommentsRecursively net fuel))
                          comments))
        comments w
      = (Ok (comments ++ l)%list, w') /\
      coherent net w'.
Proof.
  intros IHfuel. induction rounds as [|rounds IH]; intros i l comments w Hi Hr Hl Hc;
    [lia|].
  cbn [for_batches].
  destruct (i <? Z.of_nat (List.length kidIds))%Z eqn:E.
  - apply Z.ltb_lt in E.
    rewrite (skipn_batch kidIds i 5) in Hl by lia.
    rewrite descendant_comments_each_app in Hl.
    destruct (descendant_comments_each net (descendant_comments net fuel)
                (slice kidIds i (i + 5))) as [la|] eqn:Ea; [|discriminate].
    destruct (descendant_comments_each net (descendant_comments net fuel)
                (skipn (Z.to_nat (i + 5)) kidIds)) as [lb|] eqn:Eb; [|discriminate].
    inversion Hl; subst l.
    destruct (descendant_comments_each_answered net _ _ _ Ea) as [rs Hrs].
    destruct (promise_all_coherent net _ rs w Hc Hrs) as [w1 [E1 Hc1]].
    unfold bind at 1. unfold bind at 1. rewrite E1.
    destruct (for_of_visit_agrees fuel IHfuel _ rs Hrs la comments w1 Ea Hc1)
      as [w2 [E2 Hc2]].
    rewrite E2.
    destruct (IH (i + 5)%Z lb (comments ++ la)%list w2) as [w3 [E3 Hc3]];
      auto; try lia.
    rewrite E3. exists w3. split; [|exact Hc3]. now rewrite <- app_assoc.
  - apply Z.ltb_ge in E.
    rewrite skipn_all2 in Hl by lia. cbn in Hl. inversion Hl; subst l.
    unfold ret. rewrite app_nil_r. eauto.
Qed.

(** With a coherent cache, the walk returns the comments the reference
    lists, appended to the array it was given, and leaves the cache
    coherent. *)
Lemma loadCommentsRecursively_agrees fuel : walk_agrees net fuel.
Proof.
  induction fuel as [|fuel IH]; intros ks l comments w Hl Hc.
  - discriminate.
  - cbn [loadCommentsRecursively]. cbn [descendant_comments] in Hl.
    apply for_batches_agrees; auto; lia.
Qed.

Lemma descendant_comments_each_mono (f g : list Z -> option (list HackerNewsItem)) :
  (forall ks l, f ks = Some l -> g ks = Some l) ->
  forall ids l,
    descendant_comments_each net f ids = Some l ->
    descendant_comments_each net g ids = Some l.
Proof.
  intros Hfg. induction ids as [|id ids IH]; intros l; cbn [descendant_comments_each]; auto.
  fold (descendant_comments_each net f). fold (descendant_comments_each net g).
  destruct (upstream_item net id) as [[c|]|]; auto.
  destruct (has_type c comment); auto.
  destruct (kids c) as [ks|].
  - destruct (f ks) as [under|] eqn:Ef; [|discriminate].
    rewrite (Hfg ks under Ef).
    destruct (descendant_comments_each net f ids) as [after|]; [|discriminate].
    now rewrite (IH after eq_refl).
  - destruct (descendant_comments_each net f ids) as [after|]; [|discriminate].
    now rewrite (IH after eq_refl).
Qed.

(** More depth does not change the reference. *)
Lemma descendant_comments_mono depth : forall depth' ks l,
  (depth <= depth')%nat ->
  descendant_comments net depth ks = Some l ->
  descendant_comments net depth' ks = Some l.
Proof.
  induction depth as [|depth IH]; intros depth' ks l Hle; [discriminate|].
  destruct depth' as [|depth']; [lia|]. cbn [descendant_comments].
  apply descendant_comments_each_mono. intros ks' l'. apply IH. lia.
Qed.
End WalkAgainstUpstream.

(** C3, as stated, fails: item 102 is a fetched child of story 100 and is
    not a comment (a poll); its kid 103 is a comment.  The walk leaves 102
    out, and it does not go below 102 either: no request is made for 103
    and 103 is not in the result. *)
Lemma C3_children_of_non_comment_counterexample :
  has_type Example.item102 comment = false /\
  kids Example.item102 = Some [103]%Z /\
  has_type Example.item103 comment = true /\
  fst (getCommentTree Example.hn 10 100 Example.fresh) = Ok [Example.item101] /\
  In (item_url (client Example.fresh) 102)
     (requests (snd (getCommentTree Example.hn 10 100 Example.fresh))) /\
  ~ In (item_url (client Example.fresh) 103)
       (requests (snd (getCommentTree Example.hn 10 100 Example.fresh))).
Proof.
  repeat split; try reflexivity.
  - vm_compute. tauto.
  - vm_compute. intros [H|[H|[H|[]]]]; discriminate.
Qed.

(** C3 (amended): [getCommentTree] returns only items of type "comment".  A
    fetched child that is [null] or whose type is not "comment" is left out
    and the walk does not go below it: its visit changes nothing and sends
    nothing, and the reference list skips it whatever kids it has.  With a
    coherent item cache and a root whose kids, and the kids of the comments
    below them, the upstream answers, [getCommentTree] returns exactly the
    reference list: the comments reachable from the root's kids through
    comments only, in preorder; any fuel that covers the nesting depth
    gives that result. *)
Theorem C3_non_comments_are_pruned :
  forall (net : Upstream),
    (forall fuel itemId w out w',
        getCommentTree net fuel itemId w = (Ok out, w') ->
        Forall (fun c => has_type c comment = true) out) /\
    (forall recurse c comments,
        (forall item, c = Some item -> has_type item comment = false) ->
        visit recurse c comments = ret comments) /\
    (forall below id rest r,
        upstream_item net id = Some r ->
        (forall item, r = Some item -> has_type item comment = false) ->
        descendant_comments_each net below (id :: rest)
        = descendant_comments_each net below rest) /\
    (forall depth fuel root item ks l w,
        coherent net w ->
        upstream_item net root = Some (Some item) ->
        kids item = Some ks ->
        descendant_comments net depth ks = Some l ->
        (depth <= fuel)%nat ->
        exists w',
          getCommentTree net fuel root w = (Ok l, w') /\ coherent net w').
Proof.
  intros net. split; [|split; [|split]].
  - intros fuel itemId w out w'. unfold getCommentTree, bind.
    destruct (getItem net itemId w) as [[[item|]|t|] w1]; try discriminate.
    + destruct (kids item) as [ks|].
      * apply loadCommentsRecursively_comments. constructor.
      * unfold ret. intros [= <- <-]. constructor.
    + unfold ret. intros [= <- <-]. constructor.
  - intros recurse [c|] comments H; cbn [visit]; auto.
    now rewrite (H c eq_refl).
  - intros below id rest r Hup Hr. cbn [descendant_comments_each]. rewrite Hup.
    destruct r as [c|]; auto. now rewrite (Hr c eq_refl).
  - intros depth fuel root item ks l w Hc Hroot Hkids Hl Hle.
    destruct (getItem_coherent net root (Some item) w Hc Hroot) as [w1 [E1 Hc1]].
    unfold getCommentTree, bind. rewrite E1, Hkids.
    apply (descendant_comments_mono net depth fuel ks l Hle) in Hl.
    destruct (loadCommentsRecursively_agrees net fuel ks l [] w1 Hl Hc1)
      as [w2 [E2 Hc2]].
    rewrite E2. eauto.
Qed.

(** C3 (amended) on the example: below story 100 the reference lists
    comment 101 only (102 is a poll, and 103 is below it), and the walk
    returns that list. *)
Lemma C3_non_comments_are_pruned_witness :
  exists w',
    getCommentTree Example.hn 10 100 Example.fresh = (Ok [Example.item101], w') /\
    coherent Example.hn w'.
Proof.
  apply (proj2 (proj2 (proj2 (C3_non_comments_are_pruned Example.hn)))
           1%nat 10%nat 100%Z Example.item100 [101; 102]%Z [Example.item101]
           Example.fresh).
  - intros id e [].
  - reflexivity.
  - reflexivity.
  - reflexivity.
  - lia.
Defined.
(** ** Search *)



Section Frames.
Variable net : Upstream.

Lemma logs_only_same P w w' :
  baseUrl (client w') = baseUrl (client w) -> requests w' = requests w ->
  logs_only P w w'.
Proof. intros Hb Hr. split; auto. exists []. now rewrite app_nil_r. Qed.

Lemma logs_only_refl P w : logs_only P w w.
Proof. now apply logs_only_same. Qed.

Lemma logs_only_trans P w1 w2 w3 :
  logs_only P w1 w2 -> logs_only P w2 w3 -> logs_only P w1 w3.
Proof.
  intros [Hb1 [a1 [Hr1 Hp1]]] [Hb2 [a2 [Hr2 Hp2]]]. split; [congruence|].
  exists (a1 ++ a2)%list. rewrite Hr2, Hr1, app_assoc. split; auto.
  apply Forall_app. auto.
Qed.



Lemma getItem_resume_logs id p w :
  logs_only (fun _ => False) w (snd (getItem_resume net id p w)).
Proof.
  destruct p as [item|]; cbn; [apply logs_only_refl|].
  unfold_fetch.
  destruct (item_json net id) as [status statusText body|msg|]; cbn;
    try (now apply logs_only_same).
  destruct (response_ok status); cbn; try (now apply logs_only_same).
  destruct body as [[item|]|msg]; cbn; now apply logs_only_same.
Qed.


Lemma resume_all_logs ps : forall w,
  logs_only (fun _ => False) w (snd (resume_all net ps w)).
Proof.
  induction ps as [|[id p] ps IH]; intros w; cbn [resume_all].
  - apply logs_only_refl.
  - pose proof (getItem_resume_logs id p w) as H1.
    destruct (getItem_resume net id p w) as [r w1]. cbn [snd] in H1.
    specialize (IH w1). destruct (resume_all net ps w1) as [rs w2]. cbn [snd] in *.
    eapply logs_only_trans; eauto.
Qed.


End Frames.

Section SearchFacts.
Variable net : Upstream.
Variable toLowerCase : string -> string.

Lemma truthy_string_true s : s <> "" -> truthy_string s = true.
Proof.
  intros H. unfold truthy_string. apply negb_true_iff, String.eqb_neq. exact H.
Qed.

Lemma truthy_number_true n : n <> 0%Z -> truthy_number n = true.
Proof.
  intros H. unfold truthy_number. apply negb_true_iff, Z.eqb_neq. exact H.
Qed.




End SearchFacts.



(** ** Further properties of [SimpleCache] *)

Section MapLookups.
Context {V : Type}.

Lemma get_wf_In (m : JsMap.t V) k v :
  JsMap.wf m -> In (k, v) m -> JsMap.get m k = Some v.
Proof.
  unfold JsMap.wf. induction m as [|[k' v'] m IH]; cbn; intros Hwf Hin; [easy|].
  inversion Hwf as [|? ? Hnot Hwf']; subst.
  destruct Hin as [[= -> ->]|Hin].
  - now rewrite String.eqb_refl.
  - destruct (String.eqb k' k) eqn:E; auto.
    apply String.eqb_eq in E. subst k'. exfalso. apply Hnot.
    change k with (fst (k, v)). now apply in_map.
Qed.

Lemma get_filter_wf (f : string * V -> bool) (m : JsMap.t V) k :
  JsMap.wf m ->
  JsMap.get (filter f m) k
  = match JsMap.get m k with
    | Some v => if f (k, v) then Some v else None
    | None => None
    end.
Proof.
  unfold JsMap.wf. induction m as [|[k' v'] m IH]; cbn; intros Hwf; auto.
  inversion Hwf as [|? ? Hnot Hwf']; subst.
  destruct (String.eqb k' k) eqn:E.
  - apply String.eqb_eq in E. subst k'.
    destruct (f (k, v')); cbn.
    + now rewrite String.eqb_refl.
    + apply get_None_keys. intros Hin. apply Hnot.
      eapply keys_filter_incl. exact Hin.
  - destruct (f (k', v')); cbn; [rewrite E|]; auto.
Qed.

Lemma set_absent_appends (m : JsMap.t V) k v :
  JsMap.get m k = None -> JsMap.set m k v = (m ++ [(k, v)])%list.
Proof.
  induction m as [|[k' v'] m IH]; cbn; auto.
  destruct (String.eqb k' k); [discriminate|].
  intros H. now rewrite IH.
Qed.

Lemma In_set_other (m : JsMap.t V) k v k' v' :
  k' <> k -> In (k', v') m -> In (k', v') (JsMap.set m k v).
Proof.
  intros Hne. induction m as [|[k0 v0] m IH]; cbn; [easy|].
  destruct (String.eqb k0 k) eqn:E.
  - apply String.eqb_eq in E. subst k0.
    intros [[= <- <-]|Hin]; [congruence|now right].
  - intros [H|Hin]; [now left|right; auto].
Qed.

Lemma filter_length_lt (f : string * V -> bool) (m : JsMap.t V) x :
  In x m -> f x = false -> (List.length (filter f m) < List.length m)%nat.
Proof.
  induction m as [|y m IH]; cbn; [easy|].
  intros [->|Hin] Hf.
  - rewrite Hf. pose proof (filter_length_le f m). lia.
  - specialize (IH Hin Hf). destruct (f y); cbn; lia.
Qed.
End MapLookups.

Section CacheRuns.
Context {T : Type}.

Lemma step_params (op : CacheOp T) c :
  Cache.ttlMs (cache_step op c) = Cache.ttlMs c /\
  Cache.maxSize (cache_step op c) = Cache.maxSize c.
Proof.
  destruct op as [t key v|t key|t key|key| |t]; cbn.
  - apply set_params.
  - apply get_params.
  - unfold Cache.has. pose proof (get_params t key c) as H.
    destruct (Cache.get t key c) as [[x|] c']; exact H.
  - auto.
  - auto.
  - auto.
Qed.

Lemma run_params (ops : list (CacheOp T)) : forall c,
  Cache.ttlMs (cache_run ops c) = Cache.ttlMs c /\
  Cache.maxSize (cache_run ops c) = Cache.maxSize c.
Proof.
  induction ops as [|op ops IH]; intros c; cbn; auto.
  destruct (IH (cache_step op c)) as [H1 H2].
  destruct (step_params op c) as [H3 H4].
  unfold cache_run in *. cbn. split; congruence.
Qed.

(** The keys of the map stay pairwise distinct under every method, as
    those of a [Map] are: the premise [JsMap.wf] of the statements below
    holds of every cache the methods build. *)
Lemma wf_cache_set t key v (c : Cache.SimpleCache T) :
  JsMap.wf (Cache.cache c) -> JsMap.wf (Cache.cache (Cache.set t key v c)).
Proof.
  intros Hwf. unfold Cache.set.
  destruct ((Cache.maxSize c =? 0)%Z || (Cache.ttlMs c =? 0)%Z); auto.
  set (c1 := if (JsMap.size (Cache.cache c) >=? Cache.maxSize c)%Z
             then Cache.cleanup t c else c).
  assert (H1 : JsMap.wf (Cache.cache c1)).
  { unfold c1. destruct (JsMap.size (Cache.cache c) >=? Cache.maxSize c)%Z; auto.
    cbn. now apply wf_filter. }
  set (c2 := if (JsMap.size (Cache.cache c1) >=? Cache.maxSize c1)%Z
             then Cache.evict_oldest c1 else c1).
  assert (H2 : JsMap.wf (Cache.cache c2)).
  { unfold c2. destruct (JsMap.size (Cache.cache c1) >=? Cache.maxSize c1)%Z; auto.
    unfold Cache.evict_oldest.
    destruct (JsMap.first_key (Cache.cache c1)) as [fk|]; auto.
    destruct (truthy_string fk); auto. cbn. now apply wf_delete. }
  cbn. now apply wf_set.
Qed.

Lemma wf_cache_get t key (c : Cache.SimpleCache T) :
  JsMap.wf (Cache.cache c) -> JsMap.wf (Cache.cache (snd (Cache.get t key c))).
Proof.
  intros Hwf. unfold Cache.get.
  destruct (JsMap.get (Cache.cache c) key) as [e|]; auto.
  destruct (Cache.expired t e); cbn; auto. now apply wf_delete.
Qed.

Lemma wf_step (op : CacheOp T) c :
  JsMap.wf (Cache.cache c) -> JsMap.wf (Cache.cache (cache_step op c)).
Proof.
  intros Hwf. destruct op as [t key v|t key|t key|key| |t]; cbn.
  - now apply wf_cache_set.
  - now apply wf_cache_get.
  - unfold Cache.has. pose proof (wf_cache_get t key c Hwf) as H.
    destruct (Cache.get t key c) as [[x|] c']; exact H.
  - now apply wf_delete.
  - constructor.
  - now apply wf_filter.
Qed.

Lemma wf_run (ops : list (CacheOp T)) : forall c,
  JsMap.wf (Cache.cache c) -> JsMap.wf (Cache.cache (cache_run ops c)).
Proof.
  induction ops as [|op ops IH]; intros c Hwf; cbn; auto.
  apply (IH (cache_step op c)). now apply wf_step.
Qed.

Lemma has_live t k (c : Cache.SimpleCache T) :
  fst (Cache.has t k c)
  = match JsMap.get (Cache.cache c) k with
    | Some e => negb (Cache.expired t e)
    | None => false
    end.
Proof.
  unfold Cache.has, Cache.get.
  destruct (JsMap.get (Cache.cache c) k) as [e|]; auto.
  destruct (Cache.expired t e); auto.
Qed.

Lemma lookup_get t k (c : Cache.SimpleCache T) :
  Cache.lookup t k c
  = match JsMap.get (Cache.cache c) k with
    | Some e => if Cache.expired t e then None else Some (Cache.value e)
    | None => None
    end.
Proof.
  unfold Cache.lookup, Cache.get.
  destruct (JsMap.get (Cache.cache c) k) as [e|]; auto.
  destruct (Cache.expired t e); auto.
Qed.

Lemma expired_mono t t' (e : Cache.CacheEntry T) :
  t <= t' -> Cache.expired t e = true -> Cache.expired t' e = true.
Proof. unfold Cache.expired. lia. Qed.
End CacheRuns.

(** X1. Capacity: a cache built with a non-negative [maxSize] never holds
    more than [maxSize] entries, whatever sequence of [set], [get], [has],
    [delete], [clear] and [size] calls is made on it at whatever times, as
    long as no call writes the empty-string key. *)
Theorem X1_capacity_invariant :
  forall (T : Type) (ttlSeconds maxSize : Z) (ops : list (CacheOp T)),
    0 <= maxSize ->
    Forall (fun k => k <> EmptyString) (written_keys ops) ->
    JsMap.size (Cache.cache (cache_run ops (Cache.new ttlSeconds maxSize))) <= maxSize.
Proof.
  intros T ttlSeconds maxSize ops Hmax Hkeys.
  assert (Hcap : within_capacity (cache_run ops (Cache.new (T:=T) ttlSeconds maxSize))).
  { apply run_within_capacity.
    - eapply Forall_impl; [|exact Hkeys]. intros k. apply truthy_string_true.
    - now apply new_within_capacity. }
  destruct Hcap as (_ & _ & Hsize).
  destruct (run_params ops (Cache.new (T:=T) ttlSeconds maxSize)) as [_ Hm].
  rewrite Hm in Hsize. exact Hsize.
Qed.

(** X1 on a cache of capacity 2 that is written three times. *)
Lemma X1_capacity_invariant_witness :
  JsMap.size (Cache.cache
    (cache_run [OpSet 0 "a" 1; OpSet 1 "b" 2; OpGet 2 "a"; OpSet 3 "c" 3]
       (Cache.new 60 2))) <= 2.
Proof.
  apply (X1_capacity_invariant Z 60 2
           [OpSet 0 "a" 1; OpSet 1 "b" 2; OpGet 2 "a"; OpSet 3 "c" 3]).
  - lia.
  - repeat constructor; discriminate.
Defined.

(** X2. A cache built with [maxSize = 0] or with a TTL of 0 seconds stores
    nothing: after any sequence of calls its map is empty, so every [get]
    returns absent. *)
Theorem X2_disabled_cache_stores_nothing :
  forall (T : Type) (ttlSeconds maxSize : Z) (ops : list (CacheOp T)),
    maxSize = 0 \/ ttlSeconds = 0 ->
    let c := cache_run ops (Cache.new ttlSeconds maxSize) in
    Cache.cache c = [] /\
    forall t k, Cache.get t k c = (None, c).
Proof.
  intros T ttlSeconds maxSize ops Hoff c.
  assert (Hinv : forall ops (c0 : Cache.SimpleCache T),
             (Cache.maxSize c0 = 0 \/ Cache.ttlMs c0 = 0) ->
             Cache.cache c0 = [] -> Cache.cache (cache_run ops c0) = []).
  { clear. induction ops as [|op ops IH]; intros c0 Hoff Hempty; cbn; auto.
    apply (IH (cache_step op c0)).
    - destruct (step_params op c0) as [H1 H2]. rewrite H1, H2. exact Hoff.
    - destruct op as [t key v|t key|t key|key| |t]; cbn.
      + now rewrite (set_disabled t key v c0 Hoff).
      + unfold Cache.get. now rewrite Hempty.
      + unfold Cache.has, Cache.get. now rewrite Hempty.
      + now rewrite Hempty.
      + reflexivity.
      + now rewrite Hempty. }
  assert (Hc : Cache.cache c = []).
  { apply Hinv; [|reflexivity]. cbn. destruct Hoff as [->| ->]; auto. }
  split; [exact Hc|].
  intros t k. apply lookup_absent. now rewrite Hc.
Qed.

(** X2 on a cache of capacity 0. *)
Lemma X2_disabled_cache_stores_nothing_witness :
  Cache.cache (cache_run [OpSet 0 "key1" "value1"] (Cache.new 60 0)) = [] /\
  forall t k,
    Cache.get t k (cache_run [OpSet 0 "key1" "value1"] (Cache.new 60 0))
    = (None, cache_run [OpSet 0 "key1" "value1"] (Cache.new 60 0)).
Proof.
  apply (X2_disabled_cache_stores_nothing string 60 0 [OpSet 0 "key1" "value1"]).
  left. reflexivity.
Defined.

(** X3. Eviction is first-in first-out: when the cache is full, no entry
    has expired and the oldest key is not the empty string, [set] of a key
    that is not stored drops exactly the oldest entry, keeps the others in
    their order and appends the new entry. *)
Theorem X3_full_cache_evicts_oldest :
  forall (T : Type) (c : Cache.SimpleCache T) (t : Z) (key : string) (v : T)
         (k0 : string) (e0 : Cache.CacheEntry T) (rest : JsMap.t (Cache.CacheEntry T)),
    Cache.cache c = (k0, e0) :: rest ->
    k0 <> EmptyString ->
    Cache.ttlMs c <> 0 ->
    JsMap.size (Cache.cache c) = Cache.maxSize c ->
    (forall k e, In (k, e) (Cache.cache c) -> Cache.expired t e = false) ->
    JsMap.get (Cache.cache c) key = None ->
    Cache.cache (Cache.set t key v c)
    = (rest ++ [(key, {| Cache.value := v; Cache.expiresAt := t + Cache.ttlMs c |})])%list.
Proof.
  intros T c t key v k0 e0 rest Hc Hk0 Httl Hfull Hlive Habsent.
  assert (Hmax : Cache.maxSize c <> 0).
  { rewrite <- Hfull, Hc. unfold JsMap.size. cbn [List.length]. lia. }
  assert (Hge : (JsMap.size (Cache.cache c) >=? Cache.maxSize c)%Z = true).
  { rewrite Hfull. rewrite Z.geb_leb. apply Z.leb_refl. }
  unfold Cache.set.
  apply Z.eqb_neq in Hmax. apply Z.eqb_neq in Httl. rewrite Hmax, Httl. cbn [orb].
  rewrite Hge. rewrite (cleanup_none_expired t c Hlive).
  cbn [Cache.with_cache Cache.cache Cache.maxSize Cache.ttlMs]. rewrite Hge.
  unfold Cache.evict_oldest. cbn [Cache.with_cache Cache.cache].
  rewrite Hc. cbn [JsMap.first_key].
  rewrite (truthy_string_true k0 Hk0).
  cbn [Cache.with_cache Cache.cache Cache.maxSize Cache.ttlMs JsMap.delete].
  rewrite String.eqb_refl.
  apply set_absent_appends.
  rewrite Hc in Habsent. cbn in Habsent.
  destruct (String.eqb k0 key); [discriminate|exact Habsent].
Qed.

(** X3 on a cache of capacity 2: the third key evicts the first. *)
Lemma X3_full_cache_evicts_oldest_witness :
  Cache.cache (Cache.set 2 "key3" "value3"
     (cache_run [OpSet 0 "key1" "value1"; OpSet 1 "key2" "value2"] (Cache.new 60 2)))
  = ([("key2", {| Cache.value := "value2"; Cache.expiresAt := 60001 |})]
     ++ [("key3", {| Cache.value := "value3"; Cache.expiresAt := 2 + 60000 |})])%list.
Proof.
  apply (X3_full_cache_evicts_oldest string
           (cache_run [OpSet 0 "key1" "value1"; OpSet 1 "key2" "value2"] (Cache.new 60 2))
           2 "key3" "value3" "key1"
           {| Cache.value := "value1"; Cache.expiresAt := 60000 |}).
  - reflexivity.
  - discriminate.
  - discriminate.
  - reflexivity.
  - intros k e [[= <- <-]|[[= <- <-]|[]]]; reflexivity.
  - reflexivity.
Defined.

(** X4. Overwriting at capacity evicts too: when the cache is full and no
    entry has expired, [set] of a key that is already stored (and is not the
    oldest) still deletes the oldest entry before it updates the key, so the
    cache ends one entry below [maxSize]. *)
Theorem X4_overwrite_at_capacity_evicts :
  forall (T : Type) (c : Cache.SimpleCache T) (t : Z) (key : string) (v : T)
         (k0 : string) (e0 : Cache.CacheEntry T) (rest : JsMap.t (Cache.CacheEntry T)),
    Cache.cache c = (k0, e0) :: rest ->
    JsMap.wf (Cache.cache c) ->
    k0 <> EmptyString ->
    Cache.ttlMs c <> 0 ->
    JsMap.size (Cache.cache c) = Cache.maxSize c ->
    (forall k e, In (k, e) (Cache.cache c) -> Cache.expired t e = false) ->
    JsMap.get (Cache.cache c) key <> None ->
    key <> k0 ->
    JsMap.get (Cache.cache (Cache.set t key v c)) k0 = None /\
    JsMap.get (Cache.cache (Cache.set t key v c)) key
    = Some {| Cache.value := v; Cache.expiresAt := t + Cache.ttlMs c |} /\
    JsMap.size (Cache.cache (Cache.set t key v c)) = Cache.maxSize c - 1.
Proof.
  intros T c t key v k0 e0 rest Hc Hwf Hk0 Httl Hfull Hlive Hpresent Hne.
  destruct (overwrite_at_capacity c t key v k0 e0 rest Hc
              (truthy_string_true k0 Hk0) Httl Hfull Hlive Hpresent) as [Heq Hrest].
  destruct (Hrest Hne Hwf) as [Hgone Hsize].
  split; [exact Hgone|]. split; [|exact Hsize].
  rewrite Heq. apply get_set_same.
Qed.

(** X4 on a cache of capacity 2: rewriting the second key loses the first. *)
Lemma X4_overwrite_at_capacity_evicts_witness :
  let c := cache_run [OpSet 0 "key1" "value1"; OpSet 1 "key2" "value2"] (Cache.new 60 2) in
  JsMap.get (Cache.cache (Cache.set 2 "key2" "again" c)) "key1" = None /\
  JsMap.get (Cache.cache (Cache.set 2 "key2" "again" c)) "key2"
  = Some {| Cache.value := "again"; Cache.expiresAt := 2 + Cache.ttlMs c |} /\
  JsMap.size (Cache.cache (Cache.set 2 "key2" "again" c)) = Cache.maxSize c - 1.
Proof.
  apply (X4_overwrite_at_capacity_evicts string
           (cache_run [OpSet 0 "key1" "value1"; OpSet 1 "key2" "value2"] (Cache.new 60 2))
           2 "key2" "again" "key1"
           {| Cache.value := "value1"; Cache.expiresAt := 60000 |}
           [("key2", {| Cache.value := "value2"; Cache.expiresAt := 60001 |})]).
  - reflexivity.
  - repeat constructor; cbn; intuition discriminate.
  - discriminate.
  - discriminate.
  - reflexivity.
  - intros k e [[= <- <-]|[[= <- <-]|[]]]; reflexivity.
  - discriminate.
  - discriminate.
Defined.

(** X5. Expired entries are purged before anything is evicted: when a
    cache that is within its capacity holds an expired entry, [set] evicts
    no live entry; every entry that has not expired is still stored
    afterwards (the one under the written key apart). *)
Theorem X5_purge_before_eviction :
  forall (T : Type) (c : Cache.SimpleCache T) (t : Z) (key : string) (v : T)
         (kx : string) (ex : Cache.CacheEntry T),
    JsMap.size (Cache.cache c) <= Cache.maxSize c ->
    In (kx, ex) (Cache.cache c) ->
    Cache.expired t ex = true ->
    forall k e,
      In (k, e) (Cache.cache c) ->
      Cache.expired t e = false ->
      k <> key ->
      In (k, e) (Cache.cache (Cache.set t key v c)).
Proof.
  intros T c t key v kx ex Hsize Hx Hexp k e Hin Hlive Hne.
  unfold Cache.set.
  destruct ((Cache.maxSize c =? 0)%Z || (Cache.ttlMs c =? 0)%Z); auto.
  destruct (JsMap.size (Cache.cache c) >=? Cache.maxSize c)%Z eqn:Hfull.
  - assert (Hlt : (JsMap.size (Cache.cache (Cache.cleanup t c))
                   >=? Cache.maxSize (Cache.cleanup t c))%Z = false).
    { rewrite maxSize_cleanup. unfold JsMap.size in *. cbn.
      pose proof (filter_length_lt
                    (fun kv => negb (Cache.expired t (snd kv))) (Cache.cache c)
                    (kx, ex) Hx) as Hl.
      cbn in Hl. rewrite Hexp in Hl. specialize (Hl eq_refl).
      rewrite Z.geb_leb. apply Z.leb_gt. lia. }
    rewrite Hlt. cbn [Cache.with_cache Cache.cache].
    apply In_set_other; auto.
    cbn. apply filter_In. split; auto. cbn. now rewrite Hlive.
  - rewrite Hfull. cbn [Cache.with_cache Cache.cache].
    now apply In_set_other.
Qed.

(** X5 on a cache of capacity 2 and a TTL of 1 s, whose first entry has
    expired when the third key is written: the second entry stays. *)
Lemma X5_purge_before_eviction_witness :
  In ("key2", {| Cache.value := "value2"; Cache.expiresAt := 1900 |})
     (Cache.cache (Cache.set 1500 "key3" "value3"
        (cache_run [OpSet 0 "key1" "value1"; OpSet 900 "key2" "value2"]
           (Cache.new 1 2)))).
Proof.
  apply (X5_purge_before_eviction string
           (cache_run [OpSet 0 "key1" "value1"; OpSet 900 "key2" "value2"] (Cache.new 1 2))
           1500 "key3" "value3" "key1"
           {| Cache.value := "value1"; Cache.expiresAt := 1000 |}).
  - vm_compute. discriminate.
  - left. reflexivity.
  - reflexivity.
  - right. left. reflexivity.
  - reflexivity.
  - discriminate.
Defined.

(** X6. [set] never changes what another key reads: after [set(key, v)],
    a [get] of a different key returns what it returned before the [set] or
    absent (the entry was purged or evicted), never another value; and
    when the cache was below its capacity it returns exactly what it
    returned before. *)
Theorem X6_set_keeps_other_values :
  forall (T : Type) (c : Cache.SimpleCache T) (t t' : Z) (key k' : string) (v : T),
    JsMap.wf (Cache.cache c) ->
    k' <> key ->
    (Cache.lookup t' k' (Cache.set t key v c) = Cache.lookup t' k' c \/
     Cache.lookup t' k' (Cache.set t key v c) = None) /\
    (JsMap.size (Cache.cache c) < Cache.maxSize c ->
     Cache.lookup t' k' (Cache.set t key v c) = Cache.lookup t' k' c).
Proof.
  intros T c t t' key k' v Hwf Hne.
  assert (Hne' : key <> k') by congruence.
  split.
  - rewrite !lookup_get. unfold Cache.set.
    destruct ((Cache.maxSize c =? 0)%Z || (Cache.ttlMs c =? 0)%Z); auto.
    set (c1 := if (JsMap.size (Cache.cache c) >=? Cache.maxSize c)%Z
               then Cache.cleanup t c else c).
    assert (H1 : JsMap.wf (Cache.cache c1) /\
                 (JsMap.get (Cache.cache c1) k' = JsMap.get (Cache.cache c) k' \/
                  JsMap.get (Cache.cache c1) k' = None)).
    { unfold c1. destruct (JsMap.size (Cache.cache c) >=? Cache.maxSize c)%Z; auto.
      cbn. split; [now apply wf_filter|].
      rewrite get_filter_wf by exact Hwf.
      destruct (JsMap.get (Cache.cache c) k') as [e|]; auto.
      destruct (negb (Cache.expired t (snd (k', e)))); auto. }
    destruct H1 as [Hwf1 H1].
    set (c2 := if (JsMap.size (Cache.cache c1) >=? Cache.maxSize c1)%Z
               then Cache.evict_oldest c1 else c1).
    assert (H2 : JsMap.get (Cache.cache c2) k' = JsMap.get (Cache.cache c1) k' \/
                 JsMap.get (Cache.cache c2) k' = None).
    { unfold c2. destruct (JsMap.size (Cache.cache c1) >=? Cache.maxSize c1)%Z; auto.
      unfold Cache.evict_oldest.
      destruct (JsMap.first_key (Cache.cache c1)) as [fk|]; auto.
      destruct (truthy_string fk); auto. cbn.
      destruct (String.eqb fk k') eqn:E.
      - apply String.eqb_eq in E. subst fk. right. now apply get_delete_same.
      - apply String.eqb_neq in E. left. now apply get_delete_other. }
    cbn [Cache.with_cache Cache.cache].
    rewrite (get_set_other _ key k' _ Hne').
    destruct H2 as [H2|H2]; rewrite H2; auto.
    destruct H1 as [H1|H1]; rewrite H1; auto.
  - intros Hlt. rewrite !lookup_get. unfold Cache.set.
    destruct ((Cache.maxSize c =? 0)%Z || (Cache.ttlMs c =? 0)%Z); auto.
    assert (Hge : (JsMap.size (Cache.cache c) >=? Cache.maxSize c)%Z = false).
    { rewrite Z.geb_leb. apply Z.leb_gt. lia. }
    rewrite Hge. rewrite Hge. cbn [Cache.with_cache Cache.cache].
    now rewrite (get_set_other _ key k' _ Hne').
Qed.

(** X6 on a cache that holds one entry of two: writing a second key leaves
    the first readable. *)
Lemma X6_set_keeps_other_values_witness :
  let c := Cache.set 0 "key1" "value1" (Cache.new 60 2) in
  (Cache.lookup 5 "key1" (Cache.set 1 "key2" "value2" c) = Cache.lookup 5 "key1" c \/
   Cache.lookup 5 "key1" (Cache.set 1 "key2" "value2" c) = None) /\
  (JsMap.size (Cache.cache c) < Cache.maxSize c ->
   Cache.lookup 5 "key1" (Cache.set 1 "key2" "value2" c) = Cache.lookup 5 "key1" c).
Proof.
  apply (X6_set_keeps_other_values string
           (Cache.set 0 "key1" "value1" (Cache.new 60 2)) 1 5 "key2" "key1" "value2").
  - repeat constructor; cbn; intuition discriminate.
  - discriminate.
Defined.

(** X7. [delete(key)] removes the key and nothing else: afterwards [get]
    of the key is absent at every time and every other key reads as
    before.  Its result tells whether an entry was stored, expired or not:
    for an entry that has expired [has] answers false where [delete]
    answers true. *)
Theorem X7_delete_removes_one_key :
  forall (T : Type) (c : Cache.SimpleCache T) (key : string),
    JsMap.wf (Cache.cache c) ->
    let c' := snd (Cache.delete key c) in
    (forall t, Cache.get t key c' = (None, c')) /\
    (forall t k', k' <> key -> Cache.lookup t k' c' = Cache.lookup t k' c) /\
    (fst (Cache.delete key c) = true <-> JsMap.get (Cache.cache c) key <> None) /\
    (forall t e, JsMap.get (Cache.cache c) key = Some e ->
                 Cache.expired t e = true ->
                 fst (Cache.has t key c) = false /\ fst (Cache.delete key c) = true).
Proof.
  intros T c key Hwf c'. repeat split.
  - intros t. apply lookup_absent. cbn. now apply get_delete_same.
  - intros t k' Hne. rewrite !lookup_get. cbn.
    rewrite get_delete_other; auto.
  - cbn. unfold JsMap.has.
    destruct (JsMap.get (Cache.cache c) key); [discriminate|discriminate].
  - cbn. unfold JsMap.has.
    destruct (JsMap.get (Cache.cache c) key); [reflexivity|congruence].
  - rewrite has_live, H. now rewrite H0.
  - cbn. unfold JsMap.has. now rewrite H.
Qed.

(** X7 on a cache with two keys. *)
Lemma X7_delete_removes_one_key_witness :
  let c := cache_run [OpSet 0 "key1" "value1"; OpSet 0 "key2" "value2"] (Cache.new 60 5) in
  let c' := snd (Cache.delete "key1" c) in
  (forall t, Cache.get t "key1" c' = (None, c')) /\
  (forall t k', k' <> "key1" -> Cache.lookup t k' c' = Cache.lookup t k' c) /\
  (fst (Cache.delete "key1" c) = true <-> JsMap.get (Cache.cache c) "key1" <> None) /\
  (forall t e, JsMap.get (Cache.cache c) "key1" = Some e ->
               Cache.expired t e = true ->
               fst (Cache.has t "key1" c) = false /\ fst (Cache.delete "key1" c) = true).
Proof.
  apply (X7_delete_removes_one_key string
           (cache_run [OpSet 0 "key1" "value1"; OpSet 0 "key2" "value2"] (Cache.new 60 5))
           "key1").
  repeat constructor; cbn; intuition discriminate.
Defined.

(** X8. [size()] agrees with [has]: the number it returns is the number of
    stored keys for which [has] answers true at that time; expired entries
    are not counted. *)
Theorem X8_size_counts_live_keys :
  forall (T : Type) (c : Cache.SimpleCache T) (t : Z),
    JsMap.wf (Cache.cache c) ->
    fst (Cache.size t c)
    = Z.of_nat (List.length
        (filter (fun k => fst (Cache.has t k c)) (JsMap.keys (Cache.cache c)))).
Proof.
  intros T c t Hwf. cbn. unfold JsMap.size, JsMap.keys. f_equal.
  rewrite <- (length_map fst (filter _ (Cache.cache c))).
  f_equal.
  assert (Hgen : forall l : JsMap.t (Cache.CacheEntry T),
             (forall kv, In kv l -> In kv (Cache.cache c)) ->
             map fst (filter (fun kv => negb (Cache.expired t (snd kv))) l)
             = filter (fun k => fst (Cache.has t k c)) (map fst l)).
  { induction l as [|[k e] l IH]; intros Hsub; cbn; auto.
    rewrite has_live.
    rewrite (get_wf_In (Cache.cache c) k e Hwf (Hsub (k, e) (or_introl eq_refl))).
    specialize (IH (fun kv Hkv => Hsub kv (or_intror Hkv))).
    destruct (negb (Cache.expired t e)); cbn; now rewrite IH. }
  apply Hgen. auto.
Qed.

(** X8 on a cache with a TTL of 1 s: of two entries, one has expired at
    the time of the call. *)
Lemma X8_size_counts_live_keys_witness :
  let c := cache_run [OpSet 0 "key1" "value1"; OpSet 900 "key2" "value2"] (Cache.new 1 5) in
  fst (Cache.size 1500 c)
  = Z.of_nat (List.length
      (filter (fun k => fst (Cache.has 1500 k c)) (JsMap.keys (Cache.cache c)))).
Proof.
  apply (X8_size_counts_live_keys string
           (cache_run [OpSet 0 "key1" "value1"; OpSet 900 "key2" "value2"] (Cache.new 1 5))
           1500).
  repeat constructor; cbn; intuition discriminate.
Defined.

(** X9. Purging is not observable through [get]: after [size()] (which
    runs [cleanup]) at time [t], a [get] at the same or a later time returns
    for every key what it would have returned without the purge. *)
Theorem X9_cleanup_is_transparent :
  forall (T : Type) (c : Cache.SimpleCache T) (t t' : Z) (k : string),
    JsMap.wf (Cache.cache c) ->
    t <= t' ->
    Cache.lookup t' k (snd (Cache.size t c)) = Cache.lookup t' k c.
Proof.
  intros T c t t' k Hwf Hle. rewrite !lookup_get. cbn.
  rewrite get_filter_wf by exact Hwf.
  destruct (JsMap.get (Cache.cache c) k) as [e|]; auto.
  cbn. destruct (Cache.expired t e) eqn:E; cbn; auto.
  now rewrite (expired_mono t t' e Hle E).
Qed.

(** X9 on a cache whose first entry has expired when [size()] is called. *)
Lemma X9_cleanup_is_transparent_witness :
  let c := cache_run [OpSet 0 "key1" "value1"; OpSet 900 "key2" "value2"] (Cache.new 1 5) in
  Cache.lookup 1600 "key2" (snd (Cache.size 1500 c)) = Cache.lookup 1600 "key2" c.
Proof.
  apply (X9_cleanup_is_transparent string
           (cache_run [OpSet 0 "key1" "value1"; OpSet 900 "key2" "value2"] (Cache.new 1 5))
           1500 1600 "key2").
  - repeat constructor; cbn; intuition discriminate.
  - lia.
Defined.
(** ** Further properties of the client: single fetches *)

Section UserAndListFetch.
Variable net : Upstream.



(** A miss of [getItem] sends exactly one request, however it ends. *)
Lemma getItem_miss_requests id w :
  Cache.lookup (now w) (item_key id) (itemCache (client w)) = None ->
  requests (snd (getItem net id w)) = (requests w ++ [item_url (client w) id])%list.
Proof.
  intros Hmiss. rewrite (getItem_miss net id w Hmiss). cbn zeta.
  destruct (item_json net id) as [status statusText body|msg|]; cbn; auto.
  destruct (response_ok status); cbn; auto.
  destruct body as [[item|]|msg]; cbn; auto.
Qed.

(** The item cache after a miss that stored nothing. *)
Lemma getItem_miss_unbound id w :
  JsMap.wf (Cache.cache (itemCache (client w))) ->
  Cache.lookup (now w) (item_key id) (itemCache (client w)) = None ->
  JsMap.get (Cache.cache (itemCache (client (item_settled net id w)))) (item_key id)
  = None.
Proof.
  intros Hwf Hmiss. unfold item_settled. cbn. now apply get_miss_unbound.
Qed.
End UserAndListFetch.





(** X12. Whatever goes wrong in [getItem] (a response that is not 2xx, a
    timeout, a network failure, a body that does not decode), the promise
    rejects with a [HackerNewsClientError] whose message is
    [Failed to fetch item {id}: ] followed by the message of the cause, and
    which carries no status code.  A rejection always follows a request: a
    call that is served from the cache cannot reject. *)
Theorem X12_getItem_rejections_are_wrapped :
  forall (net : Upstream) (id : Z) (w w' : World) (t : Thrown),
    getItem net id w = (Throw t, w') ->
    (exists cause,
        t = ClientError
              {| message := "Failed to fetch item " ++ num id ++ ": " ++ cause;
                 statusCode := None |}) /\
    requests w' = (requests w ++ [item_url (client w) id])%list.
Proof.
  intros net id w w' t.
  destruct (Cache.lookup (now w) (item_key id) (itemCache (client w))) as [item|] eqn:Hl.
  - unfold Cache.lookup in Hl. unfold getItem, bind, itemCache_get.
    destruct (Cache.get (now w) (item_key id) (itemCache (client w))) as [r ic].
    cbn in Hl. subst r. cbn. discriminate.
  - rewrite (getItem_miss net id w Hl). cbn zeta.
    destruct (item_json net id) as [status statusText body|msg|].
    + destruct (response_ok status).
      * destruct body as [[item|]|msg]; intros [= <- <-];
          split; [eexists; reflexivity | reflexivity].
      * intros [= <- <-]. split; [eexists; reflexivity | reflexivity].
    + intros [= <- <-]. split; [eexists; reflexivity | reflexivity].
    + intros [= <- <-]. split; [eexists; reflexivity | reflexivity].
Qed.

(** X12 on the fresh client: the request for item 456 fails in transit. *)
Lemma X12_getItem_rejections_are_wrapped_witness :
  (exists cause,
      ClientError {| message := "Failed to fetch item 456: Network error";
                     statusCode := None |}
      = ClientError
          {| message := "Failed to fetch item " ++ num 456 ++ ": " ++ cause;
             statusCode := None |}) /\
  requests (item_settled Example.hn 456 Example.fresh)
  = (requests Example.fresh ++ [item_url (client Example.fresh) 456])%list.
Proof.
  apply (X12_getItem_rejections_are_wrapped Example.hn 456 Example.fresh
           (item_settled Example.hn 456 Example.fresh)
           (ClientError {| message := "Failed to fetch item 456: Network error";
                           statusCode := None |})).
  reflexivity.
Defined.

(** X13. A call of [getItem] that produced no item leaves nothing in the
    cache: after a rejection, and after a [null] answer, the key
    [item:{id}] is unbound, so the next call for the same id, whenever it
    is made, sends a request again. *)
Theorem X13_failures_are_not_cached :
  forall (net : Upstream) (id : Z) (w w' : World) (r : Result (option HackerNewsItem)),
    JsMap.wf (Cache.cache (itemCache (client w))) ->
    getItem net id w = (r, w') ->
    (forall item, r <> Ok (Some item)) ->
    JsMap.get (Cache.cache (itemCache (client w'))) (item_key id) = None /\
    forall t2 : Z,
      requests (snd (getItem net id (at_time t2 w')))
      = (requests w' ++ [item_url (client w') id])%list.
Proof.
  intros net id w w' r Hwf Hrun Hnone.
  assert (Hunbound : JsMap.get (Cache.cache (itemCache (client w'))) (item_key id) = None).
  { destruct (Cache.lookup (now w) (item_key id) (itemCache (client w)))
      as [item|] eqn:Hl.
    - exfalso. unfold Cache.lookup in Hl. revert Hrun.
      unfold getItem, bind, itemCache_get.
      destruct (Cache.get (now w) (item_key id) (itemCache (client w))) as [r0 ic].
      cbn in Hl. subst r0. cbn. intros [= <- <-]. now apply (Hnone item).
    - pose proof (getItem_miss_unbound net id w Hwf Hl) as Hu.
      revert Hrun. rewrite (getItem_miss net id w Hl). cbn zeta.
      destruct (item_json net id) as [status statusText body|msg|].
      + destruct (response_ok status).
        * destruct body as [[item|]|msg]; intros [= <- <-]; auto.
          exfalso. now apply (Hnone item).
        * intros [= <- <-]; auto.
      + intros [= <- <-]; auto.
      + intros [= <- <-]; auto. }
  split; [exact Hunbound|].
  intros t2. apply (getItem_miss_requests net id (at_time t2 w')).
  rewrite lookup_get. change (client (at_time t2 w')) with (client w').
  now rewrite Hunbound.
Qed.

(** X13 on the fresh client: the request for item 456 fails, and is sent
    again by the next call. *)
Lemma X13_failures_are_not_cached_witness :
  JsMap.get (Cache.cache (itemCache (client (snd (getItem Example.hn 456 Example.fresh)))))
    (item_key 456) = None /\
  forall t2 : Z,
    requests (snd (getItem Example.hn 456
                     (at_time t2 (snd (getItem Example.hn 456 Example.fresh)))))
    = (requests (snd (getItem Example.hn 456 Example.fresh))
       ++ [item_url (client (snd (getItem Example.hn 456 Example.fresh))) 456])%list.
Proof.
  apply (X13_failures_are_not_cached Example.hn 456 Example.fresh
           (snd (getItem Example.hn 456 Example.fresh))
           (fst (getItem Example.hn 456 Example.fresh))).
  - constructor.
  - reflexivity.
  - intros item. discriminate.
Defined.


(** X15. [clearCache] forgets everything: right after it [getCacheStats]
    reports 0 items, 0 users and 0 lists at whatever time it is asked, and
    [getItem], [getUser] and the list fetchers send a request for whatever
    id or endpoint they are asked, cached before or not. *)
Theorem X15_clearCache_forgets :
  forall (net : Upstream) (w : World) (t : Z),
    let w1 := at_time t (snd (clearCache w)) in
    fst (getCacheStats w1) = Ok (0, 0, 0)%Z /\
    (forall id,
        requests (snd (getItem net id w1))
        = (requests w ++ [item_url (client w) id])%list) /\
    (forall id,
        requests (snd (getUser net id w1))
        = (requests w ++ [user_url (client w) id])%list) /\
    (forall endpoint,
        requests (snd (getStoryList net endpoint w1))
        = (requests w ++ [endpoint_url (client w) endpoint])%list).
Proof.
  intros net w t w1. split; [reflexivity|]. split; [|split].
  - intros id. rewrite (getItem_miss_requests net id w1); reflexivity.
  - intros id. unfold getUser, bind, userCache_get. cbn.
    unfold_fetch. cbn.
    destruct (user_json net id) as [status statusText body|msg|]; cbn; auto.
    destruct (response_ok status); cbn; auto.
    destruct body as [[u|]|msg]; cbn; auto.
  - intros endpoint. unfold getStoryList, bind, listCache_get. cbn.
    unfold_fetch. cbn.
    destruct (list_json net endpoint) as [status statusText body|msg|]; cbn; auto.
    destruct (response_ok status); cbn; auto.
    destruct body as [l|msg]; cbn; auto.
Qed.
(** ** Further properties of the client: batches and request budgets *)

Section Budgets.
Variable net : Upstream.

Lemma logs_at_most_same n P w w' :
  baseUrl (client w') = baseUrl (client w) -> requests w' = requests w ->
  logs_at_most n P w w'.
Proof.
  intros Hb Hr. split; auto. exists []. rewrite app_nil_r.
  split; auto. split; [cbn; lia | constructor].
Qed.

Lemma logs_at_most_trans n1 n2 P w1 w2 w3 :
  logs_at_most n1 P w1 w2 -> logs_at_most n2 P w2 w3 ->
  logs_at_most (n1 + n2) P w1 w3.
Proof.
  intros [Hb1 [a1 [Hr1 [Hl1 Hp1]]]] [Hb2 [a2 [Hr2 [Hl2 Hp2]]]].
  split; [congruence|].
  exists (a1 ++ a2)%list. rewrite Hr2, Hr1, app_assoc. split; auto.
  split; [rewrite length_app; lia | apply Forall_app; auto].
Qed.

Lemma logs_at_most_weaken n m (P Q : string -> Prop) w w' :
  (n <= m)%nat -> (forall u, P u -> Q u) ->
  logs_at_most n P w w' -> logs_at_most m Q w w'.
Proof.
  intros Hnm HPQ [Hb [a [Hr [Hl Hp]]]]. split; auto. exists a.
  split; auto. split; [lia|]. eapply Forall_impl; eauto.
Qed.

Lemma logs_only_nothing P w w' :
  logs_only (fun _ => False) w w' -> logs_at_most 0 P w w'.
Proof.
  intros [Hb [a [Hr Hp]]]. destruct a as [|u a].
  - apply logs_at_most_same; auto. now rewrite Hr, app_nil_r.
  - inversion Hp; contradiction.
Qed.

Lemma getItem_begin_budget id w :
  logs_at_most 1 (fun u => u = item_url (client w) id) w (snd (getItem_begin id w)).
Proof.
  unfold getItem_begin, itemCache_get.
  destruct (Cache.get (now w) (item_key id) (itemCache (client w))) as [[item|] ic]; cbn.
  - now apply logs_at_most_same.
  - split; auto. exists [item_url (client w) id]. split; auto.
Qed.

Lemma begin_all_budget ids : forall w,
  logs_at_most (List.length ids)
    (fun u => exists id, In id ids /\ u = item_url (client w) id)
    w (snd (begin_all ids w)).
Proof.
  induction ids as [|id ids IH]; intros w; cbn [begin_all].
  - now apply logs_at_most_same.
  - pose proof (getItem_begin_budget id w) as H1.
    destruct (getItem_begin id w) as [p w1]. cbn [snd] in H1.
    specialize (IH w1). destruct (begin_all ids w1) as [ps w2]. cbn [snd] in *.
    change (List.length (id :: ids)) with (1 + List.length ids)%nat.
    eapply logs_at_most_trans.
    + eapply logs_at_most_weaken; [apply Nat.le_refl| |exact H1].
      intros u ->. exists id. split; [now left | reflexivity].
    + eapply logs_at_most_weaken; [apply Nat.le_refl| |exact IH].
      intros u [id' [Hin ->]]. exists id'. split; [now right|].
      unfold item_url. now rewrite (proj1 H1).
Qed.

(** [Promise.all] over [ids] sends at most [ids.length] requests, and
    only for items of [ids], whether it resolves or rejects. *)
Lemma promise_all_budget ids w :
  logs_at_most (List.length ids)
    (fun u => exists id, In id ids /\ u = item_url (client w) id)
    w (snd (promise_all_getItem net ids w)).
Proof.
  unfold promise_all_getItem.
  pose proof (begin_all_budget ids w) as H1.
  destruct (begin_all ids w) as [ps w1]. cbn [snd] in H1.
  pose proof (resume_all_logs net ps w1) as H2.
  destruct (resume_all net ps w1) as [rs w2]. cbn [snd] in *.
  rewrite <- (Nat.add_0_r (List.length ids)).
  eapply logs_at_most_trans; [exact H1|].
  now apply logs_only_nothing.
Qed.

Lemma skipn_batch_length (ids : list Z) (i n : Z) :
  (0 <= i)%Z -> (0 <= n)%Z ->
  (List.length (slice ids i (i + n)) + List.length (skipn (Z.to_nat (i + n)) ids)
   = List.length (skipn (Z.to_nat i) ids))%nat.
Proof.
  intros Hi Hn. rewrite <- length_app. f_equal. symmetry.
  now apply skipn_batch.
Qed.

Lemma getMultipleItems_loop_budget ids : forall fuel i results w,
  (0 <= i)%Z ->
  logs_at_most (List.length (skipn (Z.to_nat i) ids))
    (fun u => exists id, In id ids /\ u = item_url (client w) id)
    w
    (snd (for_batches fuel 10 ids i
            (fun batch results =>
               bind (promise_all_getItem net batch)
                    (fun batchResults => ret (results ++ batchResults)%list))
            results w)).
Proof.
  induction fuel as [|fuel IH]; intros i results w Hi; cbn [for_batches].
  - now apply logs_at_most_same.
  - destruct (i <? Z.of_nat (List.length ids))%Z eqn:E.
    + pose proof (promise_all_budget (slice ids i (i + 10)) w) as Hb.
      unfold bind at 1. unfold bind at 1.
      destruct (promise_all_getItem net (slice ids i (i + 10)) w)
        as [[rs|t|] w1]; cbn [snd] in *.
      * unfold ret at 1.
        specialize (IH (i + 10)%Z (results ++ rs)%list w1).
        rewrite <- (skipn_batch_length ids i 10) by lia.
        eapply logs_at_most_trans.
        -- eapply logs_at_most_weaken; [apply Nat.le_refl| |exact Hb].
           intros u [id [Hin ->]]. exists id. split; auto.
           eapply slice_incl; eauto.
        -- eapply logs_at_most_weaken; [apply Nat.le_refl| |apply IH; lia].
           intros u [id [Hin ->]]. exists id. split; auto.
           unfold item_url. now rewrite (proj1 Hb).
      * eapply logs_at_most_weaken; [| |exact Hb].
        -- rewrite <- (skipn_batch_length ids i 10) by lia. lia.
        -- intros u [id [Hin ->]]. exists id. split; auto.
           eapply slice_incl; eauto.
      * eapply logs_at_most_weaken; [| |exact Hb].
        -- rewrite <- (skipn_batch_length ids i 10) by lia. lia.
        -- intros u [id [Hin ->]]. exists id. split; auto.
           eapply slice_incl; eauto.
    + cbn. now apply logs_at_most_same.
Qed.

Lemma getUser_budget id w :
  logs_at_most 1 (fun u => u = user_url (client w) id) w (snd (getUser net id w)).
Proof.
  unfold getUser, bind, userCache_get.
  destruct (Cache.get (now w) (user_key id) (userCache (client w)))
    as [[user|] uc]; cbn.
  - now apply logs_at_most_same.
  - unfold_fetch. cbn.
    assert (H : logs_at_most 1 (fun u => u = user_url (client w) id) w
                  (issue (user_url (set_userCache (client w) uc) id)
                     (set_client w (set_userCache (client w) uc)))).
    { split; auto. exists [user_url (client w) id]. split; auto. }
    destruct (user_json net id) as [status statusText body|msg|]; cbn;
      try exact H.
    destruct (response_ok status); cbn; try exact H.
    destruct body as [[user|]|msg]; cbn; exact H.
Qed.


Lemma slice_prefix_length {A} (l : list A) (n : Z) :
  (0 <= n)%Z -> (List.length (slice l 0 n) <= Z.to_nat n)%nat.
Proof.
  intros Hn. rewrite slice_prefix by exact Hn. rewrite length_firstn. lia.
Qed.
End Budgets.

(** X16. With a coherent item cache, [getMultipleItems(ids)] resolves
    exactly when the upstream answers every id, and then with the
    upstream's answers, one per id and in the order of [ids], [null] where
    the upstream answers [null]; the cache is coherent afterwards. *)
Theorem X16_getMultipleItems_in_order :
  forall (net : Upstream) (ids : list Z) (w : World),
    coherent net w ->
    (forall rs, Forall2 (answered net) ids rs ->
                exists w', getMultipleItems net ids w = (Ok rs, w') /\ coherent net w') /\
    (forall rs w', getMultipleItems net ids w = (Ok rs, w') ->
                   List.length rs = List.length ids /\
                   Forall2 (answered net) ids rs /\ coherent net w').
Proof.
  intros net ids w Hc. split.
  - intros rs Hrs. now apply getMultipleItems_answers.
  - intros rs w' H. split.
    + eapply getMultipleItems_length; eauto.
    + eapply getMultipleItems_resolved; eauto.
Qed.

(** X16 on the fresh client: items 100 and 404 (which does not exist). *)
Lemma X16_getMultipleItems_in_order_witness :
  (forall rs, Forall2 (answered Example.hn) [100; 404]%Z rs ->
              exists w', getMultipleItems Example.hn [100; 404]%Z Example.fresh = (Ok rs, w')
                         /\ coherent Example.hn w') /\
  (forall rs w', getMultipleItems Example.hn [100; 404]%Z Example.fresh = (Ok rs, w') ->
                 List.length rs = List.length [100; 404]%Z /\
                 Forall2 (answered Example.hn) [100; 404]%Z rs /\
                 coherent Example.hn w').
Proof.
  apply (X16_getMultipleItems_in_order Example.hn [100; 404]%Z Example.fresh).
  intros id e [].
Defined.

(** X17. [getMultipleItems(ids)] sends at most [ids.length] requests, as
    many as the array has entries and each for an item of the array,
    whether it resolves or rejects.  The bound is in the number of
    entries of the array, not of distinct ids.  For an empty array it
    resolves with the empty array and sends nothing. *)
Theorem X17_getMultipleItems_budget :
  forall (net : Upstream) (ids : list Z) (w : World),
    logs_at_most (List.length ids)
      (fun u => exists id, In id ids /\ u = item_url (client w) id)
      w (snd (getMultipleItems net ids w)) /\
    getMultipleItems net [] w = (Ok [], w).
Proof.
  intros net ids w. split; [|reflexivity].
  unfold getMultipleItems.
  apply (getMultipleItems_loop_budget net ids (S (List.length ids)) 0%Z [] w).
  lia.
Qed.

(** X18. [getUserWithStats] sends at most 11 requests: one for the user
    and one for each of the first ten submissions, however many
    submissions the user has. *)
Theorem X18_getUserWithStats_budget :
  forall (net : Upstream) (id : string) (w : World),
    logs_at_most 11
      (fun u => u = user_url (client w) id \/ exists i, u = item_url (client w) i)
      w (snd (getUserWithStats net id w)).
Proof.
  intros net id w. unfold getUserWithStats. unfold bind at 1.
  pose proof (getUser_budget net id w) as Hu.
  destruct (getUser net id w) as [[[user|]|t|] w1]; cbn [snd] in *;
    try (eapply logs_at_most_weaken; [| |exact Hu]; [lia|intros u ->; now left]).
  set (subs := match submitted user with Some l => slice l 0 10 | None => [] end).
  assert (Hlen : (List.length subs <= 10)%nat).
  { unfold subs. destruct (submitted user) as [l|]; [|cbn; lia].
    apply (slice_prefix_length l 10). lia. }
  pose proof (promise_all_budget net subs w1) as Hp.
  unfold bind.
  assert (Hall : logs_at_most 11
            (fun u => u = user_url (client w) id \/ exists i, u = item_url (client w) i)
            w (snd (promise_all_getItem net subs w1))).
  { change 11%nat with (1 + 10)%nat. eapply logs_at_most_trans.
    - eapply logs_at_most_weaken; [apply Nat.le_refl| |exact Hu].
      intros u ->. now left.
    - eapply logs_at_most_weaken; [exact Hlen| |exact Hp].
      intros u [i [_ ->]]. right. exists i.
      unfold item_url. now rewrite (proj1 Hu). }
  destruct (promise_all_getItem net subs w1) as [[rs|t|] w2]; exact Hall.
Qed.


(** ** Further properties of the client: derived data, search, keys *)

Section CacheIsolation.
Variable net : Upstream.

(** [getUser] does not touch the item cache. *)
Lemma getUser_itemCache id w :
  itemCache (client (snd (getUser net id w))) = itemCache (client w).
Proof.
  unfold getUser, bind, userCache_get.
  destruct (Cache.get (now w) (user_key id) (userCache (client w)))
    as [[user|] uc]; cbn; auto.
  unfold_fetch. cbn.
  destruct (user_json net id) as [status statusText body|msg|]; cbn; auto.
  destruct (response_ok status); cbn; auto.
  destruct body as [[user|]|msg]; cbn; auto.
Qed.

Lemma getUser_coherent id w :
  coherent net w -> coherent net (snd (getUser net id w)).
Proof.
  unfold coherent. intros Hc i e. rewrite getUser_itemCache. apply Hc.
Qed.
End CacheIsolation.

Lemma firstn_nil_iff {A} (n : nat) (l : list A) :
  (0 < n)%nat -> (firstn n l = [] <-> l = []).
Proof.
  intros Hn. destruct n as [|n]; [lia|]. destruct l; cbn; split; congruence.
Qed.

Lemma filter_none {A} (f : A -> bool) (l : list A) :
  (forall x, In x l -> f x = false) -> filter f l = [].
Proof.
  induction l as [|a l IH]; cbn; intros H; auto.
  rewrite (H a (or_introl eq_refl)). apply IH. intros x Hx. apply H. now right.
Qed.

Lemma filter_all {A} (f : A -> bool) (l : list A) :
  (forall x, In x l -> f x = true) -> filter f l = l.
Proof.
  induction l as [|a l IH]; cbn; intros H; auto.
  rewrite (H a (or_introl eq_refl)). f_equal. apply IH. intros x Hx. apply H. now right.
Qed.

Lemma append_cancel_l (s a b : string) : s ++ a = s ++ b -> a = b.
Proof. induction s as [|c s IH]; cbn; auto. intros [= H]. auto. Qed.

Lemma length_append (a b : string) :
  String.length (a ++ b) = (String.length a + String.length b)%nat.
Proof. induction a as [|c a IH]; cbn; auto. Qed.

Lemma append_cancel_r (t : string) : forall a b : string, a ++ t = b ++ t -> a = b.
Proof.
  induction a as [|c a IH]; intros [|d b]; cbn; auto.
  - intros H. apply (f_equal String.length) in H. cbn in H.
    rewrite length_append in H. lia.
  - intros H. apply (f_equal String.length) in H. cbn in H.
    rewrite length_append in H. lia.
  - intros [= -> H]. f_equal. auto.
Qed.

Lemma strip_trailing_slash_append (s : string) :
  strip_trailing_slash (s ++ "/") = s.
Proof.
  induction s as [|c s IH]; [reflexivity|].
  cbn [append]. cbn [strip_trailing_slash].
  destruct (s ++ "/") as [|d r] eqn:E.
  - destruct s; discriminate.
  - now rewrite IH.
Qed.

(** X20. [getStoryWithMetadata] only ever produces a story: its result
    embeds the item that [getItem] returned, of type [story], and costs no
    request beyond that of [getItem].  The comment count is the item's
    [descendants] or 0.  The age is 0 for an item without a truthy [time];
    otherwise it is the double [(now / 1000 - time) / 3600], with the clock
    read when the item has arrived and the operations of the code in their
    order.  The domain is absent for an item without a truthy URL, and is
    the host name of the URL otherwise. *)
Theorem X20_story_metadata :
  forall (net : Upstream) (hostname : string -> option string)
         (id : Z) (w w' : World) (m : StoryWithMetadata),
    getStoryWithMetadata net hostname id w = (Ok (Some m), w') ->
    getItem net id w = (Ok (Some (story_item m)), w') /\
    type (story_item m) = Some story /\
    commentCount m = or_zero (descendants (story_item m)) /\
    (time (story_item m) = None \/ time (story_item m) = Some 0%Z ->
       ageHours m = 0%float) /\
    (forall tm, time (story_item m) = Some tm -> tm <> 0%Z ->
       ageHours m = ((number (now w') / 1000 - number tm) / 3600)%float) /\
    (url (story_item m) = None \/ url (story_item m) = Some EmptyString ->
       domain m = None) /\
    (forall u, url (story_item m) = Some u -> u <> EmptyString ->
       domain m = hostname u).
Proof.
  intros net hostname id w w' m. unfold getStoryWithMetadata, bind.
  destruct (getItem net id w) as [[[item|]|t|] w1]; try discriminate.
  destruct (has_type item story) eqn:Ety; cbn [negb]; [|discriminate].
  unfold date_now, ret. intros [= <- <-].
  cbn [story_item commentCount ageHours domain].
  split; [reflexivity|]. split.
  { unfold has_type in Ety. destruct (type item) as [[]|]; try discriminate.
    reflexivity. }
  split; [reflexivity|]. split; [|split; [|split]].
  - intros [-> | ->]; reflexivity.
  - intros tm -> Htm. rewrite (truthy_number_true tm Htm). reflexivity.
  - intros [-> | ->]; reflexivity.
  - intros u -> Hu. rewrite (truthy_string_true u Hu). reflexivity.
Qed.

(** X20 on the fresh client, called at the clock 1640995199981: item 100,
    a story of the time 1640995200, arrives 20 ms later, and its age is the
    double the code computes there (the exact quotient 1/3600000 is not a
    double, and is not what the division by 1000 followed by the
    subtraction gives). *)
Lemma X20_story_metadata_witness :
  let r := getStoryWithMetadata Example.hn Example.no_hostname 100
             (at_time 1640995199981 Example.fresh) in
  exists m, fst r = Ok (Some m) /\
    getItem Example.hn 100 (at_time 1640995199981 Example.fresh)
    = (Ok (Some (story_item m)), snd r) /\
    type (story_item m) = Some story /\
    commentCount m = or_zero (descendants (story_item m)) /\
    now (snd r) = 1640995200001%Z /\
    ageHours m = 0x1.2a3d70a3d70a4p-22%float.
Proof.
  eexists. split; [vm_compute; reflexivity|].
  pose proof (X20_story_metadata Example.hn Example.no_hostname 100
                (at_time 1640995199981 Example.fresh) _ _ eq_refl) as H.
  split; [exact (proj1 H)|].
  split; [exact (proj1 (proj2 H))|].
  split; [exact (proj1 (proj2 (proj2 H)))|].
  split; [reflexivity|].
  refine (eq_trans (proj1 (proj2 (proj2 (proj2 (proj2 H)))) 1640995200%Z eq_refl _) _);
    [discriminate | vm_compute; reflexivity].
Defined.

(** X21. With a coherent item cache, what [getUserWithStats] resolves
    with is determined by the upstream's answers for the first ten
    submissions of the user, in their order: [recentActivity] is the first
    five of them that exist, [topStories] the first five of them that are
    stories (in submission order, not by score), and [averageScore] is
    absent exactly when there is no story among them. *)
Theorem X21_user_stats_from_upstream :
  forall (net : Upstream) (id : string) (w w' : World) (s : UserWithStats),
    coherent net w ->
    getUserWithStats net id w = (Ok (Some s), w') ->
    exists answers,
      Forall2 (answered net)
        (match submitted (stats_user s) with Some l => firstn 10 l | None => [] end)
        answers /\
      recentActivity s = firstn 5 (non_null answers) /\
      topStories s = firstn 5 (filter (fun i => has_type i story) (non_null answers)) /\
      (averageScore s = None <-> topStories s = []) /\
      coherent net w'.
Proof.
  intros net id w w' s Hc. unfold getUserWithStats. unfold bind at 1.
  pose proof (getUser_coherent net id w Hc) as Hc1.
  destruct (getUser net id w) as [[[user|]|t|] w1]; try discriminate.
  cbn [snd] in Hc1. unfold bind.
  destruct (promise_all_getItem net
              match submitted user with Some l => slice l 0 10 | None => [] end w1)
    as [[rs|t|] w2] eqn:Ep; try discriminate.
  destruct (promise_all_resolved net _ rs w1 w2 Hc1 Ep) as [Hrs Hc2].
  unfold ret. intros [= <- <-].
  cbn [stats_user recentActivity topStories averageScore].
  exists rs. split.
  { destruct (submitted user) as [l|]; auto.
    rewrite slice_prefix in Hrs by lia. exact Hrs. }
  split; [rewrite slice_prefix by lia; reflexivity|].
  split; [rewrite slice_prefix by lia; reflexivity|].
  split; [|exact Hc2].
  rewrite slice_prefix by lia. change (Z.to_nat 5) with 5%nat.
  rewrite firstn_nil_iff by lia.
  destruct (filter (fun item => has_type item story) (non_null rs)); cbn;
    split; congruence.
Qed.

(** X21 on the fresh client, for a user with the submissions 100, 101,
    200 and 404. *)
Lemma X21_user_stats_from_upstream_witness :
  exists s,
    fst (getUserWithStats Example2.hn "alice" Example.fresh) = Ok (Some s) /\
    exists answers,
      Forall2 (answered Example2.hn)
        (match submitted (stats_user s) with Some l => firstn 10 l | None => [] end)
        answers /\
      recentActivity s = firstn 5 (non_null answers) /\
      topStories s = firstn 5 (filter (fun i => has_type i story) (non_null answers)) /\
      (averageScore s = None <-> topStories s = []) /\
      coherent Example2.hn (snd (getUserWithStats Example2.hn "alice" Example.fresh)).
Proof.
  eexists. split; [vm_compute; reflexivity|].
  apply (X21_user_stats_from_upstream Example2.hn "alice" Example.fresh).
  - intros i e [].
  - vm_compute. reflexivity.
Defined.

(** X22. A search by item type finds nothing unless the type is
    [story]: [searchStories] keeps only items of type [story] before it
    filters, and the type filter then rejects each of them. *)
Theorem X22_search_by_other_type_is_empty :
  forall (net : Upstream) (toLowerCase : string -> string)
         (params : SearchParams) (ty : ItemType)
         (w w' : World) (out : list HackerNewsItem),
    itemType params = Some ty ->
    ty <> story ->
    searchStories net toLowerCase params w = (Ok out, w') ->
    out = [].
Proof.
  intros net toLowerCase params ty w w' out Hty Hne. unfold searchStories, bind.
  destruct (getTopStories net w) as [[top|t|] w1]; try discriminate.
  destruct (promise_all_getItem net (slice top 0 (storyLimit params * 2)) w1)
    as [[fetched|t|] w2]; try discriminate.
  unfold ret. intros [= <- <-].
  assert (Hnone : filterStories toLowerCase (validStories fetched) params = []).
  { unfold filterStories. apply filter_none. intros s Hs.
    unfold validStories in Hs. apply filter_In in Hs. destruct Hs as [_ Hstory].
    assert (Hrej : itemType_rejects params s = true).
    { unfold itemType_rejects. rewrite Hty. unfold has_type in Hstory.
      destruct (type s) as [ts|]; [|discriminate]. cbn.
      destruct ts; try discriminate. destruct ty; try reflexivity.
      now elim Hne. }
    unfold story_passes. rewrite Hrej.
    destruct (query_rejects toLowerCase params s); auto.
    destruct (author_rejects params s); auto.
    destruct (minScore_rejects params s); auto.
    destruct (startTime_rejects params s); auto.
    destruct (endTime_rejects params s); auto. }
  rewrite Hnone. unfold slice. cbn. now rewrite firstn_nil.
Qed.

(** X22 on the fresh client: a search for jobs among the top stories. *)
Lemma X22_search_by_other_type_is_empty_witness :
  fst (searchStories Example.hn toLowerCase_ascii
         (mkSearch None None None None None (Some job) None)
         Example.fresh) = Ok [].
Proof.
  destruct (searchStories Example.hn toLowerCase_ascii
              (mkSearch None None None None None (Some job) None)
              Example.fresh) as [[out|t|] w'] eqn:E.
  - cbn. f_equal.
    apply (X22_search_by_other_type_is_empty Example.hn toLowerCase_ascii
             (mkSearch None None None None None (Some job) None) job
             Example.fresh w' out); [reflexivity | discriminate | exact E].
  - vm_compute in E. discriminate.
  - vm_compute in E. discriminate.
Defined.

(** X23. Parameters that are unset or falsy filter nothing: with no item
    type, and with a query and an author that are absent or empty and a
    minimum score, start time and end time that are absent or 0,
    [filterStories] returns its input unchanged. *)
Theorem X23_falsy_parameters_filter_nothing :
  forall (toLowerCase : string -> string)
         (params : SearchParams) (stories : list HackerNewsItem),
    truthy_opt_string (query params) = false ->
    truthy_opt_string (author params) = false ->
    truthy_opt_number (minScore params) = false ->
    truthy_opt_number (startTime params) = false ->
    truthy_opt_number (endTime params) = false ->
    itemType params = None ->
    filterStories toLowerCase stories params = stories.
Proof.
  intros toLowerCase params stories Hq Ha Hm Hs He Ht. unfold filterStories.
  apply filter_all. intros s _.
  unfold story_passes, query_rejects, author_rejects, minScore_rejects,
    startTime_rejects, endTime_rejects, itemType_rejects.
  rewrite Ha, Ht. cbn [andb].
  destruct (query params) as [q|]; cbn in Hq.
  - rewrite Hq. destruct (title s); cbn [andb];
      destruct (minScore params) as [ms|]; cbn in Hm; try rewrite Hm; cbn [andb];
      destruct (startTime params) as [st|]; cbn in Hs; try rewrite Hs;
      destruct (endTime params) as [et|]; cbn in He; try rewrite He;
      destruct (time s); reflexivity.
  - destruct (minScore params) as [ms|]; cbn in Hm; try rewrite Hm; cbn [andb];
      destruct (startTime params) as [st|]; cbn in Hs; try rewrite Hs;
      destruct (endTime params) as [et|]; cbn in He; try rewrite He;
      destruct (time s); reflexivity.
Qed.

(** X23 for an empty query and a minimum score of 0. *)
Lemma X23_falsy_parameters_filter_nothing_witness :
  filterStories toLowerCase_ascii [Example.item100; Example.item200]
    (mkSearch (Some EmptyString) None (Some 0%Z) None None None None)
  = [Example.item100; Example.item200].
Proof.
  apply (X23_falsy_parameters_filter_nothing toLowerCase_ascii
           (mkSearch (Some EmptyString) None (Some 0%Z) None None None None)
           [Example.item100; Example.item200]); reflexivity.
Defined.

(** X24. Different item ids never share a cache key or a request URL:
    [item:{id}] and [{baseUrl}/item/{id}.json] determine the id. *)
Theorem X24_item_keys_do_not_collide :
  forall (c : HackerNewsClient) (a b : Z),
    a <> b ->
    item_key a <> item_key b /\ item_url c a <> item_url c b.
Proof.
  intros c a b Hne. split.
  - intros H. apply Hne. now apply item_key_inj.
  - unfold item_url. intros H. apply Hne. apply num_inj.
    apply append_cancel_l in H. apply append_cancel_l in H.
    now apply append_cancel_r in H.
Qed.

(** X24 for the ids 1 and 10. *)
Lemma X24_item_keys_do_not_collide_witness :
  item_key 1 <> item_key 10 /\
  item_url (client Example.fresh) 1 <> item_url (client Example.fresh) 10.
Proof.
  apply (X24_item_keys_do_not_collide (client Example.fresh) 1 10). discriminate.
Defined.

(** X25. The constructor removes one trailing slash of the base URL, so a
    base URL given with a trailing slash and the same one given without it
    make the same requests; only one slash is removed. *)
Theorem X25_base_url_trailing_slash :
  forall (base : string) (t : Z) (o : option CacheOptions) (id : Z),
    baseUrl (new_client {| opt_baseUrl := base ++ "/"; opt_timeout := t;
                           cacheOptions := o |}) = base /\
    item_url (new_client {| opt_baseUrl := base ++ "/"; opt_timeout := t;
                            cacheOptions := o |}) id
    = base ++ "/item/" ++ num id ++ ".json" /\
    baseUrl (new_client {| opt_baseUrl := base ++ "//"; opt_timeout := t;
                           cacheOptions := o |}) = base ++ "/".
Proof.
  intros base t o id. unfold item_url. cbn [new_client baseUrl opt_baseUrl].
  rewrite strip_trailing_slash_append. split; [reflexivity|].
  split; [reflexivity|].
  replace (base ++ "//") with ((base ++ "/") ++ "/").
  - apply strip_trailing_slash_append.
  - induction base as [|ch base IH]; cbn; [reflexivity|]. now rewrite IH.
Qed.
(** ** The logger and the handlers *)

(** X26. The level of the logger is a threshold: a call of [debug],
    [info], [warn] or [error] writes one line, to the stream of its level
    ([console.log] for debug and info), exactly when its level is not below
    the level of the logger, and nothing otherwise.  [error] is never
    silenced, and the exported logger, built without a level, never writes
    a debug line. *)
Theorem X26_logger_threshold :
  forall (this : Logger.SimpleLogger) (l : Logger.LogLevel)
         (ts msg : string) (args : list Logger.LogArg) (out : Logger.Console),
    ((Logger.levels (Logger.level this) <= Logger.levels l)%Z ->
     Logger.log l this ts msg args out
     = (out ++ [(Logger.stream_of l, Logger.formatMessage ts l msg args)])%list) /\
    ((Logger.levels l < Logger.levels (Logger.level this))%Z ->
     Logger.log l this ts msg args out = out) /\
    Logger.error this ts msg args out
    = (out ++ [(Logger.console_error, Logger.formatMessage ts Logger.Error msg args)])%list /\
    Logger.debug Logger.logger ts msg args out = out.
Proof.
  intros this l ts msg args out. repeat split.
  - intros H. destruct l; cbn [Logger.log Logger.stream_of];
      unfold Logger.debug, Logger.info, Logger.warn, Logger.error, Logger.shouldLog;
      rewrite Z.geb_leb; apply Z.leb_le in H; now rewrite H.
  - intros H. destruct l; cbn [Logger.log];
      unfold Logger.debug, Logger.info, Logger.warn, Logger.error, Logger.shouldLog;
      rewrite Z.geb_leb; apply Z.leb_gt in H; now rewrite H.
  - unfold Logger.error, Logger.shouldLog. destruct this as [[]]; reflexivity.
Qed.

(** X26 for a logger at level warn: an error line is written, an info
    line is not. *)
Lemma X26_logger_threshold_witness :
  Logger.log Logger.Error (Logger.new (Some Logger.Warn)) "T" "boom" [] []
  = ([] ++ [(Logger.stream_of Logger.Error,
             Logger.formatMessage "T" Logger.Error "boom" [])])%list /\
  Logger.log Logger.Info (Logger.new (Some Logger.Warn)) "T" "hello" [] [] = [].
Proof.
  split.
  - apply (proj1 (X26_logger_threshold (Logger.new (Some Logger.Warn)) Logger.Error
                    "T" "boom" [] [])).
    cbn. lia.
  - apply (proj1 (proj2 (X26_logger_threshold (Logger.new (Some Logger.Warn)) Logger.Info
                           "T" "hello" [] []))).
    cbn. lia.
Defined.

Section HandlerFacts.
Variable net : Upstream.

Lemma getItem_budget id w :
  logs_at_most 1 (fun u => u = item_url (client w) id) w (snd (getItem net id w)).
Proof.
  rewrite getItem_begin_resume.
  pose proof (getItem_begin_budget id w) as H1.
  destruct (getItem_begin id w) as [p w1]. cbn [fst snd] in *.
  pose proof (getItem_resume_logs net id p w1) as H2.
  change 1%nat with (1 + 0)%nat.
  eapply logs_at_most_trans; [exact H1|]. now apply logs_only_nothing.
Qed.

Lemma getStoryWithMetadata_budget hostname id w :
  logs_at_most 1 (fun u => u = item_url (client w) id) w
    (snd (getStoryWithMetadata net hostname id w)) /\
  fst (getStoryWithMetadata net hostname id w) <> OutOfFuel.
Proof.
  pose proof (getItem_budget id w) as H.
  assert (Hs : fst (getItem net id w) <> OutOfFuel).
  { rewrite getItem_begin_resume. apply getItem_resume_settles. }
  unfold getStoryWithMetadata, bind.
  destruct (getItem net id w) as [[[item|]|t|] w1]; cbn [fst snd] in *;
    try (split; [exact H | discriminate]).
  - destruct (has_type item story); cbn; split; try exact H; discriminate.
  - congruence.
Qed.
End HandlerFacts.

(** X27. The tools [get_post] and [search_comments] never reject: a
    rejection of the client becomes a result with [isError] whose text is
    the tool's prefix followed by the message of the client's error.
    [get_post] answers a missing or non-story item with an [isError]
    result too, and without [includeComments] it sends at most one
    request; [search_comments] answers an empty comment tree with a plain
    text that is not an error. *)
Theorem X27_tools_never_reject :
  forall (net : Upstream) (hostname : string -> option string)
         (toISOString : Z -> string)
         (stringify_post : PostDetails -> string)
         (stringify_analysis : CommentAnalysis -> string)
         (fuel : nat) (id : Z) (w : World),
    (forall includeComments,
        let r := get_post net hostname stringify_post fuel id includeComments w in
        (forall t, fst r <> Throw t) /\
        (forall t w1,
            getStoryWithMetadata net hostname id w = (Throw t, w1) ->
            r = (Ok {| tool_text := "Error fetching post details: " ++ thrown_message t;
                       isError := true |}, w1)) /\
        (forall w1,
            getStoryWithMetadata net hostname id w = (Ok None, w1) ->
            r = (Ok {| tool_text := "Post " ++ num id ++ " not found or is not a post";
                       isError := true |}, w1)) /\
        (truthy_opt_bool includeComments = false ->
         fst r <> OutOfFuel /\
         logs_at_most 1 (fun u => u = item_url (client w) id) w (snd r))) /\
    (forall maxDepth,
        let r := search_comments net toISOString stringify_analysis fuel id maxDepth w in
        (forall t, fst r <> Throw t) /\
        (forall t w1,
            getCommentTree net fuel id w = (Throw t, w1) ->
            r = (Ok {| tool_text := "Error searching comments: " ++ thrown_message t;
                       isError := true |}, w1)) /\
        (forall w1,
            getCommentTree net fuel id w = (Ok [], w1) ->
            r = (Ok {| tool_text := "No comments found for post " ++ num id;
                       isError := false |}, w1))).
Proof.
  intros net hostname toISOString stringify_post stringify_analysis fuel id w. split.
  - intros includeComments r. unfold r, get_post, try_catch, bind.
    pose proof (getStoryWithMetadata_budget net hostname id w) as [Hb Hs].
    destruct (getStoryWithMetadata net hostname id w) as [[[p|]|t|] w1];
      cbn [fst snd] in *.
    + split; [|split; [|split]]; try discriminate.
      * intros t. destruct (truthy_opt_bool includeComments).
        -- destruct (getCommentTree net fuel id w1) as [[cs|t'|] w2]; cbn; discriminate.
        -- cbn. discriminate.
      * intros H. rewrite H. cbn. split; [discriminate | exact Hb].
    + split; [|split; [|split]]; try discriminate.
      * intros w2 [= <-]. reflexivity.
      * intros _. split; [discriminate | exact Hb].
    + split; [|split; [|split]]; try discriminate.
      * intros t' w2 [= <- <-]. reflexivity.
      * intros _. split; [discriminate | exact Hb].
    + congruence.
  - intros maxDepth r. unfold r, search_comments, try_catch, bind.
    destruct (getCommentTree net fuel id w) as [[cs|t|] w1]; cbn [fst snd].
    + split; [|split]; try discriminate.
      * intros t. destruct (Z.of_nat (List.length cs) =? 0)%Z; cbn; discriminate.
      * intros w2 [= -> <-]. reflexivity.
    + split; [|split]; try discriminate.
      intros t' w2 [= <- <-]. reflexivity.
    + split; [|split]; discriminate.
Qed.

(** X27 on the fresh client: post 404 does not exist, and post 456 cannot
    be fetched. *)
Lemma X27_tools_never_reject_witness :
  get_post Example.hn Example.no_hostname (fun _ => "{}") 3 404 None Example.fresh
  = (Ok {| tool_text := "Post " ++ num 404 ++ " not found or is not a post";
           isError := true |},
     snd (getStoryWithMetadata Example.hn Example.no_hostname 404 Example.fresh)) /\
  search_comments Example.hn (fun _ => "now") (fun _ => "{}") 3 456 None Example.fresh
  = (Ok {| tool_text := "Error searching comments: "
                        ++ "Failed to fetch item 456: Network error";
           isError := true |},
     snd (getCommentTree Example.hn 3 456 Example.fresh)).
Proof.
  pose proof (X27_tools_never_reject Example.hn Example.no_hostname
                (fun _ => "now") (fun _ => "{}") (fun _ => "{}") 3) as H.
  split.
  - apply (proj1 (proj2 (proj2 (proj1 (H 404%Z Example.fresh) None)))). reflexivity.
  - apply (proj1 (proj2 (proj2 (H 456%Z Example.fresh) None))
             (ClientError {| message := "Failed to fetch item 456: Network error";
                             statusCode := None |})).
    reflexivity.
Defined.
(** ** The statistics of [search_comments] *)

Section Tally.

Lemma count_up_eq m k :
  count_up m k = JsMap.set m k (or_zero (JsMap.get m k) + 1)%Z.
Proof.
  unfold count_up. destruct (JsMap.get m k) as [n|]; cbn [or_zero]; auto.
  unfold truthy_number. destruct (n =? 0)%Z eqn:E; cbn [negb]; auto.
  apply Z.eqb_eq in E. now subst.
Qed.

Lemma authorCounts_tally_from cs : forall m,
  fold_left
    (fun counts c =>
       match by_ c with
       | Some a => if truthy_string a then count_up counts a else counts
       | None => counts
       end) cs m
  = tally (authors_of cs) m.
Proof.
  induction cs as [|c cs IH]; intros m; cbn [fold_left authors_of]; auto.
  destruct (by_ c) as [a|]; auto.
  destruct (truthy_string a); auto.
Qed.

Lemma authorCounts_tally cs : authorCounts cs = tally (authors_of cs) [].
Proof. apply authorCounts_tally_from. Qed.

Lemma keys_set_add {V} (m : JsMap.t V) k v :
  JsMap.keys (JsMap.set m k v) = set_add (JsMap.keys m) k.
Proof.
  unfold set_add, JsMap.keys. induction m as [|[k' v'] m IH]; cbn; auto.
  rewrite (String.eqb_sym k k').
  destruct (String.eqb k' k); cbn; auto.
  rewrite IH. destruct (existsb (String.eqb k) (map fst m)); reflexivity.
Qed.

Lemma keys_tally l : forall m,
  JsMap.keys (tally l m) = fold_left set_add l (JsMap.keys m).
Proof.
  induction l as [|x l IH]; intros m; cbn [tally fold_left]; auto.
  fold (tally l (count_up m x)). rewrite IH, count_up_eq, keys_set_add. reflexivity.
Qed.

Lemma sum_set m k v :
  sum_counts (JsMap.set m k v) = (sum_counts m - or_zero (JsMap.get m k) + v)%Z.
Proof.
  unfold sum_counts. induction m as [|[k' v'] m IH]; cbn; [lia|].
  destruct (String.eqb k' k); cbn; [lia|]. rewrite IH. lia.
Qed.

Lemma sum_tally l : forall m,
  sum_counts (tally l m) = (sum_counts m + Z.of_nat (List.length l))%Z.
Proof.
  induction l as [|x l IH]; intros m; cbn [tally fold_left List.length]; [lia|].
  fold (tally l (count_up m x)). rewrite IH, count_up_eq, sum_set. lia.
Qed.

Lemma get_count_up m x a :
  JsMap.get (count_up m x) a
  = if String.eqb x a then Some (or_zero (JsMap.get m a) + 1)%Z else JsMap.get m a.
Proof.
  rewrite count_up_eq. destruct (String.eqb x a) eqn:E.
  - apply String.eqb_eq in E. subst. apply get_set_same.
  - apply String.eqb_neq in E. now apply get_set_other.
Qed.

Lemma times_nonneg a l : (0 <= times a l)%Z.
Proof. unfold times, count_if. lia. Qed.

Lemma times_cons a x l :
  times a (x :: l) = ((if String.eqb a x then 1 else 0) + times a l)%Z.
Proof.
  unfold times, count_if. cbn [filter].
  destruct (String.eqb a x); cbn [List.length]; lia.
Qed.

Lemma get_tally l : forall m a,
  JsMap.get (tally l m) a
  = if (times a l =? 0)%Z then JsMap.get m a
    else Some (or_zero (JsMap.get m a) + times a l)%Z.
Proof.
  induction l as [|x l IH]; intros m a; cbn [tally fold_left].
  - reflexivity.
  - fold (tally l (count_up m x)). rewrite IH, get_count_up, times_cons.
    pose proof (times_nonneg a l) as Hn.
    rewrite (String.eqb_sym a x).
    destruct (String.eqb x a); destruct (times a l =? 0)%Z eqn:E;
      [apply Z.eqb_eq in E | apply Z.eqb_neq in E
      | apply Z.eqb_eq in E | apply Z.eqb_neq in E].
    + rewrite E. cbn. reflexivity.
    + destruct (1 + times a l =? 0)%Z eqn:E2; [apply Z.eqb_eq in E2; lia|].
      cbn [or_zero]. f_equal. lia.
    + rewrite E. cbn. reflexivity.
    + cbn [Z.add]. destruct (times a l =? 0)%Z eqn:E2; [apply Z.eqb_eq in E2; lia|].
      reflexivity.
Qed.

Lemma wf_tally l : forall m, JsMap.wf m -> JsMap.wf (tally l m).
Proof.
  induction l as [|x l IH]; intros m Hwf; cbn [tally fold_left]; auto.
  fold (tally l (count_up m x)). apply IH. rewrite count_up_eq. now apply wf_set.
Qed.

Lemma times_authors_empty cs : times EmptyString (authors_of cs) = 0%Z.
Proof.
  induction cs as [|c cs IH]; cbn [authors_of]; auto.
  destruct (by_ c) as [a|]; auto.
  destruct (truthy_string a) eqn:E; auto.
  rewrite times_cons, IH. unfold truthy_string in E.
  rewrite (String.eqb_sym EmptyString a).
  destruct (String.eqb a EmptyString); [discriminate|reflexivity].
Qed.

Lemma times_authors a cs :
  a <> EmptyString ->
  times a (authors_of cs) = count_if (fun c => opt_string_eqb (by_ c) (Some a)) cs.
Proof.
  intros Ha. induction cs as [|c cs IH]; cbn [authors_of]; auto.
  unfold count_if in *. cbn [filter].
  destruct (by_ c) as [b|]; cbn [opt_string_eqb]; auto.
  destruct (truthy_string b) eqn:E.
  - rewrite times_cons, IH. rewrite (String.eqb_sym a b).
    destruct (String.eqb b a); cbn [List.length]; lia.
  - unfold truthy_string in E. destruct (String.eqb b EmptyString) eqn:E2; [|discriminate].
    apply String.eqb_eq in E2. subst b.
    destruct (String.eqb EmptyString a) eqn:E3; auto.
    apply String.eqb_eq in E3. congruence.
Qed.

Lemma length_authors cs :
  Z.of_nat (List.length (authors_of cs))
  = count_if (fun c => truthy_opt_string (by_ c)) cs.
Proof.
  unfold count_if. induction cs as [|c cs IH]; cbn [authors_of filter]; auto.
  destruct (by_ c) as [a|]; cbn [truthy_opt_string]; auto.
  destruct (truthy_string a); cbn [List.length]; lia.
Qed.

Lemma count_if_split {A} (f : A -> bool) (l : list A) :
  (count_if (fun x => negb (f x)) l + count_if f l)%Z = Z.of_nat (List.length l).
Proof.
  unfold count_if. induction l as [|x l IH]; cbn [filter List.length]; auto.
  destruct (f x); cbn [negb List.length]; lia.
Qed.

Lemma length_set_add s x : (List.length (set_add s x) <= S (List.length s))%nat.
Proof.
  unfold set_add. destruct (existsb (String.eqb x) s); [lia|].
  rewrite length_app. cbn. lia.
Qed.

Lemma length_set_from l : forall s,
  (List.length (fold_left set_add l s) <= List.length s + List.length l)%nat.
Proof.
  induction l as [|x l IH]; intros s; cbn [fold_left List.length]; [lia|].
  specialize (IH (set_add s x)). pose proof (length_set_add s x). lia.
Qed.
End Tally.

Section SortByCount.

Lemma insert_by_count_perm x l : Permutation (insert_by_count x l) (x :: l).
Proof.
  induction l as [|y l IH]; cbn; auto.
  destruct (snd y - snd x <=? 0)%Z; auto.
  eapply perm_trans; [apply perm_skip; exact IH | apply perm_swap].
Qed.

Lemma sort_by_count_perm l : Permutation (sort_by_count l) l.
Proof.
  induction l as [|x l IH]; cbn; auto.
  eapply perm_trans; [apply insert_by_count_perm | now apply perm_skip].
Qed.

Lemma insert_by_count_sorted x l :
  StronglySorted by_count_desc l -> StronglySorted by_count_desc (insert_by_count x l).
Proof.
  induction l as [|y l IH]; cbn; intros Hs.
  - constructor; constructor.
  - inversion Hs as [|? ? Hl Hy]; subst.
    destruct (snd y - snd x <=? 0)%Z eqn:E.
    + apply Z.leb_le in E. constructor; auto.
      constructor; [unfold by_count_desc; lia|].
      eapply Forall_impl; [|exact Hy]. unfold by_count_desc. intros z Hz. lia.
    + apply Z.leb_gt in E. constructor; auto.
      eapply Permutation_Forall; [apply Permutation_sym, insert_by_count_perm|].
      constructor; [unfold by_count_desc; lia | exact Hy].
Qed.

Lemma sort_by_count_sorted l : StronglySorted by_count_desc (sort_by_count l).
Proof.
  induction l as [|x l IH]; cbn; [constructor|]. now apply insert_by_count_sorted.
Qed.

Lemma firstn_sorted {A} (R : A -> A -> Prop) n : forall l,
  StronglySorted R l -> StronglySorted R (firstn n l).
Proof.
  induction n as [|n IH]; intros [|x l] Hs; cbn; try constructor.
  - inversion Hs; subst. auto.
  - inversion Hs as [|? ? Hl Hx]; subst.
    rewrite Forall_forall in *. intros y Hy. apply Hx. eapply In_firstn; eauto.
Qed.

Lemma sorted_app_inv {A} (R : A -> A -> Prop) (l1 l2 : list A) :
  StronglySorted R (l1 ++ l2)%list ->
  forall x y, In x l1 -> In y l2 -> R x y.
Proof.
  induction l1 as [|a l1 IH]; cbn; intros Hs x y Hx Hy; [easy|].
  inversion Hs as [|? ? Hl Ha]; subst. destruct Hx as [->|Hx].
  - rewrite Forall_forall in Ha. apply Ha. apply in_or_app. now right.
  - now apply IH.
Qed.
End SortByCount.

(** X28. The statistics of [search_comments] are consistent with the
    comments they are computed from: the top-level and the reply comments
    add up to the total; the number of authors is the number of entries of
    the per-author counts, whose sum is the number of comments that have an
    author; the list of top commenters has at most ten entries, in
    descending order of their counts, each with the exact number of
    comments of its author (at least one), and no author that is left out
    has more comments than one that is listed. *)
Theorem X28_comment_statistics :
  forall (postId : Z) (comments : list HackerNewsItem) (timestamp : string),
    let a := comment_analysis postId comments timestamp in
    let stats := comment_statistics a in
    let eng := engagement_metrics a in
    (top_level_comments eng + reply_comments eng = total_comments stats)%Z /\
    authors stats = JsMap.size (authorCounts comments) /\
    (authors stats <= total_comments stats)%Z /\
    sum_counts (authorCounts comments)
    = count_if (fun c => truthy_opt_string (by_ c)) comments /\
    (List.length (top_commenters a) <= 10)%nat /\
    StronglySorted by_count_desc (top_commenters a) /\
    (forall author n,
        In (author, n) (top_commenters a) ->
        author <> EmptyString /\ (1 <= n)%Z /\
        n = count_if (fun c => opt_string_eqb (by_ c) (Some author)) comments) /\
    (forall x y,
        In x (top_commenters a) ->
        In y (authorCounts comments) ->
        ~ In y (top_commenters a) ->
        (snd y <= snd x)%Z).
Proof.
  intros postId comments timestamp a stats eng.
  assert (Htop : top_commenters a = firstn 10 (sort_by_count (authorCounts comments))).
  { unfold a, comment_analysis. cbn [top_commenters].
    rewrite slice_prefix by lia. reflexivity. }
  assert (Hkeys : JsMap.keys (authorCounts comments) = set_of (authors_of comments)).
  { rewrite authorCounts_tally, keys_tally. reflexivity. }
  assert (Hlen : (List.length (authors_of comments) <= List.length comments)%nat).
  { pose proof (length_authors comments) as H. unfold count_if in H.
    pose proof (filter_length_le (fun c => truthy_opt_string (by_ c)) comments). lia. }
  split; [|split; [|split; [|split; [|split; [|split; [|split]]]]]].
  - unfold eng, stats, a, comment_analysis.
    cbn [engagement_metrics top_level_comments reply_comments comment_statistics
         total_comments].
    apply count_if_split.
  - unfold stats, a, comment_analysis. cbn [comment_statistics authors].
    unfold JsMap.size. rewrite <- Hkeys. unfold JsMap.keys. now rewrite length_map.
  - unfold stats, a, comment_analysis. cbn [comment_statistics authors total_comments].
    pose proof (length_set_from (authors_of comments) []) as H.
    unfold set_of. cbn [List.length] in H. lia.
  - rewrite authorCounts_tally, sum_tally. cbn. apply length_authors.
  - rewrite Htop, length_firstn. lia.
  - rewrite Htop. apply firstn_sorted. apply sort_by_count_sorted.
  - intros author n Hin. rewrite Htop in Hin. apply In_firstn in Hin.
    apply (Permutation_in _ (sort_by_count_perm (authorCounts comments))) in Hin.
    assert (Hwf : JsMap.wf (authorCounts comments)).
    { rewrite authorCounts_tally. apply wf_tally. constructor. }
    apply (get_wf_In _ _ _ Hwf) in Hin.
    rewrite authorCounts_tally, get_tally in Hin. cbn [JsMap.get or_zero] in Hin.
    pose proof (times_nonneg author (authors_of comments)) as Hn.
    destruct (times author (authors_of comments) =? 0)%Z eqn:E; [discriminate|].
    apply Z.eqb_neq in E. injection Hin as Hn'.
    assert (Ha : author <> EmptyString).
    { intros ->. now rewrite times_authors_empty in E. }
    split; [exact Ha|]. split; [lia|].
    rewrite <- (times_authors author comments Ha). lia.
  - intros x y Hx Hy Hny. rewrite Htop in Hx, Hny.
    pose proof (sort_by_count_sorted (authorCounts comments)) as Hs.
    rewrite <- (firstn_skipn 10 (sort_by_count (authorCounts comments))) in Hs.
    apply (sorted_app_inv _ _ _ Hs x y Hx).
    apply (Permutation_in _ (Permutation_sym (sort_by_count_perm (authorCounts comments))))
      in Hy.
    rewrite <- (firstn_skipn 10 (sort_by_count (authorCounts comments))) in Hy.
    apply in_app_or in Hy. destruct Hy as [Hy|Hy]; [contradiction|exact Hy].
Qed.

(** X29. The item resource never resolves without an item.  An id that
    [parseInt] does not read rejects with [Invalid item ID: {id}] before
    anything is fetched; an id whose item is [null] rejects with the plain
    error [Item {n} not found], [n] being the number read; a rejection of
    the client passes through unchanged; and a result has exactly one
    content, the rendering of the item the client returned. *)
Theorem X29_item_resource :
  forall (net : Upstream) (parseInt : string -> option Z)
         (stringify_item : HackerNewsItem -> string) (href id : string) (w : World),
    let r := item_resource net parseInt stringify_item href id w in
    (parseInt id = None ->
     r = (Throw (PlainError ("Invalid item ID: " ++ id)), w)) /\
    (forall n, parseInt id = Some n ->
       (forall w1, getItem net n w = (Ok None, w1) ->
          r = (Throw (PlainError ("Item " ++ num n ++ " not found")), w1)) /\
       (forall t w1, getItem net n w = (Throw t, w1) -> r = (Throw t, w1)) /\
       (forall contents w1, r = (Ok contents, w1) ->
          exists item,
            getItem net n w = (Ok (Some item), w1) /\
            contents = [{| res_uri := href; res_mimeType := "application/json";
                           res_text := stringify_item item |}])).
Proof.
  intros net parseInt stringify_item href id w r. unfold r, item_resource, try_catch.
  split.
  - intros ->. reflexivity.
  - intros n ->. unfold bind.
    destruct (getItem net n w) as [[[item|]|t|] w1]; split; [|split| |split| |split| |split];
      try discriminate.
    + intros contents w2 [= <- <-]. exists item. split; reflexivity.
    + intros w2 [= <-]. reflexivity.
    + intros t' w2 [= <- <-]. reflexivity.
Qed.

(** X29 on the fresh client, with a reader of the ids "404" and "456". *)
Lemma X29_item_resource_witness :
  let parse := fun s : string =>
    if String.eqb s "404" then Some 404%Z
    else if String.eqb s "456" then Some 456%Z else None in
  item_resource Example.hn parse (fun _ => "{}") "hackernews://item/abc" "abc" Example.fresh
  = (Throw (PlainError ("Invalid item ID: " ++ "abc")), Example.fresh) /\
  item_resource Example.hn parse (fun _ => "{}") "hackernews://item/404" "404" Example.fresh
  = (Throw (PlainError ("Item " ++ num 404 ++ " not found")),
     snd (getItem Example.hn 404 Example.fresh)).
Proof.
  intros parse. split.
  - apply (proj1 (X29_item_resource Example.hn parse (fun _ => "{}")
                    "hackernews://item/abc" "abc" Example.fresh)).
    reflexivity.
  - apply (proj1 (proj2 (X29_item_resource Example.hn parse (fun _ => "{}")
                           "hackernews://item/404" "404" Example.fresh)
                    404%Z eq_refl)).
    reflexivity.
Defined.
